(** * Horizon ingestion: the batched transactional writer

    A shallow embedding of [services/horizon/internal/ingest]
    ([ingestion.go], [main.go]) and the properties of its batch writer:
    buffering emitters, account resolution, bounded-parameter flushing,
    trade canonicalisation and range clearing.

    Conventions.
    - Go integers are [Z]; conversions that can wrap are written out.
    - A [map[K]V] is a [gmap]; reading a missing key yields the zero value,
      which is written [default zero (m !! k)].
    - A nil map is the empty [gmap]: reading it is the same in Go, assigning
      to it panics there.  [builders] is nil until [Start] has made it, so a
      property of a method that assigns to [builders] is stated for a writer
      whose map holds a builder.
    - [*Ingestion] methods mutate their receiver and may fail after having
      mutated it: they are state transformers [Ingestion -> Ingestion * outcome A].
    - The destination store ([*db.Session]) is modelled by the list of calls
      issued to it, together with the tables the writer reads back. *)

From Stdlib Require Import ZArith DecimalString DecimalZ DecimalPos Ascii.
From stdpp Require Import gmap strings list fin_maps.

(** ** Machine integers *)

(** Go's [int32(x)] conversion: two's complement truncation. *)
Definition to_int32 (z : Z) : Z := ((z + 2 ^ 31) `mod` 2 ^ 32 - 2 ^ 31)%Z.

(** Go's [int] is 64 bits wide on the platforms horizon runs on. *)
Definition to_int64 (z : Z) : Z := ((z + 2 ^ 63) `mod` 2 ^ 64 - 2 ^ 63)%Z.

(** [a + b] on [int]. *)
Definition int_add (a b : Z) : Z := to_int64 (a + b).

(** [len(s)] of a slice, as an [int]. *)
Definition len {A} (l : list A) : Z := Z.of_nat (length l).

(** [fmt.Sprintf("%d", z)]. *)
Definition sprint_d (z : Z) : string := NilZero.string_of_int (Z.to_int z).

(** ** Values bound to statement parameters ([interface{}]) *)

Inductive Value :=
| VInt (z : Z)
| VString (s : string)
| VBytes (b : list Byte.byte)
| VBool (b : bool)
| VTime (unix : Z)                  (* time.Time, seconds since the epoch, UTC *)
| VNull
| VStringArray (l : list string)    (* sqx.StringArray *)
| VExpr (sql : string) (arg : string). (* sq.Expr with one argument *)

(** [null.String] *)
Module null.
Record String := { String_ : string; Valid : bool }.
Definition NewString (s : string) (valid : bool) : String :=
  {| String_ := s; Valid := valid |}.
Definition StringFrom (s : string) : String := NewString s true.
Definition value (s : String) : Value :=
  if Valid s then VString (String_ s) else VNull.
End null.

(** ** Table names ([main.go], TableName constants) *)

Abbreviation TableName := string.

Definition EffectsTableName : TableName := "history_effects".
Definition LedgersTableName : TableName := "history_ledgers".
Definition OperationParticipantsTableName : TableName := "history_operation_participants".
Definition OperationsTableName : TableName := "history_operations".
Definition TradesTableName : TableName := "history_trades".
Definition TransactionParticipantsTableName : TableName := "history_transaction_participants".
Definition TransactionsTableName : TableName := "history_transactions".

(** The seven tables rows can target. *)
Definition row_tables : list TableName :=
  [ EffectsTableName; LedgersTableName; OperationParticipantsTableName;
    OperationsTableName; TradesTableName; TransactionParticipantsTableName;
    TransactionsTableName ].

Definition CurrentVersion : Z := 11.

(** ** Row variants ([main.go]) *)

Module effectRow.
Record t := {
  AccountID : Z; OperationID : Z; Order : Z; Type_ : Z;
  Details : list Byte.byte;
  Address : string }.
End effectRow.

Module operationRow.
Record t := {
  ID : Z; TxID : Z; Order : Z; Source : string; Type_ : Z;
  Details : list Byte.byte }.
End operationRow.

Module operationParticipantRow.
Record t := { OperationID : Z; AccountID : Z; Address : string }.
End operationParticipantRow.

Module ledgerRow.
Record t := {
  ImporterVersion : Z; ID : Z; Sequence : Z; LedgerHash : string;
  PreviousLedgerHash : null.String; TotalCoins : Z; FeePool : Z;
  BaseFee : Z; BaseReserve : Z; MaxTxSetSize : Z;
  ClosedAt : Z; CreatedAt : Z; UpdatedAt : Z;
  TransactionCount : Z; OperationCount : Z; ProtocolVersion : Z;
  LedgerHeaderXDR : null.String }.
End ledgerRow.

Module tradeRow.
Record t := {
  OperationID : Z; Order : Z; LedgerCloseAt : Z; OfferID : Z;
  BaseAccountID : Z; BaseAssetID : Z; BaseAmount : Z;
  CounterAccountID : Z; CounterAssetID : Z; CounterAmount : Z;
  BaseIsSeller : bool;
  BaseAddress : string; CounterAddress : string }.
End tradeRow.

Module transactionRow.
Record t := {
  ID : Z; TransactionHash : string; LedgerSequence : Z;
  ApplicationOrder : Z; Account : string; AccountSequence : Z;
  FeePaid : Z; OperationCount : Z; TxEnvelope : string; TxResult : string;
  TxMeta : string; TxFeeMeta : string;
  SignaturesString : Value; TimeBounds : Value;
  MemoType : string; Memo : null.String; CreatedAt : Z; UpdatedAt : Z }.
End transactionRow.

Module transactionParticipantRow.
Record t := { TransactionID : Z; AccountID : Z; Address : string }.
End transactionParticipantRow.

(** The [row] interface over its seven implementations. *)
Inductive row :=
| Effect_ (r : effectRow.t)
| Operation_ (r : operationRow.t)
| OperationParticipant_ (r : operationParticipantRow.t)
| Ledger_ (r : ledgerRow.t)
| Trade_ (r : tradeRow.t)
| Transaction_ (r : transactionRow.t)
| TransactionParticipant_ (r : transactionParticipantRow.t).

(** Modelled from the spec: the methods of the seven row variants are not in
    the two source files.  [GetTableName] "reports the table it targets". *)
Definition GetTableName (r : row) : TableName :=
  match r with
  | Effect_ _ => EffectsTableName
  | Operation_ _ => OperationsTableName
  | OperationParticipant_ _ => OperationParticipantsTableName
  | Ledger_ _ => LedgersTableName
  | Trade_ _ => TradesTableName
  | Transaction_ _ => TransactionsTableName
  | TransactionParticipant_ _ => TransactionParticipantsTableName
  end.

(** Modelled from the spec: [GetParams] "produces its ordered parameter tuple
    matching the target table's column order"; the column orders are those of
    the [create...InsertBuilder] functions of [ingestion.go].  The address
    helper fields of a row are not columns. *)
Definition GetParams (r : row) : list Value :=
  match r with
  | Effect_ r =>
      [ VInt (effectRow.AccountID r); VInt (effectRow.OperationID r);
        VInt (effectRow.Order r); VInt (effectRow.Type_ r);
        VBytes (effectRow.Details r) ]
  | Operation_ r =>
      [ VInt (operationRow.ID r); VInt (operationRow.TxID r);
        VInt (operationRow.Order r); VString (operationRow.Source r);
        VInt (operationRow.Type_ r); VBytes (operationRow.Details r) ]
  | OperationParticipant_ r =>
      [ VInt (operationParticipantRow.OperationID r);
        VInt (operationParticipantRow.AccountID r) ]
  | Ledger_ r =>
      [ VInt (ledgerRow.ImporterVersion r); VInt (ledgerRow.ID r);
        VInt (ledgerRow.Sequence r); VString (ledgerRow.LedgerHash r);
        null.value (ledgerRow.PreviousLedgerHash r);
        VInt (ledgerRow.TotalCoins r); VInt (ledgerRow.FeePool r);
        VInt (ledgerRow.BaseFee r); VInt (ledgerRow.BaseReserve r);
        VInt (ledgerRow.MaxTxSetSize r); VTime (ledgerRow.ClosedAt r);
        VTime (ledgerRow.CreatedAt r); VTime (ledgerRow.UpdatedAt r);
        VInt (ledgerRow.TransactionCount r); VInt (ledgerRow.OperationCount r);
        VInt (ledgerRow.ProtocolVersion r);
        null.value (ledgerRow.LedgerHeaderXDR r) ]
  | Trade_ r =>
      [ VInt (tradeRow.OperationID r); VInt (tradeRow.Order r);
        VTime (tradeRow.LedgerCloseAt r); VInt (tradeRow.OfferID r);
        VInt (tradeRow.BaseAccountID r); VInt (tradeRow.BaseAssetID r);
        VInt (tradeRow.BaseAmount r); VInt (tradeRow.CounterAccountID r);
        VInt (tradeRow.CounterAssetID r); VInt (tradeRow.CounterAmount r);
        VBool (tradeRow.BaseIsSeller r) ]
  | Transaction_ r =>
      [ VInt (transactionRow.ID r); VString (transactionRow.TransactionHash r);
        VInt (transactionRow.LedgerSequence r);
        VInt (transactionRow.ApplicationOrder r);
        VString (transactionRow.Account r);
        VInt (transactionRow.AccountSequence r); VInt (transactionRow.FeePaid r);
        VInt (transactionRow.OperationCount r);
        VString (transactionRow.TxEnvelope r); VString (transactionRow.TxResult r);
        VString (transactionRow.TxMeta r); VString (transactionRow.TxFeeMeta r);
        transactionRow.SignaturesString r; transactionRow.TimeBounds r;
        VString (transactionRow.MemoType r); null.value (transactionRow.Memo r);
        VTime (transactionRow.CreatedAt r); VTime (transactionRow.UpdatedAt r) ]
  | TransactionParticipant_ r =>
      [ VInt (transactionParticipantRow.TransactionID r);
        VInt (transactionParticipantRow.AccountID r) ]
  end.

(** Modelled from the spec: [GetAddresses] "reports the set of account
    addresses it references (zero or more)": the address helper fields that
    stand next to an account identifier column in the struct. *)
Definition GetAddresses (r : row) : list string :=
  match r with
  | Effect_ r => [ effectRow.Address r ]
  | OperationParticipant_ r => [ operationParticipantRow.Address r ]
  | Trade_ r => [ tradeRow.BaseAddress r; tradeRow.CounterAddress r ]
  | TransactionParticipant_ r => [ transactionParticipantRow.Address r ]
  | Operation_ _ | Ledger_ _ | Transaction_ _ => []
  end.

(** [accounts[address]] on a Go map: the zero value when the key is absent. *)
Definition account_id (accounts : gmap string Z) (address : string) : Z :=
  default 0%Z (accounts !! address).

(** Modelled from the spec: [UpdateAccountIDs] "accepts a completed
    address->identifier map and rewrites its internal address references into
    resolved identifiers". *)
Definition row_UpdateAccountIDs (accounts : gmap string Z) (r : row) : row :=
  match r with
  | Effect_ r =>
      Effect_
        {| effectRow.AccountID := account_id accounts (effectRow.Address r);
           effectRow.OperationID := effectRow.OperationID r;
           effectRow.Order := effectRow.Order r;
           effectRow.Type_ := effectRow.Type_ r;
           effectRow.Details := effectRow.Details r;
           effectRow.Address := effectRow.Address r |}
  | OperationParticipant_ r =>
      OperationParticipant_
        {| operationParticipantRow.OperationID := operationParticipantRow.OperationID r;
           operationParticipantRow.AccountID :=
             account_id accounts (operationParticipantRow.Address r);
           operationParticipantRow.Address := operationParticipantRow.Address r |}
  | Trade_ r =>
      Trade_
        {| tradeRow.OperationID := tradeRow.OperationID r;
           tradeRow.Order := tradeRow.Order r;
           tradeRow.LedgerCloseAt := tradeRow.LedgerCloseAt r;
           tradeRow.OfferID := tradeRow.OfferID r;
           tradeRow.BaseAccountID := account_id accounts (tradeRow.BaseAddress r);
           tradeRow.BaseAssetID := tradeRow.BaseAssetID r;
           tradeRow.BaseAmount := tradeRow.BaseAmount r;
           tradeRow.CounterAccountID := account_id accounts (tradeRow.CounterAddress r);
           tradeRow.CounterAssetID := tradeRow.CounterAssetID r;
           tradeRow.CounterAmount := tradeRow.CounterAmount r;
           tradeRow.BaseIsSeller := tradeRow.BaseIsSeller r;
           tradeRow.BaseAddress := tradeRow.BaseAddress r;
           tradeRow.CounterAddress := tradeRow.CounterAddress r |}
  | TransactionParticipant_ r =>
      TransactionParticipant_
        {| transactionParticipantRow.TransactionID := transactionParticipantRow.TransactionID r;
           transactionParticipantRow.AccountID :=
             account_id accounts (transactionParticipantRow.Address r);
           transactionParticipantRow.Address := transactionParticipantRow.Address r |}
  | Operation_ _ | Ledger_ _ | Transaction_ _ => r
  end.

(** ** Statement builders ([sq.InsertBuilder]) *)

(** A column name written between double quotes, as SQL wants a reserved
    word. *)
Definition quoted (s : string) : string :=
  String (Ascii.ascii_of_nat 34) (s +:+ String (Ascii.ascii_of_nat 34) EmptyString).

(** An insert statement under construction: target table, column list and
    the value tuples appended so far, oldest first. *)
Record InsertBuilder := {
  into : string;
  columns : list string;
  values : list (list Value) }.

Definition sq_Insert (table : string) : InsertBuilder :=
  {| into := table; columns := []; values := [] |}.

Definition Columns (cs : list string) (b : InsertBuilder) : InsertBuilder :=
  {| into := into b; columns := columns b ++ cs; values := values b |}.

Definition Values (vs : list Value) (b : InsertBuilder) : InsertBuilder :=
  {| into := into b; columns := columns b; values := values b ++ [vs] |}.

(** The zero value of the struct, read from a map without the key. *)
Definition zero_builder : InsertBuilder := sq_Insert EmptyString.

(** Number of bound parameters a statement carries. *)
Definition bound_params (b : InsertBuilder) : Z := len (concat (values b)).

(** ** Errors and outcomes *)

Inductive error :=
| StoreError (msg : string)          (* reported by the destination store *)
| EncodingError (msg : string)       (* reported by json.Marshal *)
| Errorf (msg : string)              (* errors.Errorf *)
| Wrap (e : error) (msg : string).   (* errors.Wrap *)

Inductive outcome (A : Type) :=
| Ok (a : A)
| Err (e : error)
| Panic (msg : string).
Arguments Ok {A} a.
Arguments Err {A} e.
Arguments Panic {A} msg.

(** ** The destination store ([*db.Session], package [history]) *)

Inductive Asset :=
| AssetNative
| AssetCreditAlphanum4 (code issuer : string)
| AssetCreditAlphanum12 (code issuer : string).

#[global] Instance Asset_eq_dec : EqDecision Asset.
Proof. solve_decision. Defined.

Module history.
Record Account := { ID : Z; Address : string }.
End history.

(** A stored record: column name and value, in column order. *)
Definition StoredRow := list (string * Value).

(** The calls the writer issues to the store. *)
Inductive Call :=
| BEGIN
| COMMIT
| ROLLBACK
| INSERT (b : InsertBuilder)                            (* Exec of a builder *)
| DELETE_RANGE (start end_ : Z) (table idCol : string)  (* DeleteRange *)
| SELECT_ACCOUNTS (addresses : list string)             (* AccountsByAddresses *)
| INSERT_ACCOUNTS (addresses : list string)             (* CreateAccounts *)
| GET_CREATE_ASSET (asset : Asset).                     (* GetCreateAssetID *)

Record Session := {
  calls : list Call;                       (* every call issued, oldest first *)
  accounts : list history.Account;         (* history_accounts *)
  account_seq : Z;                         (* next account identifier *)
  assets : list (Asset * Z);               (* history_assets *)
  asset_seq : Z;                           (* next asset identifier *)
  tables : gmap string (list StoredRow) }. (* the tables rows are written to *)

Definition log (c : Call) (s : Session) : Session :=
  {| calls := calls s ++ [c]; accounts := accounts s;
     account_seq := account_seq s; assets := assets s;
     asset_seq := asset_seq s; tables := tables s |}.

Definition set_tables (t : gmap string (list StoredRow)) (s : Session) : Session :=
  {| calls := calls s; accounts := accounts s;
     account_seq := account_seq s; assets := assets s;
     asset_seq := asset_seq s; tables := t |}.

Definition add_accounts (new : list history.Account) (s : Session) : Session :=
  {| calls := calls s; accounts := accounts s ++ new;
     account_seq := (account_seq s + len new)%Z; assets := assets s;
     asset_seq := asset_seq s; tables := tables s |}.

Definition add_asset (a : Asset) (s : Session) : Session :=
  {| calls := calls s; accounts := accounts s;
     account_seq := account_seq s; assets := assets s ++ [(a, asset_seq s)];
     asset_seq := (asset_seq s + 1)%Z; tables := tables s |}.

(** Identifier of an asset already recorded. *)
Definition asset_lookup (a : Asset) (s : Session) : option Z :=
  (λ ip, ip.2.2) <$> list_find (λ p, p.1 = a) (assets s).

(** Records of [table] as stored, [[]] for a table never written. *)
Definition table_rows (table : string) (s : Session) : list StoredRow :=
  default [] (tables s !! table).

(** The integer a stored record holds in column [col], if any. *)
Definition key_of (col : string) (r : StoredRow) : option Z :=
  match list_find (λ p, p.1 = col) r with
  | Some (_, (_, VInt k)) => Some k
  | _ => None
  end.

(** Whether a stored record falls in the half-open range [[start, end_)]. *)
Definition in_range (start end_ : Z) (col : string) (r : StoredRow) : bool :=
  match key_of col r with
  | Some k => bool_decide (start ≤ k)%Z && bool_decide (k < end_)%Z
  | None => false
  end.

(** Identifiers handed out to [addresses] by a sequence standing at [seq]. *)
Fixpoint fresh_accounts (seq : Z) (addresses : list string) : list history.Account :=
  match addresses with
  | [] => []
  | a :: rest =>
      {| history.ID := seq; history.Address := a |} :: fresh_accounts (seq + 1) rest
  end.

(** Go leaves the order of [for k, v := range m] unspecified: an enumeration
    of a map is any arrangement of its entries. *)
Class MapRange := {
  range : ∀ {V : Type}, gmap string V → list (string * V);
  range_perm : ∀ {V : Type} (m : gmap string V), range m ≡ₚ map_to_list m }.

(** One such enumeration. *)
Definition canonical_range : MapRange :=
  {| range := λ V, map_to_list; range_perm := λ V m, reflexivity _ |}.

(** ** The writer ([Ingestion]) *)

Record Ingestion := {
  DB : Session;
  builders : gmap string InsertBuilder;
  rowsToInsert : list row;
  assetStats : InsertBuilder }.

Definition set_DB (s : Session) (ing : Ingestion) : Ingestion :=
  {| DB := s; builders := builders ing;
     rowsToInsert := rowsToInsert ing; assetStats := assetStats ing |}.

Definition set_builders (b : gmap string InsertBuilder) (ing : Ingestion) : Ingestion :=
  {| DB := DB ing; builders := b;
     rowsToInsert := rowsToInsert ing; assetStats := assetStats ing |}.

Definition set_rowsToInsert (rows : list row) (ing : Ingestion) : Ingestion :=
  {| DB := DB ing; builders := builders ing;
     rowsToInsert := rows; assetStats := assetStats ing |}.

Definition set_assetStats (b : InsertBuilder) (ing : Ingestion) : Ingestion :=
  {| DB := DB ing; builders := builders ing;
     rowsToInsert := rowsToInsert ing; assetStats := b |}.

(** The value [NewSession] builds: a connection and nothing else. *)
Definition new_Ingestion (db : Session) : Ingestion :=
  {| DB := db; builders := ∅; rowsToInsert := []; assetStats := zero_builder |}.

(** Methods on [*Ingestion]: the receiver is threaded through, and survives
    an error or a panic with whatever was written to it before. *)
Definition M (A : Type) : Type := Ingestion → Ingestion * outcome A.

Definition ret {A} (a : A) : M A := λ ing, (ing, Ok a).

Definition fail {A} (e : error) : M A := λ ing, (ing, Err e).

Definition panic {A} (msg : string) : M A := λ ing, (ing, Panic msg).

Definition bind {A B} (m : M A) (k : A → M B) : M B := λ ing,
  match m ing with
  | (ing', Ok a) => k a ing'
  | (ing', Err e) => (ing', Err e)
  | (ing', Panic msg) => (ing', Panic msg)
  end.

Notation "x <~ m ;; k" := (bind m (λ x, k))
  (at level 100, m at next level, right associativity).
Notation "m ;;; k" := (bind m (λ _, k))
  (at level 100, right associativity).

Definition get : M Ingestion := λ ing, (ing, Ok ing).

Definition modify (f : Ingestion → Ingestion) : M unit := λ ing, (f ing, Ok tt).

(** [if err != nil { return errors.Wrap(err, msg) }] *)
Definition wrap {A} (msg : string) (m : M A) : M A := λ ing,
  match m ing with
  | (ing', Err e) => (ing', Err (Wrap e msg))
  | r => r
  end.

(** [for _, x := range l { ... }] with the loop's local state threaded. *)
Fixpoint for_range {A S} (l : list A) (body : A → S → M S) (st : S) : M S :=
  match l with
  | [] => ret st
  | x :: l' => st' <~ body x st ;; for_range l' body st'
  end.

(** [ingest.rowsToInsert = append(ingest.rowsToInsert, r)] *)
Definition append_row (r : row) : M unit :=
  modify (λ ing, set_rowsToInsert (rowsToInsert ing ++ [r]) ing).

(** [ingest.builders[name] = b] *)
Definition set_builder (name : TableName) (b : InsertBuilder) : M unit :=
  modify (λ ing, set_builders (<[name := b]> (builders ing)) ing).

(** [ingest.builders[name]] read as a value. *)
Definition builder (name : TableName) (ing : Ingestion) : InsertBuilder :=
  default zero_builder (builders ing !! name).

(** ** Arguments of the emitters (packages [xdr] and [core])

    The decoded ledger data the emitters receive; methods the emitters call
    on them (an XDR encoding, a strkey address) are fields holding the
    method's result. *)

Module xdr.
Record AccountId := { Address : string }.
Record ClaimOfferAtom := {
  SellerId : AccountId; OfferId : Z;
  AssetSold : Asset; AmountSold : Z;
  AssetBought : Asset; AmountBought : Z }.
Record TimeBounds := { MinTime : Z; MaxTime : Z }.
Record LedgerHeader := {
  TotalCoins : Z; FeePool : Z; BaseFee : Z; BaseReserve : Z;
  MaxTxSetSize : Z; LedgerVersion : Z }.
End xdr.

Module core.
Record LedgerHeader := {
  Sequence : Z; LedgerHash : string; PrevHash : string; CloseTime : Z;
  Data : xdr.LedgerHeader; DataXDR : string }.
Record Transaction := {
  TransactionHash : string; LedgerSequence : Z; Index : Z;
  SourceAddress : string; Sequence_ : Z; Fee : Z;
  Operations : Z;                          (* len(tx.Envelope.Tx.Operations) *)
  EnvelopeXDR : string; ResultXDR : string; ResultMetaXDR : string;
  Base64Signatures : list string;
  TimeBounds : option xdr.TimeBounds;      (* tx.Envelope.Tx.TimeBounds *)
  MemoType : string; Memo : null.String }.
Record TransactionFee := { ChangesXDR : string }.
End core.

Definition MaxInt64 : Z := (2 ^ 63 - 1)%Z.

Section Writer.

(** What the world decides: whether a call to the store fails (and with
    which message), given the calls issued before it; [json.Marshal]; the
    order of map iteration. *)
Context (fault : list Call → Call → option string).
Context {Details : Type} (json_Marshal : Details → error + list Byte.byte).
Context {map_range : MapRange}.

(** *** Calls to the store *)

(** A call is recorded whether it fails or not; a failed call has no other
    effect. *)
Definition call {A} (c : Call) (run : Session → Session * A)
    (s : Session) : Session * outcome A :=
  match fault (calls s) c with
  | Some msg => (log c s, Err (StoreError msg))
  | None => let '(s', a) := run (log c s) in (s', Ok a)
  end.

Definition db_Begin : Session → Session * outcome unit :=
  call BEGIN (λ s, (s, tt)).

Definition db_Commit : Session → Session * outcome unit :=
  call COMMIT (λ s, (s, tt)).


(** Modelled from the spec: [db.Session.Exec] of an insert statement is not
    in the source files; it appends one record per value tuple to the
    statement's table ("one append-only, multi-row insert statement per
    table", first column mapped to the first parameter). *)
Definition db_Exec (b : InsertBuilder) : Session → Session * outcome unit :=
  call (INSERT b) (λ s,
    (set_tables (<[into b := table_rows (into b) s ++ map (zip (columns b)) (values b)]>
                   (tables s)) s, tt)).

(** Modelled from the spec: [db.Session.DeleteRange] is not in the source
    files; it is a "range-delete ... using a half-open interval
    [start, end)" on the table's identifying column. *)
Definition db_DeleteRange (start end_ : Z) (table idCol : string)
    : Session → Session * outcome unit :=
  call (DELETE_RANGE start end_ table idCol) (λ s,
    (set_tables (alter (filter (λ r, in_range start end_ idCol r = false)) table
                   (tables s)) s, tt)).

(** Modelled from the spec: [history.Q.AccountsByAddresses] is not in the
    source files; it "queries the destination store for existing account
    records matching that address set". *)
Definition q_AccountsByAddresses (addresses : list string)
    : Session → Session * outcome (list history.Account) :=
  call (SELECT_ACCOUNTS addresses) (λ s,
    (s, filter (λ a, history.Address a ∈ addresses) (accounts s))).

(** Modelled from the spec: [history.Q.CreateAccounts] is not in the source
    files; each address "is inserted as a new account record, allocating a
    fresh identifier from the store".  The store itself does not refuse an
    address it already holds. *)
Definition q_CreateAccounts (addresses : list string)
    : Session → Session * outcome (list history.Account) :=
  call (INSERT_ACCOUNTS addresses) (λ s,
    let new := fresh_accounts (account_seq s) addresses in
    (add_accounts new s, new)).

(** Modelled from the spec: [history.Q.GetCreateAssetID] is not in the source
    files; it is the "asset lookup/creation service keyed by asset
    descriptor returning stable integer identifiers" (get-or-create). *)
Definition q_GetCreateAssetID (a : Asset) : Session → Session * outcome Z :=
  call (GET_CREATE_ASSET a) (λ s,
    match asset_lookup a s with
    | Some id => (s, id)
    | None => (add_asset a s, asset_seq s)
    end).

(** A store call made through [ingest.DB]. *)
Definition db {A} (op : Session → Session * outcome A) : M A := λ ing,
  let '(s', r) := op (DB ing) in (set_DB s' ing, r).

(** *** Clear, ClearAll *)

(** The tables [Clear] empties and the column each is keyed by, in the
    order of the calls. *)
Definition clear_targets : list (string * string) :=
  [ ("history_effects", "history_operation_id");
    ("history_operation_participants", "history_operation_id");
    ("history_operations", "id");
    ("history_transaction_participants", "history_transaction_id");
    ("history_transactions", "id");
    ("history_ledgers", "id");
    ("history_trades", "history_operation_id");
    ("asset_stats", "id") ].

Definition Clear (start end_ : Z) : M unit :=
  let clear := λ start end_ table idCol, db (db_DeleteRange start end_ table idCol) in
  clear start end_ "history_effects" "history_operation_id" ;;;
  clear start end_ "history_operation_participants" "history_operation_id" ;;;
  clear start end_ "history_operations" "id" ;;;
  clear start end_ "history_transaction_participants" "history_transaction_id" ;;;
  clear start end_ "history_transactions" "id" ;;;
  clear start end_ "history_ledgers" "id" ;;;
  clear start end_ "history_trades" "history_operation_id" ;;;
  clear start end_ "asset_stats" "id" ;;;
  ret tt.

Definition ClearAll : M unit := Clear 0 MaxInt64.

(** *** commit, Close, Rollback *)

Definition commit : M unit := db db_Commit ;;; ret tt.

Definition Close : M unit := commit.


(** *** Statement builders of the seven tables *)

Definition createOperationsInsertBuilder : M unit :=
  set_builder OperationsTableName
    (Columns [ "id"; "transaction_id"; "application_order"; "source_account";
               "type"; "details" ]
       (sq_Insert OperationsTableName)).

Definition createOperationParticipantsInsertBuilder : M unit :=
  set_builder OperationParticipantsTableName
    (Columns [ "history_operation_id"; "history_account_id" ]
       (sq_Insert OperationParticipantsTableName)).

Definition createTransactionParticipantsInsertBuilder : M unit :=
  set_builder TransactionParticipantsTableName
    (Columns [ "history_transaction_id"; "history_account_id" ]
       (sq_Insert TransactionParticipantsTableName)).

Definition createEffectsInsertBuilder : M unit :=
  set_builder EffectsTableName
    (Columns [ "history_account_id"; "history_operation_id"; quoted "order";
               "type"; "details" ]
       (sq_Insert EffectsTableName)).

Definition createTradesInsertBuilder : M unit :=
  set_builder TradesTableName
    (Columns [ "history_operation_id"; quoted "order"; "ledger_closed_at";
               "offer_id"; "base_account_id"; "base_asset_id"; "base_amount";
               "counter_account_id"; "counter_asset_id"; "counter_amount";
               "base_is_seller" ]
       (sq_Insert TradesTableName)).

Definition createLedgersInsertBuilder : M unit :=
  set_builder LedgersTableName
    (Columns [ "importer_version"; "id"; "sequence"; "ledger_hash";
               "previous_ledger_hash"; "total_coins"; "fee_pool"; "base_fee";
               "base_reserve"; "max_tx_set_size"; "closed_at"; "created_at";
               "updated_at"; "transaction_count"; "operation_count";
               "protocol_version"; "ledger_header" ]
       (sq_Insert "history_ledgers")).

Definition createTransactionsInsertBuilder : M unit :=
  set_builder TransactionsTableName
    (Columns [ "id"; "transaction_hash"; "ledger_sequence"; "application_order";
               "account"; "account_sequence"; "fee_paid"; "operation_count";
               "tx_envelope"; "tx_result"; "tx_meta"; "tx_fee_meta";
               "signatures"; "time_bounds"; "memo_type"; "memo"; "created_at";
               "updated_at" ]
       (sq_Insert "history_transactions")).

Definition createInsertBuilderByTableName (name : TableName) : M unit :=
  if decide (name = OperationsTableName) then createOperationsInsertBuilder
  else if decide (name = EffectsTableName) then createEffectsInsertBuilder
  else if decide (name = LedgersTableName) then createLedgersInsertBuilder
  else if decide (name = TradesTableName) then createTradesInsertBuilder
  else if decide (name = OperationParticipantsTableName)
    then createOperationParticipantsInsertBuilder
  else if decide (name = TransactionsTableName) then createTransactionsInsertBuilder
  else if decide (name = TransactionParticipantsTableName)
    then createTransactionParticipantsInsertBuilder
  else panic "Invalid table name".

Definition createInsertBuilders : M unit :=
  modify (set_builders ∅) ;;;
  createEffectsInsertBuilder ;;;
  createLedgersInsertBuilder ;;;
  createOperationParticipantsInsertBuilder ;;;
  createOperationsInsertBuilder ;;;
  createTradesInsertBuilder ;;;
  createTransactionParticipantsInsertBuilder ;;;
  createTransactionsInsertBuilder ;;;
  modify (set_assetStats
    (Columns [ "id"; "amount"; "num_accounts"; "flags"; "toml" ]
       (sq_Insert "asset_stats"))).

(** *** Start *)

Definition Start : M unit :=
  db db_Begin ;;;
  createInsertBuilders ;;;
  modify (set_rowsToInsert []).

(** *** Emitters *)

(** [json.Marshal(details)] followed by [if err != nil { return err }]. *)
Definition marshal (details : Details) : M (list Byte.byte) :=
  match json_Marshal details with
  | inl err => fail err
  | inr djson => ret djson
  end.

Definition Effect (address : string) (opid : Z) (order : Z) (typ : Z)
    (details : Details) : M unit :=
  djson <~ marshal details ;;
  append_row (Effect_
    {| effectRow.AccountID := 0;
       effectRow.Address := address;
       effectRow.OperationID := opid;
       effectRow.Order := order;
       effectRow.Type_ := typ;
       effectRow.Details := djson |}).

(** [now1], [now2]: the two readings of [time.Now()]. *)
Definition Ledger (id : Z) (header : core.LedgerHeader) (txs ops : Z)
    (now1 now2 : Z) : M unit :=
  append_row (Ledger_
    {| ledgerRow.ImporterVersion := CurrentVersion;
       ledgerRow.ID := id;
       ledgerRow.Sequence := core.Sequence header;
       ledgerRow.LedgerHash := core.LedgerHash header;
       ledgerRow.PreviousLedgerHash :=
         null.NewString (core.PrevHash header) (bool_decide (1 < core.Sequence header)%Z);
       ledgerRow.TotalCoins := xdr.TotalCoins (core.Data header);
       ledgerRow.FeePool := xdr.FeePool (core.Data header);
       ledgerRow.BaseFee := to_int32 (xdr.BaseFee (core.Data header));
       ledgerRow.BaseReserve := to_int32 (xdr.BaseReserve (core.Data header));
       ledgerRow.MaxTxSetSize := to_int32 (xdr.MaxTxSetSize (core.Data header));
       ledgerRow.ClosedAt := core.CloseTime header;
       ledgerRow.CreatedAt := now1;
       ledgerRow.UpdatedAt := now2;
       ledgerRow.TransactionCount := to_int32 txs;
       ledgerRow.OperationCount := to_int32 ops;
       ledgerRow.ProtocolVersion := to_int32 (xdr.LedgerVersion (core.Data header));
       ledgerRow.LedgerHeaderXDR := null.StringFrom (core.DataXDR header) |}).

Definition Operation (id txid : Z) (order : Z) (source : xdr.AccountId)
    (typ : Z) (details : Details) : M unit :=
  djson <~ marshal details ;;
  append_row (Operation_
    {| operationRow.ID := id;
       operationRow.TxID := txid;
       operationRow.Order := order;
       operationRow.Source := xdr.Address source;
       operationRow.Type_ := typ;
       operationRow.Details := djson |}).

Definition OperationParticipants (op : Z) (aids : list xdr.AccountId) : M unit :=
  for_range aids (λ aid _,
    append_row (OperationParticipant_
      {| operationParticipantRow.OperationID := op;
         operationParticipantRow.AccountID := 0;
         operationParticipantRow.Address := xdr.Address aid |})) tt.

Definition Trade (opid : Z) (order : Z) (buyer : xdr.AccountId)
    (trade : xdr.ClaimOfferAtom) (ledgerClosedAt : Z) : M unit :=
  let sellerAddress := xdr.Address (xdr.SellerId trade) in
  let buyerAddress := xdr.Address buyer in
  soldAssetId <~ wrap "failed to get sold asset id"
                   (db (q_GetCreateAssetID (xdr.AssetSold trade))) ;;
  boughtAssetId <~ wrap "failed to get bought asset id"
                     (db (q_GetCreateAssetID (xdr.AssetBought trade))) ;;
  let '(baseAddress, baseAssetId, baseAmount,
        counterAddress, counterAssetId, counterAmount) :=
    if bool_decide (soldAssetId < boughtAssetId)%Z then
      (sellerAddress, soldAssetId, xdr.AmountSold trade,
       buyerAddress, boughtAssetId, xdr.AmountBought trade)
    else
      (buyerAddress, boughtAssetId, xdr.AmountBought trade,
       sellerAddress, soldAssetId, xdr.AmountSold trade) in
  append_row (Trade_
    {| tradeRow.OperationID := opid;
       tradeRow.Order := order;
       tradeRow.LedgerCloseAt := ledgerClosedAt;
       tradeRow.OfferID := xdr.OfferId trade;
       tradeRow.BaseAccountID := 0;
       tradeRow.BaseAssetID := baseAssetId;
       tradeRow.BaseAmount := baseAmount;
       tradeRow.CounterAccountID := 0;
       tradeRow.CounterAssetID := counterAssetId;
       tradeRow.CounterAmount := counterAmount;
       tradeRow.BaseIsSeller := bool_decide (soldAssetId < boughtAssetId)%Z;
       tradeRow.BaseAddress := baseAddress;
       tradeRow.CounterAddress := counterAddress |}).

Definition formatTimeBounds (bounds : option xdr.TimeBounds) : Value :=
  match bounds with
  | None => VNull
  | Some bounds =>
      if bool_decide (xdr.MaxTime bounds = 0)%Z then
        VExpr "?::int8range" ("[" +:+ sprint_d (xdr.MinTime bounds) +:+ ",]")
      else
        VExpr "?::int8range"
          ("[" +:+ sprint_d (xdr.MinTime bounds) +:+ "," +:+
           sprint_d (xdr.MaxTime bounds) +:+ "]")
  end.

Definition Transaction (id : Z) (tx : core.Transaction) (fee : core.TransactionFee)
    (now1 now2 : Z) : M unit :=
  let signatures := core.Base64Signatures tx in
  append_row (Transaction_
    {| transactionRow.ID := id;
       transactionRow.TransactionHash := core.TransactionHash tx;
       transactionRow.LedgerSequence := core.LedgerSequence tx;
       transactionRow.ApplicationOrder := core.Index tx;
       transactionRow.Account := core.SourceAddress tx;
       transactionRow.AccountSequence := core.Sequence_ tx;
       transactionRow.FeePaid := core.Fee tx;
       transactionRow.OperationCount := core.Operations tx;
       transactionRow.TxEnvelope := core.EnvelopeXDR tx;
       transactionRow.TxResult := core.ResultXDR tx;
       transactionRow.TxMeta := core.ResultMetaXDR tx;
       transactionRow.TxFeeMeta := core.ChangesXDR fee;
       transactionRow.SignaturesString := VStringArray signatures;
       transactionRow.TimeBounds := formatTimeBounds (core.TimeBounds tx);
       transactionRow.MemoType := core.MemoType tx;
       transactionRow.Memo := core.Memo tx;
       transactionRow.CreatedAt := now1;
       transactionRow.UpdatedAt := now2 |}).

Definition TransactionParticipants (tx : Z) (aids : list xdr.AccountId) : M unit :=
  for_range aids (λ aid _,
    append_row (TransactionParticipant_
      {| transactionParticipantRow.TransactionID := tx;
         transactionParticipantRow.AccountID := 0;
         transactionParticipantRow.Address := xdr.Address aid |})) tt.

(** *** UpdateAccountIDs *)

(** One pass of the inner collecting loop: [address] joins [addresses] the
    first time it is seen, and is a key of [accounts] from then on. *)
Definition collect_address (st : gmap string Z * list string) (address : string)
    : gmap string Z * list string :=
  let '(accounts, addresses) := st in
  (<[address := 0%Z]> accounts,
   if decide (is_Some (accounts !! address)) then addresses
   else addresses ++ [address]).

Definition collect_addresses (rows : list row) : gmap string Z * list string :=
  foldl (λ st row, foldl collect_address st (GetAddresses row)) (∅, []) rows.

(** [for _, row := range dbAccounts { accounts[row.Address] = row.ID }] *)
Definition record_accounts (dbAccounts : list history.Account)
    (accounts : gmap string Z) : gmap string Z :=
  foldl (λ accounts row, <[history.Address row := history.ID row]> accounts)
    accounts dbAccounts.

(** The addresses still mapped to 0, in the order the map is ranged over. *)
Definition unresolved (accounts : gmap string Z) : list string :=
  (filter (λ p, p.2 = 0%Z) (range accounts)).*1.

Definition UpdateAccountIDs : M unit :=
  ing <~ get ;;
  let '(accounts, addresses) := collect_addresses (rowsToInsert ing) in
  if bool_decide (len addresses = 0)%Z then ret tt
  else
    dbAccounts <~ db (q_AccountsByAddresses addresses) ;;
    let accounts := record_accounts dbAccounts accounts in
    let addresses := unresolved accounts in
    accounts <~ (if bool_decide (0 < len addresses)%Z then
                   dbAccounts <~ db (q_CreateAccounts addresses) ;;
                   ret (record_accounts dbAccounts accounts)
                 else ret accounts) ;;
    modify (λ ing,
      set_rowsToInsert (map (row_UpdateAccountIDs accounts) (rowsToInsert ing)) ing).

(** *** Flush *)

(** [paramsCount[tableName]] *)
Definition count (paramsCount : gmap string Z) (tableName : TableName) : Z :=
  default 0%Z (paramsCount !! tableName).

Definition exec_error (tableName : TableName) : string :=
  "Error adding values while inserting to " +:+ tableName.

(** The body of the first loop of [Flush]. *)
Definition flush_row (row : row) (paramsCount : gmap string Z)
    : M (gmap string Z) :=
  let tableName := GetTableName row in
  let params := GetParams row in
  ing <~ get ;;
  match builders ing !! tableName with
  | None => fail (Errorf (tableName +:+ " insert builder does not exist"))
  | Some b =>
      set_builder tableName (Values params b) ;;;
      let paramsCount :=
        <[tableName := int_add (count paramsCount tableName) (len params)]>
          paramsCount in
      if bool_decide (65000 < count paramsCount tableName)%Z then
        ing <~ get ;;
        wrap (exec_error tableName) (db (db_Exec (builder tableName ing))) ;;;
        let paramsCount := <[tableName := 0%Z]> paramsCount in
        createInsertBuilderByTableName tableName ;;;
        ret paramsCount
      else ret paramsCount
  end.

(** The body of the second loop of [Flush]. *)
Definition flush_rest (entry : TableName * Z) (_ : unit) : M unit :=
  let '(tableName, params) := entry in
  if bool_decide (0 < params)%Z then
    ing <~ get ;;
    wrap (exec_error tableName) (db (db_Exec (builder tableName ing))) ;;;
    ret tt
  else ret tt.

(** The two insert loops. *)
Definition flush_inserts : M unit :=
  ing <~ get ;;
  paramsCount <~ for_range (rowsToInsert ing) flush_row ∅ ;;
  for_range (range paramsCount) flush_rest tt.

Definition Flush : M unit :=
  wrap "Error while updating account ids" UpdateAccountIDs ;;;
  flush_inserts ;;;
  commit ;;;
  Start.

End Writer.

(** * Vocabulary of the properties *)

(** ** Emitters *)

(** Appending rows is all a method does. *)
Definition appends (m : M unit) (ing : Ingestion) (rows : list row) : Prop :=
  (m ing).1 = set_rowsToInsert (rowsToInsert ing ++ rows) ing.

(** ** Clear *)

(** The calls a run of [Clear] over [targets] consists of. *)
Definition delete_calls (start end_ : Z) (targets : list (string * string))
    : list Call :=
  map (λ tc, DELETE_RANGE start end_ tc.1 tc.2) targets.

(** What one successful range delete does to the tables. *)
Definition delete_range (start end_ : Z) (tables : gmap string (list StoredRow))
    (tc : string * string) : gmap string (list StoredRow) :=
  alter (filter (λ r, in_range start end_ tc.2 r = false)) tc.1 tables.

(** ** Trades *)

(** The two sides of a trade row: who, which asset, how much. *)
Definition base_side (r : tradeRow.t) : string * Z * Z :=
  (tradeRow.BaseAddress r, tradeRow.BaseAssetID r, tradeRow.BaseAmount r).

Definition counter_side (r : tradeRow.t) : string * Z * Z :=
  (tradeRow.CounterAddress r, tradeRow.CounterAssetID r, tradeRow.CounterAmount r).

(** The same exchange seen from the other party: the buyer is the seller of
    what was bought. *)
Definition reverse_roles (buyer : xdr.AccountId) (trade : xdr.ClaimOfferAtom)
    : xdr.ClaimOfferAtom :=
  {| xdr.SellerId := buyer; xdr.OfferId := xdr.OfferId trade;
     xdr.AssetSold := xdr.AssetBought trade; xdr.AmountSold := xdr.AmountBought trade;
     xdr.AssetBought := xdr.AssetSold trade; xdr.AmountBought := xdr.AmountSold trade |}.

(** The two parties exchanged, assets and amounts in place. *)
Definition exchange_parties (buyer : xdr.AccountId) (trade : xdr.ClaimOfferAtom)
    : xdr.ClaimOfferAtom :=
  {| xdr.SellerId := buyer; xdr.OfferId := xdr.OfferId trade;
     xdr.AssetSold := xdr.AssetSold trade; xdr.AmountSold := xdr.AmountSold trade;
     xdr.AssetBought := xdr.AssetBought trade; xdr.AmountBought := xdr.AmountBought trade |}.

(** ** Starting and committing *)

(** A connection to a store nothing was ever written to. *)
Definition empty_store : Session :=
  {| calls := []; accounts := []; account_seq := 1; assets := []; asset_seq := 1;
     tables := ∅ |}.

(** The builders [Start] installs. *)
Definition fresh_builders : gmap string InsertBuilder :=
  Eval vm_compute in builders (createInsertBuilders (new_Ingestion empty_store)).1.

Definition fresh_assetStats : InsertBuilder :=
  Eval vm_compute in assetStats (createInsertBuilders (new_Ingestion empty_store)).1.

(** The empty statement of table [t]. *)
Definition fresh_builder (t : TableName) : InsertBuilder :=
  default zero_builder (fresh_builders !! t).

(** The table's statement for the tuples [tuples]. *)
Definition statement (t : TableName) (tuples : list (list Value)) : InsertBuilder :=
  {| into := t; columns := columns (fresh_builder t); values := tuples |}.

(** The state [Start] leaves behind when the store opens a transaction. *)
Definition started (db : Session) : Ingestion :=
  {| DB := log BEGIN db; builders := fresh_builders; rowsToInsert := [];
     assetStats := fresh_assetStats |}.

(** Every table a row can name has a builder. *)
Definition builders_ready (ing : Ingestion) : Prop :=
  ∀ t, t ∈ row_tables → is_Some (builders ing !! t).

(** The error an error wraps. *)
Fixpoint root_cause (e : error) : error :=
  match e with
  | Wrap e _ => root_cause e
  | _ => e
  end.

(** An outcome that is a success or a failure of the store. *)
Definition store_outcome {A} (r : outcome A) : Prop :=
  match r with
  | Ok _ => True
  | Err e => ∃ msg, root_cause e = StoreError msg
  | Panic _ => False
  end.

(** ** Account resolution *)

(** The addresses the rows of a buffer reference, with repetitions. *)
Definition row_addresses (rows : list row) : list string :=
  rows ≫= GetAddresses.

(** The account records of a store are well formed: one record per address,
    identifiers positive and below the next one to hand out. *)
Definition accounts_wf (s : Session) : Prop :=
  NoDup (history.Address <$> accounts s) ∧
  (0 < account_seq s)%Z ∧
  Forall (λ a, (0 < history.ID a < account_seq s)%Z) (accounts s).

(** The address is known to the store. *)
Definition known (s : Session) (address : string) : Prop :=
  address ∈ history.Address <$> accounts s.

#[global] Instance known_dec s address : Decision (known s address).
Proof. unfold known. apply _. Defined.

(** What the collecting loop maintains: the addresses seen, each once, are
    the keys of the map, all mapped to 0. *)
Definition collected (st : gmap string Z * list string) : Prop :=
  NoDup st.2 ∧ ∀ a, st.1 !! a = if decide (a ∈ st.2) then Some 0%Z else None.

(** ** The insert loops *)

(** The rows of a buffer bound for table [t], and their parameter tuples, in
    the order of the buffer. *)
Definition rows_for (t : TableName) (rows : list row) : list row :=
  filter (λ r, GetTableName r = t) rows.

Definition tuples_for (t : TableName) (rows : list row) : list (list Value) :=
  GetParams <$> rows_for t rows.

(** The tuples of the rows of table [t] among [rows], once their account
    identifiers have been resolved by [ids]. *)
Definition resolved_tuples (ids : gmap string Z) (t : TableName) (rows : list row)
    : list (list Value) :=
  GetParams <$> (row_UpdateAccountIDs ids <$> rows_for t rows).

(** The statements executed among some calls, and those into table [t]. *)
Definition statements (cs : list Call) : list InsertBuilder :=
  omap (λ c, match c with INSERT b => Some b | _ => None end) cs.

Definition into_table (t : TableName) (bs : list InsertBuilder) : list InsertBuilder :=
  filter (λ b, into b = t) bs.

Definition statements_for (t : TableName) (cs : list Call) : list InsertBuilder :=
  into_table t (statements cs).

(** What the first loop maintains for table [t], after the rows [seen] and
    the executions [ex]: the statement in progress continues the executed
    ones, together they hold the tuples of [seen], and the running count is
    the number of parameters in progress, at most 65000. *)
Definition table_inv (t : TableName) (seen : list row) (ex : list InsertBuilder)
    (ing : Ingestion) (pc : gmap string Z) : Prop :=
  ∃ b, builders ing !! t = Some b ∧ into b = t ∧
    columns b = columns (fresh_builder t) ∧
    count pc t = bound_params b ∧ (count pc t ≤ 65000)%Z ∧
    concat (values <$> into_table t ex) ++ values b = tuples_for t seen.

(** A statement the first loop executes. *)
Definition full_statement (b : InsertBuilder) : Prop :=
  into b ∈ row_tables ∧ (65000 < bound_params b ≤ 65535)%Z.

Definition flush_inv (seen : list row) (ex : list InsertBuilder)
    (ing : Ingestion) (pc : gmap string Z) : Prop :=
  (∀ t, t ∈ row_tables → table_inv t seen ex ing pc) ∧
  (∀ t, is_Some (pc !! t) → t ∈ row_tables) ∧
  Forall full_statement ex.

(** The statements still in progress when the second loop starts: one per
    entry of the running counts with a positive count, in the order the
    counts are ranged over. *)
Definition pending (es : list (TableName * Z)) (ing : Ingestion) : list InsertBuilder :=
  (λ e, builder e.1 ing) <$> filter (λ e, (0 < e.2)%Z) es.

Section Vocabulary.

Context (fault : list Call → Call → option string).
Context {Details : Type} (json_Marshal : Details → error + list Byte.byte).

(** [Clear] as a loop over its targets. *)
Fixpoint clear_each (start end_ : Z) (targets : list (string * string)) : M unit :=
  match targets with
  | [] => ret tt
  | tc :: rest =>
      db (db_DeleteRange fault start end_ tc.1 tc.2) ;;;
      clear_each start end_ rest
  end.

(** The calls a client makes between [Start] and [Flush]. *)
Inductive emitter : M unit → Prop :=
| emit_Effect address opid order typ details :
    emitter (Effect json_Marshal address opid order typ details)
| emit_Operation id txid order source typ details :
    emitter (Operation json_Marshal id txid order source typ details)
| emit_OperationParticipants op aids :
    emitter (OperationParticipants op aids)
| emit_Ledger id header txs ops now1 now2 :
    emitter (Ledger id header txs ops now1 now2)
| emit_Trade opid order buyer trade ledgerClosedAt :
    emitter (Trade fault opid order buyer trade ledgerClosedAt)
| emit_Transaction id tx fee now1 now2 :
    emitter (Transaction id tx fee now1 now2)
| emit_TransactionParticipants tx aids :
    emitter (TransactionParticipants tx aids).

(** The states of a writer that was started and has since only buffered. *)
Inductive buffering : Ingestion → Prop :=
| buffering_Start ing ing' :
    Start fault ing = (ing', Ok tt) → buffering ing'
| buffering_emit ing m :
    buffering ing → emitter m → buffering (m ing).1.

End Vocabulary.

(** ** Sample data *)

(** A store that never fails. *)
Definition no_fault : list Call → Call → option string := λ _ _, None.

(** A store that refuses to delete from [history_operations]. *)
Definition operations_locked : list Call → Call → option string := λ _ c,
  match c with
  | DELETE_RANGE _ _ table _ =>
      if decide (table = "history_operations") then Some "lock timeout" else None
  | _ => None
  end.

(** An encoder for payloads that are either already encoded or cannot be. *)
Definition sample_Marshal (details : option (list Byte.byte))
    : error + list Byte.byte :=
  match details with
  | Some djson => inr djson
  | None => inl (EncodingError "json: unsupported value")
  end.

Definition usd : Asset := AssetCreditAlphanum4 "USD" "GISSUER".

(** A store that knows account GA and two assets, numbered 3 and 5. *)
Definition sample_store : Session :=
  {| calls := [];
     accounts := [ {| history.ID := 1; history.Address := "GA" |} ];
     account_seq := 2;
     assets := [ (AssetNative, 3%Z); (usd, 5%Z) ];
     asset_seq := 6;
     tables := ∅ |}.

(** GS sells 10 of the asset numbered 5 for 20 of the asset numbered 3. *)
Definition sample_trade : xdr.ClaimOfferAtom :=
  {| xdr.SellerId := {| xdr.Address := "GS" |}; xdr.OfferId := 7;
     xdr.AssetSold := usd; xdr.AmountSold := 10;
     xdr.AssetBought := AssetNative; xdr.AmountBought := 20 |}.

Definition sample_buyer : xdr.AccountId := {| xdr.Address := "GB" |}.

(** An exchange of an asset against itself. *)
Definition self_trade : xdr.ClaimOfferAtom :=
  {| xdr.SellerId := {| xdr.Address := "GS" |}; xdr.OfferId := 8;
     xdr.AssetSold := usd; xdr.AmountSold := 10;
     xdr.AssetBought := usd; xdr.AmountBought := 20 |}.

(** A started writer with two effects of GA, one of GB and a trade. *)
Definition sample_buffer : Ingestion :=
  ((Effect sample_Marshal "GA" 1 1 0 (Some []) ;;;
    Effect sample_Marshal "GB" 1 2 0 (Some []) ;;;
    Effect sample_Marshal "GA" 2 1 3 (Some []) ;;;
    Trade no_fault 2 1 sample_buyer sample_trade 100) (started sample_store)).1.

(** An operation row: six parameters. *)
Definition operation_row (id : Z) : row :=
  Operation_
    {| operationRow.ID := id; operationRow.TxID := 1; operationRow.Order := 1;
       operationRow.Source := "GA"; operationRow.Type_ := 0;
       operationRow.Details := [] |}.

(** The first loop about to process a row, its table's count at [c]. *)
Definition step_at (c : Z) : Ingestion * outcome (gmap string Z) :=
  flush_row no_fault (operation_row 1) {[ OperationsTableName := c ]}
    (started empty_store).

(** A started writer with [n] operation rows buffered. *)
Definition operations_buffer (n : Z) : Ingestion :=
  set_rowsToInsert (replicate (Z.to_nat n) (operation_row 1)) (started empty_store).

(** A record of table [history_effects] owned by operation [k]. *)
Definition stored_effect (k : Z) : StoredRow :=
  [ ("history_account_id", VInt 1); ("history_operation_id", VInt k) ].

(** A writer on a store with effects of operations 10 to 20. *)
Definition effects_10_20 : Ingestion :=
  new_Ingestion
    {| calls := []; accounts := []; account_seq := 1; assets := []; asset_seq := 1;
       tables := {[ "history_effects" := stored_effect <$> seqZ 10 11 ]} |}.

(** ** Further vocabulary *)

(** The row an account takes in [OperationParticipants]. *)
Definition operation_participant (op : Z) (aid : xdr.AccountId) : row :=
  OperationParticipant_
    {| operationParticipantRow.OperationID := op;
       operationParticipantRow.AccountID := 0;
       operationParticipantRow.Address := xdr.Address aid |}.

(** The row an account takes in [TransactionParticipants]. *)
Definition transaction_participant (tx : Z) (aid : xdr.AccountId) : row :=
  TransactionParticipant_
    {| transactionParticipantRow.TransactionID := tx;
       transactionParticipantRow.AccountID := 0;
       transactionParticipantRow.Address := xdr.Address aid |}.

(** Reading an unsigned 32-bit value as [int32]. *)
Definition as_int32 (z : Z) : Z :=
  if bool_decide (z < 2 ^ 31)%Z then z else (z - 2 ^ 32)%Z.

(** Neither a commit nor the opening of a transaction is among the calls. *)
Definition uncommitted (cs : list Call) : Prop := (COMMIT ∉ cs) ∧ (BEGIN ∉ cs).

(** The calls of an account resolution over the distinct addresses [l]:
    none without addresses, else the lookup and at most one creation. *)
Definition resolution_calls (l : list string) (cs : list Call) : Prop :=
  match l with
  | [] => cs = []
  | _ =>
      cs = [SELECT_ACCOUNTS l] ∨
      ∃ u, cs = [SELECT_ACCOUNTS l; INSERT_ACCOUNTS u] ∧
           u ≠ [] ∧ NoDup u ∧ ∀ a, a ∈ u → a ∈ l
  end.

(** The errors of the insert loops of [Flush]. *)
Inductive insert_error : error → Prop :=
| missing_builder t :
    t ∈ row_tables →
    insert_error (Errorf (t +:+ " insert builder does not exist"))
| failed_statement msg t :
    t ∈ row_tables →
    insert_error (Wrap (StoreError msg) (exec_error t)).

(** ** Time bounds *)

(** The character [c] does not occur in [s]. *)
Fixpoint avoids (c : Ascii.ascii) (s : string) : Prop :=
  match s with
  | EmptyString => True
  | String c' s' => c' ≠ c ∧ avoids c s'
  end.

(** ** The store after a flush *)

(** What executing the statement [b] does to the tables: one record per
    value tuple, appended to the statement's table. *)
Definition exec_insert (tables : gmap string (list StoredRow)) (b : InsertBuilder)
    : gmap string (list StoredRow) :=
  <[into b := default [] (tables !! into b) ++ map (zip (columns b)) (values b)]> tables.



(** ** Further sample data *)

(** A store whose account lookup is down. *)
Definition accounts_down : list Call → Call → option string := λ _ c,
  match c with
  | SELECT_ACCOUNTS _ => Some "connection refused"
  | _ => None
  end.

(** An effect of GA. *)
Definition ga_effect : row :=
  Effect_
    {| effectRow.AccountID := 0; effectRow.OperationID := 1; effectRow.Order := 1;
       effectRow.Type_ := 0; effectRow.Details := []; effectRow.Address := "GA" |}.

(** A writer that was never started, with that effect buffered. *)
Definition unstarted : Ingestion :=
  (Effect sample_Marshal "GA" 1 1 0 (Some []) (new_Ingestion sample_store)).1.

(** A writer on a store with effects keyed below, inside and at the upper
    end of the range [ClearAll] deletes. *)
Definition effects_at_the_ends : Ingestion :=
  new_Ingestion
    {| calls := []; accounts := []; account_seq := 1; assets := []; asset_seq := 1;
       tables := {[ "history_effects" := stored_effect <$> [(-1)%Z; 5%Z; MaxInt64] ]} |}.

(** * Properties *)

(** ** Reasoning about methods *)

Lemma bind_inv {A B} (m : M A) (k : A → M B) ing ing' r :
  bind m k ing = (ing', r) →
  (∃ a mid, m ing = (mid, Ok a) ∧ k a mid = (ing', r)) ∨
  (∃ e, m ing = (ing', Err e) ∧ r = Err e) ∨
  (∃ msg, m ing = (ing', Panic msg) ∧ r = Panic msg).
Proof.
  unfold bind. destruct (m ing) as [mid [a|e|msg]]; intros H.
  - left. eauto.
  - right. left. inversion H. eauto.
  - right. right. inversion H. eauto.
Qed.

Lemma bind_Ok_inv {A B} (m : M A) (k : A → M B) ing ing' b :
  bind m k ing = (ing', Ok b) →
  ∃ a mid, m ing = (mid, Ok a) ∧ k a mid = (ing', Ok b).
Proof.
  intros H. apply bind_inv in H as [H|[(e & _ & ?)|(msg & _ & ?)]]; done.
Qed.

Lemma bind_Ok {A B} (m : M A) (k : A → M B) ing mid a :
  m ing = (mid, Ok a) → bind m k ing = k a mid.
Proof. unfold bind. by intros ->. Qed.

Lemma wrap_Ok_inv {A} msg (m : M A) ing ing' a :
  wrap msg m ing = (ing', Ok a) → m ing = (ing', Ok a).
Proof. unfold wrap. destruct (m ing) as [? [?|?|?]]; congruence. Qed.

Lemma for_range_cons {A S} (x : A) l (body : A → S → M S) st ing :
  for_range (x :: l) body st ing =
  match body x st ing with
  | (ing', Ok st') => for_range l body st' ing'
  | (ing', Err e) => (ing', Err e)
  | (ing', Panic msg) => (ing', Panic msg)
  end.
Proof. reflexivity. Qed.

Lemma for_range_append {A} (mk : A → row) (l : list A) ing :
  for_range l (λ a _, append_row (mk a)) tt ing =
  (set_rowsToInsert (rowsToInsert ing ++ map mk l) ing, Ok tt).
Proof.
  revert ing. induction l as [|a l IH]; intros ing; simpl.
  - destruct ing. unfold ret, set_rowsToInsert. simpl. by rewrite app_nil_r.
  - unfold bind at 1. unfold append_row at 1, modify. rewrite IH.
    destruct ing. unfold set_rowsToInsert. simpl. by rewrite <- app_assoc.
Qed.

Section Emitters.

Context (fault : list Call → Call → option string).
Context {Details : Type} (json_Marshal : Details → error + list Byte.byte).

Lemma append_row_appends r ing : appends (append_row r) ing [r].
Proof. done. Qed.

Lemma Effect_failure address opid order typ details ing err :
  json_Marshal details = inl err →
  Effect json_Marshal address opid order typ details ing = (ing, Err err).
Proof. intros H. unfold Effect, bind, marshal. by rewrite H. Qed.

Lemma Operation_failure id txid order source typ details ing err :
  json_Marshal details = inl err →
  Operation json_Marshal id txid order source typ details ing = (ing, Err err).
Proof. intros H. unfold Operation, bind, marshal. by rewrite H. Qed.

Lemma Effect_success address opid order typ details ing djson :
  json_Marshal details = inr djson →
  ∃ r, effectRow.Details r = djson ∧ effectRow.Address r = address ∧
    Effect json_Marshal address opid order typ details ing =
    (set_rowsToInsert (rowsToInsert ing ++ [Effect_ r]) ing, Ok tt).
Proof.
  intros H. unfold Effect, bind, marshal. rewrite H. simpl.
  eexists. split; [|split]; [| |reflexivity]; done.
Qed.

Lemma Operation_success id txid order source typ details ing djson :
  json_Marshal details = inr djson →
  ∃ r, operationRow.Details r = djson ∧
    Operation json_Marshal id txid order source typ details ing =
    (set_rowsToInsert (rowsToInsert ing ++ [Operation_ r]) ing, Ok tt).
Proof.
  intros H. unfold Operation, bind, marshal. rewrite H. simpl.
  eexists. split; [|reflexivity]; done.
Qed.

(** C5. When [json.Marshal] rejects the details payload, [Effect] and
    [Operation] return its error as it is and leave the writer, row buffer
    included, as it was; when it accepts the payload, they succeed and the
    buffer is the old one followed by exactly one row, which carries the
    encoded payload. *)
Theorem encoding_failure_buffers_nothing
    address opid order typ id txid order' source typ' details ing :
  (∀ err, json_Marshal details = inl err →
     Effect json_Marshal address opid order typ details ing = (ing, Err err) ∧
     Operation json_Marshal id txid order' source typ' details ing = (ing, Err err)) ∧
  (∀ djson, json_Marshal details = inr djson →
     ∃ e o,
       Effect json_Marshal address opid order typ details ing =
         (set_rowsToInsert (rowsToInsert ing ++ [Effect_ e]) ing, Ok tt) ∧
       effectRow.Details e = djson ∧
       Operation json_Marshal id txid order' source typ' details ing =
         (set_rowsToInsert (rowsToInsert ing ++ [Operation_ o]) ing, Ok tt) ∧
       operationRow.Details o = djson).
Proof.
  split.
  - intros err H. split; [by apply Effect_failure | by apply Operation_failure].
  - intros djson H.
    destruct (Effect_success address opid order typ details ing djson H)
      as (e & He & _ & HE).
    destruct (Operation_success id txid order' source typ' details ing djson H)
      as (o & Ho & HO).
    exists e, o. done.
Qed.

(** *** What an emitter leaves alone *)

Lemma Effect_appends address opid order typ details ing :
  ∃ rows, appends (Effect json_Marshal address opid order typ details) ing rows.
Proof.
  destruct (json_Marshal details) as [err|djson] eqn:H.
  - exists []. unfold appends. rewrite (Effect_failure _ _ _ _ _ _ err H).
    destruct ing. unfold set_rowsToInsert. simpl. by rewrite app_nil_r.
  - destruct (Effect_success address opid order typ details ing djson H)
      as (r & _ & _ & Hr).
    exists [Effect_ r]. unfold appends. by rewrite Hr.
Qed.

Lemma Operation_appends id txid order source typ details ing :
  ∃ rows, appends (Operation json_Marshal id txid order source typ details) ing rows.
Proof.
  destruct (json_Marshal details) as [err|djson] eqn:H.
  - exists []. unfold appends. rewrite (Operation_failure _ _ _ _ _ _ _ err H).
    destruct ing. unfold set_rowsToInsert. simpl. by rewrite app_nil_r.
  - destruct (Operation_success id txid order source typ details ing djson H)
      as (r & _ & Hr).
    exists [Operation_ r]. unfold appends. by rewrite Hr.
Qed.

Lemma call_calls {A} c (run : Session → Session * A) s :
  (∀ s0, calls (run s0).1 = calls s0) →
  calls (call fault c run s).1 = calls s ++ [c].
Proof.
  intros Hrun. unfold call. destruct (fault (calls s) c); [done|].
  specialize (Hrun (log c s)). destruct (run (log c s)). done.
Qed.

(** The one call [GetCreateAssetID] makes, and what it may change. *)
Lemma GetCreateAssetID_frame a s :
  let s' := (q_GetCreateAssetID fault a s).1 in
  calls s' = calls s ++ [GET_CREATE_ASSET a] ∧
  accounts s' = accounts s ∧ account_seq s' = account_seq s ∧
  tables s' = tables s.
Proof.
  unfold q_GetCreateAssetID, call.
  destruct (fault (calls s) (GET_CREATE_ASSET a)); [done|].
  simpl. by destruct (asset_lookup a (log (GET_CREATE_ASSET a) s)).
Qed.

Lemma Trade_frame opid order buyer trade ledgerClosedAt ing :
  let ing' := (Trade fault opid order buyer trade ledgerClosedAt ing).1 in
  builders ing' = builders ing ∧ assetStats ing' = assetStats ing ∧
  (∃ rows, rowsToInsert ing' = rowsToInsert ing ++ rows ∧ length rows ≤ 1) ∧
  (∃ new, calls (DB ing') = calls (DB ing) ++ new ∧
     (new = [GET_CREATE_ASSET (xdr.AssetSold trade)] ∨
      new = [GET_CREATE_ASSET (xdr.AssetSold trade);
             GET_CREATE_ASSET (xdr.AssetBought trade)])) ∧
  accounts (DB ing') = accounts (DB ing) ∧ tables (DB ing') = tables (DB ing).
Proof.
  unfold Trade, bind, wrap, db.
  pose proof (GetCreateAssetID_frame (xdr.AssetSold trade) (DB ing)) as H1.
  destruct (q_GetCreateAssetID fault (xdr.AssetSold trade) (DB ing))
    as [s1 [sold|e|msg]] eqn:E1; simpl in H1; destruct H1 as (Hc1 & Ha1 & _ & Ht1);
    simpl.
  2,3: (repeat split; try done; [exists []; rewrite app_nil_r; split; [done|simpl; lia]
                               | eexists; split; [exact Hc1 | by left]]).
  pose proof (GetCreateAssetID_frame (xdr.AssetBought trade) s1) as H2.
  destruct (q_GetCreateAssetID fault (xdr.AssetBought trade) s1)
    as [s2 [bought|e|msg]] eqn:E2; simpl in H2; destruct H2 as (Hc2 & Ha2 & _ & Ht2);
    simpl.
  2,3: (repeat split; try congruence;
        [exists []; rewrite app_nil_r; split; [done|simpl; lia]
        | eexists; split; [rewrite Hc2, Hc1, <- app_assoc; reflexivity | by right]]).
  destruct (bool_decide (sold < bought)%Z); simpl;
    (repeat split; try congruence;
     [eexists; split; [reflexivity | simpl; lia]
     | eexists; split; [rewrite Hc2, Hc1, <- app_assoc; reflexivity | by right]]).
Qed.

Lemma GetCreateAssetID_outcome a s :
  match fault (calls s) (GET_CREATE_ASSET a) with
  | Some msg =>
      q_GetCreateAssetID fault a s = (log (GET_CREATE_ASSET a) s, Err (StoreError msg))
  | None =>
      ∃ s' id, q_GetCreateAssetID fault a s = (s', Ok id) ∧
        calls s' = calls s ++ [GET_CREATE_ASSET a]
  end.
Proof.
  unfold q_GetCreateAssetID, call.
  destruct (fault (calls s) (GET_CREATE_ASSET a)); [done|].
  destruct (asset_lookup a (log (GET_CREATE_ASSET a) s)); by do 2 eexists.
Qed.

Lemma Trade_rows opid order buyer trade ledgerClosedAt ing :
  let res := Trade fault opid order buyer trade ledgerClosedAt ing in
  let sold := GET_CREATE_ASSET (xdr.AssetSold trade) in
  let bought := GET_CREATE_ASSET (xdr.AssetBought trade) in
  (res.2 = Ok tt ↔
     fault (calls (DB ing)) sold = None ∧
     fault (calls (DB ing) ++ [sold]) bought = None) ∧
  (res.2 = Ok tt →
     (∃ r, rowsToInsert res.1 = rowsToInsert ing ++ [Trade_ r]) ∧
     calls (DB res.1) = calls (DB ing) ++ [sold; bought]) ∧
  (res.2 ≠ Ok tt → rowsToInsert res.1 = rowsToInsert ing).
Proof.
  cbv zeta. unfold Trade, bind, wrap, db.
  pose proof (GetCreateAssetID_outcome (xdr.AssetSold trade) (DB ing)) as H1.
  destruct (fault (calls (DB ing)) (GET_CREATE_ASSET (xdr.AssetSold trade)))
    as [msg|].
  { rewrite H1. cbn [fst snd]. split; [split; [done|by intros [? _]]|]. done. }
  destruct H1 as (s1 & sold & -> & Hc1). cbn [fst snd DB set_DB].
  pose proof (GetCreateAssetID_outcome (xdr.AssetBought trade) s1) as H2.
  rewrite Hc1 in H2.
  destruct (fault (calls (DB ing) ++ [GET_CREATE_ASSET (xdr.AssetSold trade)])
              (GET_CREATE_ASSET (xdr.AssetBought trade))) as [msg|].
  { rewrite H2. cbn [fst snd]. split; [split; [done|by intros [_ ?]]|]. done. }
  destruct H2 as (s2 & bought & -> & Hc2).
  destruct (bool_decide (sold < bought)%Z); cbn;
    (split; [done|]); (split; [|done]); intros _;
    (split; [eauto|]); by rewrite Hc2, <- app_assoc.
Qed.

(** C4 (amended). [Effect], [Operation], [OperationParticipants], [Ledger],
    [Transaction] and [TransactionParticipants] do nothing but append rows
    to the buffer: connection, store and builders are as before.  [Trade]
    leaves the builders alone, but it does call the store: a get-or-create
    of the sold asset's identifier and, if that succeeded, of the bought
    asset's.  It succeeds exactly when both calls do; it then appends one
    trade row, and otherwise none.  Accounts and row tables are not touched
    by it. *)
Theorem emitters_only_buffer
    address opid order typ details id txid order' source typ' details'
    op aids lid header txs ops now1 now2 tid tx fee now3 now4 txid' aids'
    topid torder buyer trade ledgerClosedAt ing :
  (∃ rows, appends (Effect json_Marshal address opid order typ details) ing rows) ∧
  (∃ rows, appends (Operation json_Marshal id txid order' source typ' details') ing rows) ∧
  (∃ rows, appends (OperationParticipants op aids) ing rows) ∧
  (∃ rows, appends (Ledger lid header txs ops now1 now2) ing rows) ∧
  (∃ rows, appends (Transaction tid tx fee now3 now4) ing rows) ∧
  (∃ rows, appends (TransactionParticipants txid' aids') ing rows) ∧
  (let res := Trade fault topid torder buyer trade ledgerClosedAt ing in
   let sold := GET_CREATE_ASSET (xdr.AssetSold trade) in
   let bought := GET_CREATE_ASSET (xdr.AssetBought trade) in
   builders res.1 = builders ing ∧ assetStats res.1 = assetStats ing ∧
   (res.2 = Ok tt ↔
      fault (calls (DB ing)) sold = None ∧
      fault (calls (DB ing) ++ [sold]) bought = None) ∧
   (res.2 = Ok tt →
      (∃ r, rowsToInsert res.1 = rowsToInsert ing ++ [Trade_ r]) ∧
      calls (DB res.1) = calls (DB ing) ++ [sold; bought]) ∧
   (res.2 ≠ Ok tt → rowsToInsert res.1 = rowsToInsert ing) ∧
   (∃ new, calls (DB res.1) = calls (DB ing) ++ new ∧
      (new = [sold] ∨ new = [sold; bought])) ∧
   accounts (DB res.1) = accounts (DB ing) ∧ tables (DB res.1) = tables (DB ing)).
Proof.
  split; [apply Effect_appends|].
  split; [apply Operation_appends|].
  split; [eexists; unfold appends, OperationParticipants;
          by rewrite for_range_append|].
  split; [eexists; apply append_row_appends|].
  split; [eexists; apply append_row_appends|].
  split; [eexists; unfold appends, TransactionParticipants;
          by rewrite for_range_append|].
  cbv zeta.
  destruct (Trade_frame topid torder buyer trade ledgerClosedAt ing)
    as (Hb & Ha & _ & Hc & Hacc & Ht).
  destruct (Trade_rows topid torder buyer trade ledgerClosedAt ing)
    as (Hok & Hrow & Hnone).
  done.
Qed.

End Emitters.

Section Clearing.

Context (fault : list Call → Call → option string).

Lemma Clear_clear_each start end_ :
  Clear fault start end_ = clear_each fault start end_ clear_targets.
Proof. reflexivity. Qed.

Lemma DeleteRange_ok start end_ tc s :
  fault (calls s) (DELETE_RANGE start end_ tc.1 tc.2) = None →
  ∃ s', db_DeleteRange fault start end_ tc.1 tc.2 s = (s', Ok tt) ∧
    calls s' = calls s ++ [DELETE_RANGE start end_ tc.1 tc.2] ∧
    tables s' = delete_range start end_ (tables s) tc.
Proof.
  intros H. unfold db_DeleteRange, call. rewrite H. simpl. eauto.
Qed.

Lemma DeleteRange_fails start end_ tc s msg :
  fault (calls s) (DELETE_RANGE start end_ tc.1 tc.2) = Some msg →
  db_DeleteRange fault start end_ tc.1 tc.2 s =
    (log (DELETE_RANGE start end_ tc.1 tc.2) s, Err (StoreError msg)).
Proof. intros H. unfold db_DeleteRange, call. by rewrite H. Qed.

(** The outcome of clearing [targets]: [k] deletes succeed, in order; either
    that is all of them, or the next one is the one that failed, and its
    error is the result. *)
Lemma clear_each_spec start end_ targets ing :
  ∃ k,
    let ing' := (clear_each fault start end_ targets ing).1 in
    k ≤ length targets ∧
    tables (DB ing') = foldl (delete_range start end_) (tables (DB ing)) (take k targets) ∧
    (∀ j tc, j < k → targets !! j = Some tc →
       fault (calls (DB ing) ++ delete_calls start end_ (take j targets))
             (DELETE_RANGE start end_ tc.1 tc.2) = None) ∧
    match (clear_each fault start end_ targets ing).2 with
    | Ok _ =>
        k = length targets ∧
        calls (DB ing') = calls (DB ing) ++ delete_calls start end_ targets
    | Err e =>
        ∃ tc msg, targets !! k = Some tc ∧
          fault (calls (DB ing) ++ delete_calls start end_ (take k targets))
                (DELETE_RANGE start end_ tc.1 tc.2) = Some msg ∧
          e = StoreError msg ∧
          calls (DB ing') =
            calls (DB ing) ++ delete_calls start end_ (take (S k) targets)
    | Panic _ => False
    end.
Proof.
  revert ing. induction targets as [|tc rest IH]; intros ing.
  - exists 0. simpl. rewrite app_nil_r. repeat split; try done; intros; lia.
  - assert (clear_each fault start end_ (tc :: rest) ing =
            match db_DeleteRange fault start end_ tc.1 tc.2 (DB ing) with
            | (s', Ok _) => clear_each fault start end_ rest (set_DB s' ing)
            | (s', Err e) => (set_DB s' ing, Err e)
            | (s', Panic msg) => (set_DB s' ing, Panic msg)
            end) as ->.
    { simpl. unfold bind, db.
      by destruct (db_DeleteRange fault start end_ tc.1 tc.2 (DB ing)) as [s' [[]|?|?]]. }
    destruct (fault (calls (DB ing)) (DELETE_RANGE start end_ tc.1 tc.2))
      as [msg|] eqn:Hf.
    + rewrite (DeleteRange_fails _ _ _ _ _ Hf). exists 0. simpl.
      split; [lia|]. split; [done|]. split; [intros; lia|].
      exists tc, msg. rewrite app_nil_r. done.
    + destruct (DeleteRange_ok start end_ tc (DB ing) Hf) as (s' & -> & Hc & Ht).
      destruct (IH (set_DB s' ing)) as (k & Hk & Htab & Hok & Hres).
      exists (S k). simpl in *.
      split; [lia|]. split; [by rewrite Htab, Ht|].
      split.
      * intros [|j] tc' Hj Hl; simpl in *.
        -- rewrite app_nil_r. congruence.
        -- specialize (Hok j tc' ltac:(lia) Hl).
           by rewrite Hc, <- app_assoc in Hok.
      * destruct (clear_each fault start end_ rest (set_DB s' ing)).2 as [[]|e|?];
          [|destruct Hres as (tc' & msg & Hl & Hfl & -> & Hcalls)|done].
        -- destruct Hres as [-> Hcalls]. split; [done|].
           by rewrite Hcalls, Hc, <- app_assoc.
        -- exists tc', msg. repeat split; try done.
           ++ by rewrite Hc, <- app_assoc in Hfl.
           ++ by rewrite Hcalls, Hc, <- app_assoc.
Qed.

(** A range delete removes from its table the records whose key lies in
    [[start, end_)] and no other. *)
Lemma delete_range_half_open start end_ tables tc r :
  r ∈ default [] (delete_range start end_ tables tc !! tc.1) ↔
  r ∈ default [] (tables !! tc.1) ∧
  ¬ ∃ k, key_of tc.2 r = Some k ∧ (start ≤ k < end_)%Z.
Proof.
  unfold delete_range. rewrite lookup_alter_eq.
  destruct (tables !! tc.1) as [rows|]; simpl.
  - rewrite list_elem_of_filter. unfold in_range.
    split; intros [H1 H2]; split; try done.
    + intros (k & Hk & Hr). rewrite Hk in H1.
      rewrite !bool_decide_eq_true_2 in H1 by lia. done.
    + destruct (key_of tc.2 r) as [k|]; [|done].
      apply andb_false_iff.
      destruct (decide (start ≤ k)%Z); [|left; by apply bool_decide_eq_false_2].
      right. apply bool_decide_eq_false_2. intros ?. apply H2. exists k. split; [done|lia].
  - split; [intros H; inversion H | intros [H _]; inversion H].
Qed.

(** C8. [Clear(start, end)] issues its range deletes one after the other in
    the fixed order of [clear_targets], one per table and each on that
    table's own key column with the bounds it was given; a delete removes
    exactly the keys of [[start, end)].  The first delete that fails ends
    the call with that delete's error: the deletes before it have been
    applied, and no delete is issued for a later table. *)
Theorem Clear_stops_at_first_failure start end_ ing :
  NoDup clear_targets.*1 ∧
  (∀ tables tc r,
     r ∈ default [] (delete_range start end_ tables tc !! tc.1) ↔
     r ∈ default [] (tables !! tc.1) ∧
     ¬ ∃ k, key_of tc.2 r = Some k ∧ (start ≤ k < end_)%Z) ∧
  ∃ k,
    let ing' := (Clear fault start end_ ing).1 in
    k ≤ length clear_targets ∧
    tables (DB ing') =
      foldl (delete_range start end_) (tables (DB ing)) (take k clear_targets) ∧
    (∀ j tc, j < k → clear_targets !! j = Some tc →
       fault (calls (DB ing) ++ delete_calls start end_ (take j clear_targets))
             (DELETE_RANGE start end_ tc.1 tc.2) = None) ∧
    match (Clear fault start end_ ing).2 with
    | Ok _ =>
        k = length clear_targets ∧
        calls (DB ing') = calls (DB ing) ++ delete_calls start end_ clear_targets
    | Err e =>
        ∃ tc msg, clear_targets !! k = Some tc ∧
          fault (calls (DB ing) ++ delete_calls start end_ (take k clear_targets))
                (DELETE_RANGE start end_ tc.1 tc.2) = Some msg ∧
          e = StoreError msg ∧
          calls (DB ing') =
            calls (DB ing) ++ delete_calls start end_ (take (S k) clear_targets)
    | Panic _ => False
    end.
Proof.
  split; [|split].
  - compute_done.
  - intros. apply delete_range_half_open.
  - rewrite Clear_clear_each. apply clear_each_spec.
Qed.

End Clearing.

Section Trades.

Context (fault : list Call → Call → option string).

(** Once both assets are resolved, [Trade] appends one row, built from the
    two identifiers by the comparison [soldAssetId < boughtAssetId]. *)
Lemma Trade_resolved opid order buyer trade ledgerClosedAt ing s1 s2 sold bought :
  q_GetCreateAssetID fault (xdr.AssetSold trade) (DB ing) = (s1, Ok sold) →
  q_GetCreateAssetID fault (xdr.AssetBought trade) s1 = (s2, Ok bought) →
  ∃ r,
    Trade fault opid order buyer trade ledgerClosedAt ing =
      (set_rowsToInsert (rowsToInsert ing ++ [Trade_ r]) (set_DB s2 ing), Ok tt) ∧
    tradeRow.OperationID r = opid ∧ tradeRow.Order r = order ∧
    tradeRow.LedgerCloseAt r = ledgerClosedAt ∧
    tradeRow.OfferID r = xdr.OfferId trade ∧
    tradeRow.BaseAccountID r = 0%Z ∧ tradeRow.CounterAccountID r = 0%Z ∧
    tradeRow.BaseIsSeller r = bool_decide (sold < bought)%Z ∧
    (if tradeRow.BaseIsSeller r then
       base_side r = (xdr.Address (xdr.SellerId trade), sold, xdr.AmountSold trade) ∧
       counter_side r = (xdr.Address buyer, bought, xdr.AmountBought trade)
     else
       base_side r = (xdr.Address buyer, bought, xdr.AmountBought trade) ∧
       counter_side r = (xdr.Address (xdr.SellerId trade), sold, xdr.AmountSold trade)).
Proof.
  intros H1 H2. unfold Trade, bind, wrap, db. rewrite H1. simpl. rewrite H2. simpl.
  destruct (bool_decide (sold < bought)%Z) eqn:E; simpl;
    eexists; (split; [reflexivity|]); simpl; rewrite ?E; done.
Qed.

(** C3. A trade whose two assets resolve to distinct identifiers is
    recorded with the lower identifier as base and the other as counter;
    seller and buyer, each with the amount of its asset, stand on the side
    of their asset, and [BaseIsSeller] tells whether the asset sold is the
    base.  The same exchange recorded with the roles of seller and buyer
    reversed has the same base and counter identifiers and amounts (each
    address staying with its asset) and the opposite flag; recorded with
    the two parties exchanged it has the same identifiers, amounts and flag,
    and the two addresses on opposite sides. *)
Theorem Trade_is_canonical
    opid order buyer trade ledgerClosedAt ing s1 s2 sold bought :
  q_GetCreateAssetID fault (xdr.AssetSold trade) (DB ing) = (s1, Ok sold) →
  q_GetCreateAssetID fault (xdr.AssetBought trade) s1 = (s2, Ok bought) →
  sold ≠ bought →
  ∃ r,
    Trade fault opid order buyer trade ledgerClosedAt ing =
      (set_rowsToInsert (rowsToInsert ing ++ [Trade_ r]) (set_DB s2 ing), Ok tt) ∧
    tradeRow.BaseAssetID r = Z.min sold bought ∧
    tradeRow.CounterAssetID r = Z.max sold bought ∧
    tradeRow.BaseIsSeller r = bool_decide (sold = tradeRow.BaseAssetID r) ∧
    (if tradeRow.BaseIsSeller r then
       base_side r = (xdr.Address (xdr.SellerId trade), sold, xdr.AmountSold trade) ∧
       counter_side r = (xdr.Address buyer, bought, xdr.AmountBought trade)
     else
       base_side r = (xdr.Address buyer, bought, xdr.AmountBought trade) ∧
       counter_side r = (xdr.Address (xdr.SellerId trade), sold, xdr.AmountSold trade)) ∧
    (∀ ing2 t1 t2,
       q_GetCreateAssetID fault (xdr.AssetBought trade) (DB ing2) = (t1, Ok bought) →
       q_GetCreateAssetID fault (xdr.AssetSold trade) t1 = (t2, Ok sold) →
       ∃ r',
         Trade fault opid order (xdr.SellerId trade) (reverse_roles buyer trade)
           ledgerClosedAt ing2 =
           (set_rowsToInsert (rowsToInsert ing2 ++ [Trade_ r']) (set_DB t2 ing2), Ok tt) ∧
         base_side r' = base_side r ∧ counter_side r' = counter_side r ∧
         tradeRow.BaseIsSeller r' = negb (tradeRow.BaseIsSeller r)) ∧
    (∀ ing2 t1 t2,
       q_GetCreateAssetID fault (xdr.AssetSold trade) (DB ing2) = (t1, Ok sold) →
       q_GetCreateAssetID fault (xdr.AssetBought trade) t1 = (t2, Ok bought) →
       ∃ r',
         Trade fault opid order (xdr.SellerId trade) (exchange_parties buyer trade)
           ledgerClosedAt ing2 =
           (set_rowsToInsert (rowsToInsert ing2 ++ [Trade_ r']) (set_DB t2 ing2), Ok tt) ∧
         tradeRow.BaseAssetID r' = tradeRow.BaseAssetID r ∧
         tradeRow.BaseAmount r' = tradeRow.BaseAmount r ∧
         tradeRow.CounterAssetID r' = tradeRow.CounterAssetID r ∧
         tradeRow.CounterAmount r' = tradeRow.CounterAmount r ∧
         tradeRow.BaseIsSeller r' = tradeRow.BaseIsSeller r ∧
         tradeRow.BaseAddress r' = tradeRow.CounterAddress r ∧
         tradeRow.CounterAddress r' = tradeRow.BaseAddress r).
Proof.
  intros H1 H2 Hne.
  destruct (Trade_resolved opid order buyer trade ledgerClosedAt ing s1 s2 sold bought
              H1 H2) as (r & Hr & _ & _ & _ & _ & _ & _ & Hflag & Hsides).
  exists r. split; [done|].
  assert (tradeRow.BaseAssetID r = Z.min sold bought ∧
          tradeRow.CounterAssetID r = Z.max sold bought) as [Hb Hc].
  { rewrite Hflag in Hsides. unfold base_side, counter_side in Hsides.
    case_bool_decide; destruct Hsides as [Hs1 Hs2];
      inversion Hs1; inversion Hs2; lia. }
  split; [done|]. split; [done|].
  split.
  { rewrite Hflag, Hb. apply bool_decide_ext. lia. }
  split; [done|]. split.
  - intros ing2 t1 t2 G1 G2.
    destruct (Trade_resolved opid order (xdr.SellerId trade) (reverse_roles buyer trade)
                ledgerClosedAt ing2 t1 t2 bought sold G1 G2)
      as (r' & Hr' & _ & _ & _ & _ & _ & _ & Hflag' & Hsides').
    exists r'. split; [done|].
    rewrite Hflag' in Hsides' |- *. rewrite Hflag in Hsides |- *. simpl in Hsides'.
    repeat case_bool_decide; try lia; simpl;
      destruct Hsides as [-> ->]; destruct Hsides' as [-> ->]; done.
  - intros ing2 t1 t2 G1 G2.
    destruct (Trade_resolved opid order (xdr.SellerId trade) (exchange_parties buyer trade)
                ledgerClosedAt ing2 t1 t2 sold bought G1 G2)
      as (r' & Hr' & _ & _ & _ & _ & _ & _ & Hflag' & Hsides').
    exists r'. split; [done|].
    rewrite Hflag' in Hsides' |- *. rewrite Hflag in Hsides |- *. simpl in Hsides'.
    unfold base_side, counter_side in *.
    case_bool_decide; destruct Hsides as [Hs1 Hs2]; destruct Hsides' as [Hs1' Hs2'];
      inversion Hs1; inversion Hs2; inversion Hs1'; inversion Hs2';
      repeat split; congruence.
Qed.

(** C10. Whatever the two identifiers, the row's flag is set exactly when
    the sold asset's identifier is strictly below the bought one's, and a
    row whose flag is unset has the buyer on the base side.  So when both
    assets resolve to one identifier, the buyer's address and the amount
    bought are the base side, the seller's address and the amount sold the
    counter side, and [BaseIsSeller] is false. *)
Theorem Trade_equal_identifiers
    opid order buyer trade ledgerClosedAt ing s1 s2 sold bought :
  q_GetCreateAssetID fault (xdr.AssetSold trade) (DB ing) = (s1, Ok sold) →
  q_GetCreateAssetID fault (xdr.AssetBought trade) s1 = (s2, Ok bought) →
  ∃ r,
    Trade fault opid order buyer trade ledgerClosedAt ing =
      (set_rowsToInsert (rowsToInsert ing ++ [Trade_ r]) (set_DB s2 ing), Ok tt) ∧
    (tradeRow.BaseIsSeller r = true ↔ (sold < bought)%Z) ∧
    (tradeRow.BaseIsSeller r = false →
       base_side r = (xdr.Address buyer, bought, xdr.AmountBought trade) ∧
       counter_side r = (xdr.Address (xdr.SellerId trade), sold, xdr.AmountSold trade)) ∧
    (sold = bought →
       tradeRow.BaseIsSeller r = false ∧
       base_side r = (xdr.Address buyer, bought, xdr.AmountBought trade) ∧
       counter_side r = (xdr.Address (xdr.SellerId trade), sold, xdr.AmountSold trade)).
Proof.
  intros H1 H2.
  destruct (Trade_resolved opid order buyer trade ledgerClosedAt ing s1 s2 sold bought
              H1 H2) as (r & Hr & _ & _ & _ & _ & _ & _ & Hflag & Hsides).
  exists r. split; [done|].
  split; [by rewrite Hflag, bool_decide_eq_true|].
  split.
  - intros E. by rewrite E in Hsides.
  - intros ->. rewrite Hflag in Hsides |- *.
    rewrite bool_decide_eq_false_2 in Hsides |- * by lia. done.
Qed.

End Trades.

(** ** Starting and committing *)

Lemma GetTableName_row_tables r : GetTableName r ∈ row_tables.
Proof. destruct r; compute_done. Qed.

Lemma row_tables_cases (P : TableName → Prop) :
  P EffectsTableName → P LedgersTableName → P OperationParticipantsTableName →
  P OperationsTableName → P TradesTableName → P TransactionParticipantsTableName →
  P TransactionsTableName →
  ∀ t, t ∈ row_tables → P t.
Proof.
  intros ??????? t Ht. unfold row_tables in Ht.
  repeat (apply elem_of_cons in Ht as [->|Ht]; [done|]).
  by apply elem_of_nil in Ht.
Qed.

Lemma createInsertBuilders_spec ing :
  createInsertBuilders ing =
    (set_assetStats fresh_assetStats (set_builders fresh_builders ing), Ok tt).
Proof. destruct ing. vm_compute. reflexivity. Qed.

Lemma fresh_builder_lookup t :
  t ∈ row_tables → fresh_builders !! t = Some (fresh_builder t).
Proof. revert t. apply row_tables_cases; vm_compute; (split || idtac); reflexivity. Qed.

Lemma fresh_builder_empty t :
  t ∈ row_tables → into (fresh_builder t) = t ∧ values (fresh_builder t) = [].
Proof. revert t. apply row_tables_cases; vm_compute; (split || idtac); reflexivity. Qed.

Lemma fresh_builders_dom t : is_Some (fresh_builders !! t) ↔ t ∈ row_tables.
Proof.
  split.
  - intros H. apply elem_of_dom in H. revert H.
    assert (dom fresh_builders = list_to_set row_tables) as -> by (vm_compute; reflexivity).
    by rewrite elem_of_list_to_set.
  - intros H. rewrite fresh_builder_lookup by done. eauto.
Qed.

Lemma createInsertBuilderByTableName_spec t ing :
  t ∈ row_tables →
  createInsertBuilderByTableName t ing =
    (set_builders (<[t := fresh_builder t]> (builders ing)) ing, Ok tt).
Proof.
  revert t. apply row_tables_cases;
    unfold createInsertBuilderByTableName; repeat case_decide; try done;
    unfold createOperationsInsertBuilder, createEffectsInsertBuilder,
      createLedgersInsertBuilder, createTradesInsertBuilder,
      createOperationParticipantsInsertBuilder, createTransactionsInsertBuilder,
      createTransactionParticipantsInsertBuilder, set_builder, modify;
    do 3 f_equal; vm_compute; reflexivity.
Qed.

Section Flushing.

Context (fault : list Call → Call → option string).
Context {map_range : MapRange}.

(** *** Store calls *)

Lemma call_cases {A} c (run : Session → Session * A) s :
  (∃ msg, fault (calls s) c = Some msg ∧
     call fault c run s = (log c s, Err (StoreError msg))) ∨
  (fault (calls s) c = None ∧
     call fault c run s = ((run (log c s)).1, Ok (run (log c s)).2)).
Proof.
  unfold call. destruct (fault (calls s) c) as [msg|]; [left; eauto|right].
  by destruct (run (log c s)).
Qed.

Lemma db_Exec_cases b s :
  (∃ msg, fault (calls s) (INSERT b) = Some msg ∧
     db_Exec fault b s = (log (INSERT b) s, Err (StoreError msg))) ∨
  (∃ s', fault (calls s) (INSERT b) = None ∧ db_Exec fault b s = (s', Ok tt) ∧
     calls s' = calls s ++ [INSERT b] ∧ accounts s' = accounts s ∧
     account_seq s' = account_seq s).
Proof.
  unfold db_Exec.
  match goal with |- context [call fault ?c ?run s] =>
    destruct (call_cases c run s) as [(msg & Hf & ->)|[Hf ->]] end.
  - left. eauto.
  - right. eexists. split; [done|]. split; [reflexivity|]. done.
Qed.

Lemma commit_cases ing :
  (∃ msg, fault (calls (DB ing)) COMMIT = Some msg ∧
     commit fault ing = (set_DB (log COMMIT (DB ing)) ing, Err (StoreError msg))) ∨
  (fault (calls (DB ing)) COMMIT = None ∧
     commit fault ing = (set_DB (log COMMIT (DB ing)) ing, Ok tt)).
Proof.
  unfold commit, bind, db, db_Commit.
  destruct (call_cases COMMIT (λ s, (s, tt)) (DB ing)) as [(msg & Hf & ->)|[Hf ->]];
    eauto.
Qed.

Lemma Start_cases ing :
  (∃ msg, fault (calls (DB ing)) BEGIN = Some msg ∧
     Start fault ing = (set_DB (log BEGIN (DB ing)) ing, Err (StoreError msg))) ∨
  (fault (calls (DB ing)) BEGIN = None ∧
     Start fault ing = (started (DB ing), Ok tt)).
Proof.
  unfold Start, bind, db, db_Begin.
  destruct (call_cases BEGIN (λ s, (s, tt)) (DB ing)) as [(msg & Hf & ->)|[Hf ->]];
    [eauto|].
  right. split; [done|]. cbn [fst snd]. by rewrite createInsertBuilders_spec.
Qed.

Lemma started_ready db : builders_ready (started db).
Proof. intros t Ht. simpl. by apply fresh_builders_dom. Qed.

(** *** UpdateAccountIDs, laid out *)

Lemma UpdateAccountIDs_eq ing :
  UpdateAccountIDs fault ing =
  let ca := collect_addresses (rowsToInsert ing) in
  if bool_decide (len ca.2 = 0)%Z then (ing, Ok tt)
  else
    match q_AccountsByAddresses fault ca.2 (DB ing) with
    | (s1, Ok dbAccounts) =>
        let ids := record_accounts dbAccounts ca.1 in
        if bool_decide (0 < len (unresolved ids))%Z then
          match q_CreateAccounts fault (unresolved ids) s1 with
          | (s2, Ok created) =>
              (set_rowsToInsert
                 (map (row_UpdateAccountIDs (record_accounts created ids))
                    (rowsToInsert ing)) (set_DB s2 ing), Ok tt)
          | (s2, Err e) => (set_DB s2 ing, Err e)
          | (s2, Panic msg) => (set_DB s2 ing, Panic msg)
          end
        else
          (set_rowsToInsert (map (row_UpdateAccountIDs ids) (rowsToInsert ing))
             (set_DB s1 ing), Ok tt)
    | (s1, Err e) => (set_DB s1 ing, Err e)
    | (s1, Panic msg) => (set_DB s1 ing, Panic msg)
    end.
Proof.
  unfold UpdateAccountIDs, bind at 1, get.
  destruct (collect_addresses (rowsToInsert ing)) as [accounts addresses]. simpl.
  case_bool_decide; [done|].
  unfold bind at 1, db at 1.
  destruct (q_AccountsByAddresses fault addresses (DB ing)) as [s1 [dbAccounts|e|msg]];
    [|done|done].
  unfold bind at 1. case_bool_decide.
  - unfold bind at 1, db at 1. simpl.
    by destruct (q_CreateAccounts fault _ s1) as [s2 [created|e|msg]].
  - done.
Qed.

(** *** The first loop of Flush, laid out *)

Lemma flush_row_eq r pc ing :
  flush_row fault r pc ing =
  let t := GetTableName r in
  match builders ing !! t with
  | None => (ing, Err (Errorf (t +:+ " insert builder does not exist")))
  | Some b =>
      let b' := Values (GetParams r) b in
      let ing1 := set_builders (<[t := b']> (builders ing)) ing in
      let pc1 := <[t := int_add (count pc t) (len (GetParams r))]> pc in
      if bool_decide (65000 < count pc1 t)%Z then
        match db_Exec fault b' (DB ing) with
        | (s', Ok _) =>
            match createInsertBuilderByTableName t (set_DB s' ing1) with
            | (ing2, Ok _) => (ing2, Ok (<[t := 0%Z]> pc1))
            | (ing2, Err e) => (ing2, Err e)
            | (ing2, Panic msg) => (ing2, Panic msg)
            end
        | (s', Err e) => (set_DB s' ing1, Err (Wrap e (exec_error t)))
        | (s', Panic msg) => (set_DB s' ing1, Panic msg)
        end
      else (ing1, Ok pc1)
  end.
Proof.
  unfold flush_row, bind at 1, get.
  destruct (builders ing !! GetTableName r) as [b|] eqn:Hb; [|done]. simpl.
  unfold bind at 1, set_builder, modify.
  case_bool_decide; [|done].
  unfold bind at 1, get. unfold builder. simpl. rewrite lookup_insert_eq. simpl.
  unfold bind at 1, wrap, db. simpl.
  destruct (db_Exec fault _ (DB ing)) as [s' [[]|e|msg]]; [|done|done].
  unfold bind.
  by destruct (createInsertBuilderByTableName _ _) as [ing2 [[]|e|msg]].
Qed.

Lemma flush_rest_eq t c ing :
  flush_rest fault (t, c) tt ing =
  if bool_decide (0 < c)%Z then
    match db_Exec fault (builder t ing) (DB ing) with
    | (s', Ok _) => (set_DB s' ing, Ok tt)
    | (s', Err e) => (set_DB s' ing, Err (Wrap e (exec_error t)))
    | (s', Panic msg) => (set_DB s' ing, Panic msg)
    end
  else (ing, Ok tt).
Proof.
  unfold flush_rest. case_bool_decide; [|done].
  unfold bind, get, wrap, db.
  by destruct (db_Exec fault _ (DB ing)) as [s' [[]|e|msg]].
Qed.

End Flushing.

Section Readiness.

Context (fault : list Call → Call → option string).
Context {Details : Type} (json_Marshal : Details → error + list Byte.byte).
Context {map_range : MapRange}.

Lemma appends_builders m ing rows :
  appends m ing rows → builders (m ing).1 = builders ing.
Proof. unfold appends. by intros ->. Qed.

Lemma emitter_builders m ing : emitter fault json_Marshal m → builders (m ing).1 = builders ing.
Proof.
  destruct 1.
  - destruct (Effect_appends json_Marshal address opid order typ details ing) as [? H].
    by apply appends_builders in H.
  - destruct (Operation_appends json_Marshal id txid order source typ details ing)
      as [? H].
    by apply appends_builders in H.
  - unfold OperationParticipants. by rewrite for_range_append.
  - done.
  - apply Trade_frame.
  - done.
  - unfold TransactionParticipants. by rewrite for_range_append.
Qed.

Lemma Start_Ok_inv ing ing' :
  Start fault ing = (ing', Ok tt) →
  fault (calls (DB ing)) BEGIN = None ∧ ing' = started (DB ing).
Proof.
  destruct (Start_cases fault ing) as [(msg & Hf & ->)|[Hf ->]]; [done|].
  by intros [= <-].
Qed.

Lemma buffering_fresh ing : buffering fault json_Marshal ing → builders ing = fresh_builders.
Proof.
  induction 1 as [ing ing' H|ing m _ IH Hm].
  - by apply Start_Ok_inv in H as [_ ->].
  - by rewrite emitter_builders.
Qed.

Lemma buffering_ready ing : buffering fault json_Marshal ing → builders_ready ing.
Proof.
  intros H t Ht. rewrite (buffering_fresh _ H). by apply fresh_builders_dom.
Qed.

(** *** Outcomes of the parts of Flush *)

Lemma store_outcome_call {A} c (run : Session → Session * A) s :
  store_outcome (call fault c run s).2.
Proof.
  destruct (call_cases fault c run s) as [(msg & _ & ->)|[_ ->]]; simpl; eauto.
Qed.

Lemma AccountsByAddresses_outcome addresses s :
  store_outcome (q_AccountsByAddresses fault addresses s).2.
Proof. apply store_outcome_call. Qed.

Lemma CreateAccounts_outcome addresses s :
  store_outcome (q_CreateAccounts fault addresses s).2.
Proof. apply store_outcome_call. Qed.

Lemma UpdateAccountIDs_builders ing :
  builders (UpdateAccountIDs fault ing).1 = builders ing ∧
  store_outcome (UpdateAccountIDs fault ing).2.
Proof.
  rewrite UpdateAccountIDs_eq. cbv zeta. case_bool_decide; [done|].
  pose proof (AccountsByAddresses_outcome
                (collect_addresses (rowsToInsert ing)).2 (DB ing)) as H1.
  destruct (q_AccountsByAddresses fault _ (DB ing)) as [s1 [dbAccounts|e|msg]];
    [|done|done].
  case_bool_decide; [|done].
  match goal with |- context [q_CreateAccounts fault ?a s1] =>
    pose proof (CreateAccounts_outcome a s1) as H2;
    destruct (q_CreateAccounts fault a s1) as [s2 [created|e|msg]] end; done.
Qed.

Lemma flush_row_ready r pc ing :
  builders_ready ing →
  builders_ready (flush_row fault r pc ing).1 ∧
  store_outcome (flush_row fault r pc ing).2.
Proof.
  intros Hready. rewrite flush_row_eq. cbv zeta.
  pose proof (GetTableName_row_tables r) as Ht.
  destruct (Hready _ Ht) as [b ->].
  assert (builders_ready (set_builders
            (<[GetTableName r := Values (GetParams r) b]> (builders ing)) ing)) as H1.
  { intros t' Ht'. simpl. rewrite lookup_insert. case_decide; [eauto|by apply Hready]. }
  case_bool_decide; [|done].
  destruct (db_Exec_cases fault (Values (GetParams r) b) (DB ing))
    as [(msg & _ & ->)|(s' & _ & -> & _)].
  - split; [done|]. simpl. eauto.
  - rewrite createInsertBuilderByTableName_spec by done. split; [|done].
    intros t' Ht'. simpl. rewrite lookup_insert. case_decide; [eauto|].
    rewrite lookup_insert. case_decide; [eauto|by apply Hready].
Qed.

Lemma flush_rest_ready entry ing :
  builders (flush_rest fault entry tt ing).1 = builders ing ∧
  store_outcome (flush_rest fault entry tt ing).2.
Proof.
  destruct entry as [t c]. rewrite flush_rest_eq. case_bool_decide; [|done].
  destruct (db_Exec_cases fault (builder t ing) (DB ing))
    as [(msg & _ & ->)|(s' & _ & -> & _)]; simpl; eauto.
Qed.

Lemma for_range_store_outcome {A S} (I : Ingestion → Prop)
    (body : A → S → M S) l st ing :
  (∀ a st ing, I ing → I (body a st ing).1 ∧ store_outcome (body a st ing).2) →
  I ing →
  I (for_range l body st ing).1 ∧ store_outcome (for_range l body st ing).2.
Proof.
  intros Hbody. revert st ing. induction l as [|a l IH]; intros st ing HI; [done|].
  simpl. unfold bind. specialize (Hbody a st ing HI).
  destruct (body a st ing) as [ing1 [st1|e|msg]]; simpl in *; [|done|done].
  apply IH, Hbody.
Qed.

Lemma flush_inserts_ready ing :
  builders_ready ing → store_outcome (flush_inserts fault ing).2.
Proof.
  intros Hready. unfold flush_inserts, bind at 1, get. unfold bind.
  pose proof (for_range_store_outcome builders_ready (flush_row fault)
                (rowsToInsert ing) ∅ ing (λ a st i, flush_row_ready a st i) Hready)
    as [H1 H2].
  destruct (for_range (rowsToInsert ing) (flush_row fault) ∅ ing)
    as [ing1 [pc|e|msg]]; simpl in *; [|done|done].
  apply (for_range_store_outcome (λ _, True) (flush_rest fault)); [|done].
  intros [t c] [] i _. split; [done|]. apply flush_rest_ready.
Qed.

Lemma Flush_store_outcome ing :
  builders_ready ing → store_outcome (Flush fault ing).2.
Proof.
  intros Hready. unfold Flush. unfold bind at 1, wrap.
  destruct (UpdateAccountIDs_builders ing) as [Hb Ho].
  destruct (UpdateAccountIDs fault ing) as [i1 [[]|e|msg]]; simpl in *; [|done|done].
  unfold bind at 1.
  assert (builders_ready i1) as Hready1.
  { intros t Ht. rewrite Hb. by apply Hready. }
  pose proof (flush_inserts_ready i1 Hready1) as Hi.
  destruct (flush_inserts fault i1) as [i2 [[]|e|msg]]; simpl in *; [|done|done].
  unfold bind at 1.
  destruct (commit_cases fault i2) as [(msg & _ & ->)|[_ ->]]; [simpl; eauto|].
  destruct (Start_cases fault (set_DB (log COMMIT (DB i2)) i2))
    as [(msg & _ & ->)|[_ ->]]; simpl; eauto.
Qed.

Lemma Flush_Ok_inv ing ing' :
  Flush fault ing = (ing', Ok tt) →
  ∃ i1 i2,
    UpdateAccountIDs fault ing = (i1, Ok tt) ∧
    flush_inserts fault i1 = (i2, Ok tt) ∧
    fault (calls (DB i2)) COMMIT = None ∧
    commit fault i2 = (set_DB (log COMMIT (DB i2)) i2, Ok tt) ∧
    Start fault (set_DB (log COMMIT (DB i2)) i2) = (ing', Ok tt).
Proof.
  unfold Flush. intros H.
  apply bind_Ok_inv in H as ([] & i1 & H1 & H).
  apply wrap_Ok_inv in H1.
  apply bind_Ok_inv in H as ([] & i2 & H2 & H).
  apply bind_Ok_inv in H as ([] & i3 & H3 & H).
  destruct (commit_cases fault i2) as [(msg & _ & Hc)|[Hf Hc]];
    rewrite Hc in H3; [done|].
  injection H3 as <-. exists i1, i2. done.
Qed.

Lemma UpdateAccountIDs_empty ing :
  rowsToInsert ing = [] → UpdateAccountIDs fault ing = (ing, Ok tt).
Proof. intros H. rewrite UpdateAccountIDs_eq, H. reflexivity. Qed.

Lemma range_empty {V} : range (∅ : gmap string V) = [].
Proof. apply Permutation_nil_r. rewrite range_perm. by rewrite map_to_list_empty. Qed.

Lemma flush_inserts_empty ing :
  rowsToInsert ing = [] → flush_inserts fault ing = (ing, Ok tt).
Proof.
  intros H. unfold flush_inserts, bind at 1, get. rewrite H. simpl for_range.
  unfold bind, ret. by rewrite range_empty.
Qed.

Lemma Flush_empty ing :
  rowsToInsert ing = [] →
  Flush fault ing = (commit fault ;;; Start fault) ing.
Proof.
  intros Hrows. unfold Flush. unfold bind at 1, wrap.
  rewrite (UpdateAccountIDs_empty _ Hrows). unfold bind at 1.
  by rewrite (flush_inserts_empty _ Hrows).
Qed.

(** C9. [Start], and so a successful [Flush], leaves a builder for each of
    the seven row tables; emitters do not touch the builders and every row
    names one of the seven tables.  Hence a writer that was started and has
    since only buffered rows has a builder for the table of every buffered
    row, and its [Flush] cannot end in the "insert builder does not exist"
    error (nor in a panic): it succeeds or reports a failure of the
    store. *)
Theorem builders_exist_for_buffered_rows :
  (∀ r, GetTableName r ∈ row_tables) ∧
  (∀ ing ing', Start fault ing = (ing', Ok tt) → builders_ready ing') ∧
  (∀ ing ing', Flush fault ing = (ing', Ok tt) →
     builders_ready ing' ∧ buffering fault json_Marshal ing') ∧
  (∀ ing, buffering fault json_Marshal ing →
     builders_ready ing ∧
     (∀ r, r ∈ rowsToInsert ing → is_Some (builders ing !! GetTableName r)) ∧
     (∀ t, (Flush fault ing).2 ≠ Err (Errorf (t +:+ " insert builder does not exist"))) ∧
     store_outcome (Flush fault ing).2).
Proof.
  split; [apply GetTableName_row_tables|].
  split.
  { intros ing ing' H. apply buffering_ready. by eapply buffering_Start. }
  split.
  { intros ing ing' H. apply Flush_Ok_inv in H as (i1 & i2 & _ & _ & _ & _ & H).
    split; [apply buffering_ready|]; by eapply buffering_Start. }
  intros ing H. pose proof (buffering_ready _ H) as Hready.
  split; [done|]. split.
  { intros r _. apply Hready, GetTableName_row_tables. }
  pose proof (Flush_store_outcome ing Hready) as Ho.
  split; [|done].
  intros t E. rewrite E in Ho. simpl in Ho. by destruct Ho.
Qed.

(** C7. A [Flush] of an empty buffer calls the store to commit and, if that
    succeeded, to begin a transaction, and for nothing else: no statement
    is executed.  Any [Flush] that succeeds ends with a commit followed by
    the very [Start] a client would call: the writer it leaves has the
    seven empty builders, the empty row buffer and a transaction just
    opened, as after any other successful [Start]. *)
Theorem Flush_restarts ing :
  (rowsToInsert ing = [] →
     ∃ new, calls (DB (Flush fault ing).1) = calls (DB ing) ++ new ∧
       (∀ b, INSERT b ∉ new) ∧
       (new = [COMMIT; BEGIN] ∨
        new = [COMMIT] ∧ is_Some (fault (calls (DB ing)) COMMIT)) ∧
       ((Flush fault ing).2 = Ok tt ↔
        fault (calls (DB ing)) COMMIT = None ∧
        fault (calls (DB ing) ++ [COMMIT]) BEGIN = None)) ∧
  (∀ ing', Flush fault ing = (ing', Ok tt) →
     ∃ committed,
       last (calls (DB committed)) = Some COMMIT ∧
       Start fault committed = (ing', Ok tt) ∧
       ing' = started (DB committed) ∧
       calls (DB ing') = calls (DB committed) ++ [BEGIN] ∧
       rowsToInsert ing' = [] ∧
       (∀ t, t ∈ row_tables →
          ∃ b, builders ing' !! t = Some b ∧ into b = t ∧ values b = []) ∧
       (∀ t, is_Some (builders ing' !! t) → t ∈ row_tables) ∧
       (∀ other other', Start fault other = (other', Ok tt) →
          builders other' = builders ing' ∧
          rowsToInsert other' = rowsToInsert ing' ∧
          assetStats other' = assetStats ing')).
Proof.
  split.
  - intros Hrows. rewrite (Flush_empty _ Hrows). unfold bind.
    destruct (commit_cases fault ing) as [(msg & Hf & ->)|[Hf ->]].
    + exists [COMMIT]. simpl. rewrite Hf. split; [done|]. split.
      { intros b Hb. apply list_elem_of_singleton in Hb. done. }
      split; [right; eauto|]. split; [done|]. by intros [? _].
    + destruct (Start_cases fault (set_DB (log COMMIT (DB ing)) ing))
        as [(msg & Hb & ->)|[Hb ->]]; simpl in *.
      * exists [COMMIT; BEGIN]. rewrite <- app_assoc. split; [done|]. split.
        { intros b Hin. repeat (apply elem_of_cons in Hin as [?|Hin]; [done|]).
          by apply elem_of_nil in Hin. }
        split; [by left|]. rewrite Hb. split; [done|]. by intros [_ ?].
      * exists [COMMIT; BEGIN]. rewrite <- app_assoc. split; [done|]. split.
        { intros b Hin. repeat (apply elem_of_cons in Hin as [?|Hin]; [done|]).
          by apply elem_of_nil in Hin. }
        split; [by left|]. done.
  - intros ing' H. apply Flush_Ok_inv in H as (i1 & i2 & _ & _ & _ & _ & H).
    exists (set_DB (log COMMIT (DB i2)) i2).
    split; [simpl; by rewrite last_snoc|]. split; [done|].
    apply Start_Ok_inv in H as [_ ->].
    split; [done|]. split; [done|]. split; [done|]. split.
    { intros t Ht. exists (fresh_builder t). simpl.
      split; [by apply fresh_builder_lookup | by apply fresh_builder_empty]. }
    split; [intros t; apply fresh_builders_dom|].
    intros other other' Ho. by apply Start_Ok_inv in Ho as [_ ->].
Qed.

End Readiness.

(** ** Account resolution *)

Lemma collect_address_spec st a :
  collected st →
  collected (collect_address st a) ∧
  ∀ x, x ∈ (collect_address st a).2 ↔ x ∈ st.2 ∨ x = a.
Proof.
  destruct st as [m l]. intros [Hnd Hm]. unfold collect_address. simpl in *.
  assert (is_Some (m !! a) ↔ a ∈ l) as Hin.
  { rewrite Hm. case_decide; [split; eauto | split; [by intros [? ?] | done]]. }
  case_decide as Hs.
  - apply Hin in Hs. split; [split; [done|]|].
    + intros x. simpl. rewrite lookup_insert. case_decide as Hx.
      * subst. by rewrite decide_True.
      * apply Hm.
    + intros x. simpl. split; [eauto|]. by intros [?| ->].
  - assert (a ∉ l) as Hnotin by (by rewrite <- Hin).
    split; [split|].
    + simpl. apply NoDup_app. split; [done|]. split; [|apply NoDup_singleton].
      intros x Hx Hxa. apply list_elem_of_singleton in Hxa. by subst.
    + intros x. simpl. rewrite lookup_insert, Hm. case_decide as Hx.
      * subst. rewrite decide_True; [done|]. apply elem_of_app. right.
        by apply list_elem_of_singleton.
      * destruct (decide (x ∈ l)) as [Hl|Hl].
        -- rewrite decide_True; [done|]. apply elem_of_app. by left.
        -- rewrite decide_False; [done|]. rewrite elem_of_app, list_elem_of_singleton.
           intros [?|?]; done.
    + intros x. simpl. by rewrite elem_of_app, list_elem_of_singleton.
Qed.

Lemma foldl_collect_address_spec l st :
  collected st →
  collected (foldl collect_address st l) ∧
  ∀ x, x ∈ (foldl collect_address st l).2 ↔ x ∈ st.2 ∨ x ∈ l.
Proof.
  revert st. induction l as [|a l IH]; intros st Hst; simpl.
  - split; [done|]. intros x. split; [eauto|]. intros [?|H]; [done|].
    by apply elem_of_nil in H.
  - destruct (collect_address_spec st a Hst) as [H1 H2].
    destruct (IH _ H1) as [H3 H4]. split; [done|].
    intros x. rewrite H4, H2, elem_of_cons. tauto.
Qed.

Lemma collect_addresses_foldl rows :
  collect_addresses rows = foldl collect_address (∅, []) (row_addresses rows).
Proof.
  unfold collect_addresses, row_addresses. generalize (∅ : gmap string Z, [] : list string).
  induction rows as [|r rows IH]; intros st; simpl; [done|].
  by rewrite foldl_app, IH.
Qed.

Lemma collect_addresses_spec rows :
  collected (collect_addresses rows) ∧
  ∀ x, x ∈ (collect_addresses rows).2 ↔ x ∈ row_addresses rows.
Proof.
  rewrite collect_addresses_foldl.
  destruct (foldl_collect_address_spec (row_addresses rows) (∅, [])) as [H1 H2].
  { split; [constructor|]. intros a. cbn [fst snd]. rewrite lookup_empty.
    rewrite decide_False; [done|]. apply not_elem_of_nil. }
  split; [done|]. intros x. rewrite H2. simpl. split; [|eauto].
  intros [H|H]; [by apply elem_of_nil in H|done].
Qed.

(** [record_accounts] overrides the entries of the addresses it is given. *)
Lemma record_accounts_notin accts m a :
  a ∉ history.Address <$> accts → record_accounts accts m !! a = m !! a.
Proof.
  revert m. induction accts as [|acct accts IH]; intros m Ha; simpl; [done|].
  rewrite fmap_cons, not_elem_of_cons in Ha. destruct Ha as [Hne Ha].
  unfold record_accounts in *. simpl. rewrite IH by done. by rewrite lookup_insert_ne.
Qed.

Lemma record_accounts_in accts m acct :
  NoDup (history.Address <$> accts) → acct ∈ accts →
  record_accounts accts m !! history.Address acct = Some (history.ID acct).
Proof.
  revert m. induction accts as [|x accts IH]; intros m Hnd Hin.
  - by apply elem_of_nil in Hin.
  - rewrite fmap_cons in Hnd. apply NoDup_cons in Hnd as [Hx Hnd].
    apply elem_of_cons in Hin as [->|Hin].
    + unfold record_accounts. simpl. fold (record_accounts accts
        (<[history.Address x := history.ID x]> m)).
      rewrite record_accounts_notin by done. by rewrite lookup_insert_eq.
    + unfold record_accounts in *. simpl. by apply IH.
Qed.

Lemma fresh_accounts_addresses seq l : history.Address <$> fresh_accounts seq l = l.
Proof. revert seq. induction l as [|a l IH]; intros seq; simpl; [done|]. by rewrite IH. Qed.

Lemma fresh_accounts_ids seq l :
  Forall (λ a, (seq ≤ history.ID a < seq + len l)%Z) (fresh_accounts seq l).
Proof.
  revert seq. induction l as [|a l IH]; intros seq; simpl; [constructor|].
  unfold len in *. simpl length. constructor; [simpl; lia|].
  eapply Forall_impl; [apply IH|]. simpl. intros; lia.
Qed.

Lemma NoDup_filter_fst {A B} (P : A * B → Prop) `{∀ x, Decision (P x)} (l : list (A * B)) :
  NoDup l.*1 → NoDup (filter P l).*1.
Proof.
  induction l as [|x l IH]; [done|]. rewrite fmap_cons, NoDup_cons. intros [Hx Hl].
  rewrite filter_cons. case_decide; [|by apply IH].
  rewrite fmap_cons. apply NoDup_cons. split; [|by apply IH].
  intros Hin. apply Hx. apply list_elem_of_fmap in Hin as (y & -> & Hy).
  apply list_elem_of_filter in Hy as [_ Hy]. by apply list_elem_of_fmap_2.
Qed.

Section Resolution.

Context (fault : list Call → Call → option string).
Context {map_range : MapRange}.

Lemma elem_of_range {V} (m : gmap string V) k v :
  (k, v) ∈ range m ↔ m !! k = Some v.
Proof. rewrite range_perm. apply elem_of_map_to_list. Qed.

Lemma NoDup_range_keys {V} (m : gmap string V) : NoDup (range m).*1.
Proof. rewrite range_perm. apply NoDup_fst_map_to_list. Qed.

Lemma elem_of_unresolved ids a : a ∈ unresolved ids ↔ ids !! a = Some 0%Z.
Proof.
  unfold unresolved. rewrite list_elem_of_fmap. split.
  - intros ([k v] & -> & H). apply list_elem_of_filter in H as [Hv H].
    simpl in *. subst. by apply elem_of_range.
  - intros H. exists (a, 0%Z). split; [done|]. apply list_elem_of_filter.
    split; [done|]. by apply elem_of_range.
Qed.

Lemma NoDup_unresolved ids : NoDup (unresolved ids).
Proof. apply NoDup_filter_fst, NoDup_range_keys. Qed.

Lemma AccountsByAddresses_Ok_inv l s s1 dbAccounts :
  q_AccountsByAddresses fault l s = (s1, Ok dbAccounts) →
  s1 = log (SELECT_ACCOUNTS l) s ∧
  dbAccounts = filter (λ a, history.Address a ∈ l) (accounts s).
Proof.
  unfold q_AccountsByAddresses.
  match goal with |- context [call fault ?c ?run s] =>
    destruct (call_cases fault c run s) as [(msg & _ & ->)|[_ ->]] end; [done|].
  by intros [= <- <-].
Qed.

Lemma CreateAccounts_Ok_inv l s s2 created :
  q_CreateAccounts fault l s = (s2, Ok created) →
  created = fresh_accounts (account_seq s) l ∧
  s2 = add_accounts created (log (INSERT_ACCOUNTS l) s).
Proof.
  unfold q_CreateAccounts.
  match goal with |- context [call fault ?c ?run s] =>
    destruct (call_cases fault c run s) as [(msg & _ & ->)|[_ ->]] end; [done|].
  by intros [= <- <-].
Qed.

(** The map after the lookup of existing accounts. *)
Lemma selected_lookup s rows :
  accounts_wf s →
  let l := (collect_addresses rows).2 in
  let ids := record_accounts (filter (λ a, history.Address a ∈ l) (accounts s))
               (collect_addresses rows).1 in
  (∀ acct, acct ∈ accounts s → history.Address acct ∈ l →
     ids !! history.Address acct = Some (history.ID acct)) ∧
  (∀ a, a ∈ l → ¬ known s a → ids !! a = Some 0%Z) ∧
  (∀ a, a ∉ l → ids !! a = None).
Proof.
  intros (Hnd & Hseq & Hids) l ids.
  destruct (collect_addresses_spec rows) as [[_ Hm] _]. fold l in Hm.
  set (found := filter (λ a, history.Address a ∈ l) (accounts s)) in *.
  assert (NoDup (history.Address <$> found)) as Hfound.
  { eapply sublist_NoDup; [exact Hnd|]. apply fmap_sublist, sublist_filter. }
  split; [|split].
  - intros acct Hin Hl. apply record_accounts_in; [done|].
    apply list_elem_of_filter. done.
  - intros a Hl Hk. unfold ids. rewrite record_accounts_notin.
    + rewrite Hm. by rewrite decide_True.
    + intros Hin. apply Hk. apply list_elem_of_fmap in Hin as (acct & -> & Hacct).
      apply list_elem_of_filter in Hacct as [_ Hacct].
      by apply list_elem_of_fmap_2.
  - intros a Hl. unfold ids. rewrite record_accounts_notin.
    + rewrite Hm. by rewrite decide_False.
    + intros Hin. apply list_elem_of_fmap in Hin as (acct & -> & Hacct).
      by apply list_elem_of_filter in Hacct as [? _].
Qed.

Lemma unresolved_unknown s rows :
  accounts_wf s →
  let l := (collect_addresses rows).2 in
  let ids := record_accounts (filter (λ a, history.Address a ∈ l) (accounts s))
               (collect_addresses rows).1 in
  ∀ a, a ∈ unresolved ids ↔ a ∈ l ∧ ¬ known s a.
Proof.
  intros Hwf l ids a. destruct (selected_lookup s rows Hwf) as (H1 & H2 & H3).
  fold l in H1, H2, H3. fold ids in H1, H2, H3.
  rewrite elem_of_unresolved. split.
  - intros Ha. destruct (decide (a ∈ l)) as [Hl|Hl]; [|by rewrite H3 in Ha].
    split; [done|]. intros Hk. apply list_elem_of_fmap in Hk as (acct & -> & Hacct).
    rewrite (H1 acct Hacct Hl) in Ha. destruct Hwf as (_ & _ & Hids).
    rewrite Forall_forall in Hids. specialize (Hids _ Hacct). injection Ha. lia.
  - intros [Hl Hk]. by apply H2.
Qed.

End Resolution.

Lemma len_nil_inv {A} (l : list A) : ¬ (0 < len l)%Z → l = [].
Proof. destruct l; [done|]. unfold len. simpl. lia. Qed.

Lemma len_zero_inv {A} (l : list A) : len l = 0%Z → l = [].
Proof. destruct l; [done|]. unfold len. simpl. lia. Qed.

Lemma no_address_row_unchanged ids r :
  GetAddresses r = [] → row_UpdateAccountIDs ids r = r.
Proof. by destruct r. Qed.

Lemma no_address_rows_unchanged ids rows :
  row_addresses rows = [] → map (row_UpdateAccountIDs ids) rows = rows.
Proof.
  induction rows as [|r rows IH]; [done|]. unfold row_addresses. simpl.
  intros H. apply app_eq_nil in H as [H1 H2].
  rewrite no_address_row_unchanged by done. f_equal. by apply IH.
Qed.

Lemma fresh_accounts_bounds seq l created :
  (0 < seq)%Z → created = fresh_accounts seq l →
  Forall (λ a, (0 < history.ID a < seq + len created)%Z) created.
Proof.
  intros Hseq ->. eapply Forall_impl; [apply fresh_accounts_ids|].
  simpl. unfold len.
  assert (length (fresh_accounts seq l) = length l) as ->.
  { rewrite <- (fresh_accounts_addresses seq l) at 2. by rewrite length_fmap. }
  intros; lia.
Qed.

Section Resolved.

Context (fault : list Call → Call → option string).
Context {map_range : MapRange}.

(** C6. On a store whose account records are well formed (one record per
    address, positive identifiers), a successful [UpdateAccountIDs] rewrites
    every buffered row with one and the same address-to-identifier map;
    that map sends each referenced address to the identifier of its record
    in the store.  The records created are those of the referenced
    addresses the store did not know, one each: a known address is never
    inserted again, the store stays well formed, and when every referenced
    address is already known no record is created at all. *)
Theorem accounts_resolved_once ing ing' :
  accounts_wf (DB ing) →
  UpdateAccountIDs fault ing = (ing', Ok tt) →
  ∃ (ids : gmap string Z) (created : list history.Account),
    rowsToInsert ing' = map (row_UpdateAccountIDs ids) (rowsToInsert ing) ∧
    (∀ a, a ∈ row_addresses (rowsToInsert ing) →
       ∃ acct, acct ∈ accounts (DB ing') ∧ history.Address acct = a ∧
         ids !! a = Some (history.ID acct)) ∧
    accounts (DB ing') = accounts (DB ing) ++ created ∧
    NoDup (history.Address <$> created) ∧
    (∀ a, a ∈ history.Address <$> created ↔
          a ∈ row_addresses (rowsToInsert ing) ∧ ¬ known (DB ing) a) ∧
    (∃ new, calls (DB ing') = calls (DB ing) ++ new ∧
       ∀ l, INSERT_ACCOUNTS l ∈ new → l = history.Address <$> created) ∧
    accounts_wf (DB ing') ∧
    ((∀ a, a ∈ row_addresses (rowsToInsert ing) → known (DB ing) a) →
       accounts (DB ing') = accounts (DB ing)).
Proof.
  intros Hwf H. rewrite UpdateAccountIDs_eq in H. cbv zeta in H.
  destruct (collect_addresses_spec (rowsToInsert ing)) as [[Hnd Hm] Hl].
  pose proof (selected_lookup (DB ing) (rowsToInsert ing) Hwf) as (S1 & S2 & S3).
  pose proof (unresolved_unknown (DB ing) (rowsToInsert ing) Hwf) as Hu.
  cbv zeta in S1, S2, S3, Hu.
  set (l := (collect_addresses (rowsToInsert ing)).2) in *.
  case_bool_decide as Hlen.
  { (* no address at all *)
    injection H as <-. apply len_zero_inv in Hlen.
    assert (row_addresses (rowsToInsert ing) = []) as Hnone.
    { apply elem_of_nil_inv. intros x Hx. apply Hl in Hx. rewrite Hlen in Hx.
      by apply elem_of_nil in Hx. }
    exists ∅, []. rewrite Hnone, app_nil_r.
    split; [by rewrite no_address_rows_unchanged|].
    split; [intros a Ha; by apply elem_of_nil in Ha|].
    split; [done|]. split; [constructor|].
    split; [intros a; split; [intros Ha|intros [Ha _]]; by apply elem_of_nil in Ha|].
    split; [exists []; rewrite app_nil_r; split; [done|];
            intros ? Hin; by apply elem_of_nil in Hin|].
    done. }
  destruct (q_AccountsByAddresses fault l (DB ing)) as [s1 [dbAccounts|e|msg]] eqn:Hsel;
    [|done|done].
  apply AccountsByAddresses_Ok_inv in Hsel as [-> ->].
  set (ids1 := record_accounts
                 (filter (λ a, history.Address a ∈ l) (accounts (DB ing)))
                 (collect_addresses (rowsToInsert ing)).1) in *.
  case_bool_decide as Hcreate.
  - (* some addresses are new *)
    destruct (q_CreateAccounts fault (unresolved ids1) _) as [s2 [created|e|msg]] eqn:Hc;
      [|done|done].
    apply CreateAccounts_Ok_inv in Hc as [Hcreated ->]. simpl in Hcreated.
    injection H as <-.
    assert (history.Address <$> created = unresolved ids1) as Haddr.
    { rewrite Hcreated. apply fresh_accounts_addresses. }
    assert (NoDup (history.Address <$> created)) as Hndc.
    { rewrite Haddr. apply NoDup_unresolved. }
    exists (record_accounts created ids1), created. simpl.
    split; [done|]. split.
    { intros a Ha. apply Hl in Ha. destruct (decide (known (DB ing) a)) as [Hk|Hk].
      - apply list_elem_of_fmap in Hk as (acct & -> & Hacct).
        exists acct. split; [apply elem_of_app; by left|]. split; [done|].
        rewrite record_accounts_notin; [by apply S1|].
        rewrite Haddr, Hu. intros [_ Hk]. apply Hk. by apply list_elem_of_fmap_2.
      - assert (a ∈ history.Address <$> created) as Hin by (rewrite Haddr, Hu; done).
        apply list_elem_of_fmap in Hin as (acct & -> & Hacct).
        exists acct. split; [apply elem_of_app; by right|]. split; [done|].
        by apply record_accounts_in. }
    split; [done|]. split; [done|]. split.
    { intros a. rewrite Haddr, Hu, Hl. done. }
    split.
    { exists [SELECT_ACCOUNTS l; INSERT_ACCOUNTS (unresolved ids1)].
      split; [by rewrite <- app_assoc|].
      intros l' Hin. apply elem_of_cons in Hin as [?|Hin]; [done|].
      apply list_elem_of_singleton in Hin. by injection Hin as ->. }
    destruct Hwf as (Hnda & Hseq & Hids).
    split.
    { split; [|split].
      - simpl. rewrite fmap_app. apply NoDup_app. split; [done|]. split; [|done].
        intros a Hk. rewrite Haddr, Hu. by intros [_ ?].
      - simpl. unfold len. lia.
      - simpl. apply Forall_app. split.
        + eapply Forall_impl; [exact Hids|]. simpl. unfold len. intros; lia.
        + by eapply fresh_accounts_bounds. }
    intros Hall. exfalso.
    destruct (unresolved ids1) as [|a u] eqn:Eu; [by unfold len in Hcreate|].
    assert (a ∈ a :: u) as Ha by (apply elem_of_cons; by left).
    apply Hu in Ha as [Ha Hk]. apply Hk, Hall. by apply Hl.
  - (* every address is known *)
    injection H as <-. apply len_nil_inv in Hcreate.
    exists ids1, []. simpl. rewrite app_nil_r.
    split; [done|]. split.
    { intros a Ha. apply Hl in Ha. destruct (decide (known (DB ing) a)) as [Hk|Hk].
      - apply list_elem_of_fmap in Hk as (acct & -> & Hacct).
        exists acct. split; [done|]. split; [done|]. by apply S1.
      - assert (a ∈ unresolved ids1) as Hin by (by apply Hu).
        rewrite Hcreate in Hin. by apply elem_of_nil in Hin. }
    split; [done|]. split; [constructor|]. split.
    { intros a. split; [intros Ha; by apply elem_of_nil in Ha|].
      intros [Ha Hk]. apply Hl in Ha.
      assert (a ∈ unresolved ids1) as Hin by (by apply Hu).
      by rewrite Hcreate in Hin. }
    split.
    { exists [SELECT_ACCOUNTS l]. split; [done|].
      intros l' Hin. by apply list_elem_of_singleton in Hin. }
    done.
Qed.

End Resolved.

(** ** The insert loops *)

Lemma to_int64_small z : (- 2 ^ 63 ≤ z < 2 ^ 63)%Z → to_int64 z = z.
Proof. intros H. unfold to_int64. rewrite Z.mod_small; lia. Qed.

Lemma params_len_bounds r : (0 < len (GetParams r) ≤ 18)%Z.
Proof. destruct r; unfold len; simpl; lia. Qed.

Lemma len_app {A} (l k : list A) : len (l ++ k) = (len l + len k)%Z.
Proof. unfold len. rewrite length_app. lia. Qed.

Lemma len_nonneg {A} (l : list A) : (0 ≤ len l)%Z.
Proof. unfold len. lia. Qed.

Lemma bound_params_Values vs b :
  bound_params (Values vs b) = (bound_params b + len vs)%Z.
Proof.
  unfold bound_params, Values. simpl. rewrite concat_app, len_app. simpl.
  by rewrite app_nil_r.
Qed.

Lemma bound_params_nonneg b : (0 ≤ bound_params b)%Z.
Proof. apply len_nonneg. Qed.

Lemma count_insert_eq pc t c : count (<[t := c]> pc) t = c.
Proof. unfold count. by rewrite lookup_insert_eq. Qed.

Lemma count_insert_ne pc t t' c : t ≠ t' → count (<[t := c]> pc) t' = count pc t'.
Proof. intros H. unfold count. by rewrite lookup_insert_ne. Qed.

Lemma tuples_for_snoc t seen r :
  tuples_for t (seen ++ [r]) =
  tuples_for t seen ++ (if decide (GetTableName r = t) then [GetParams r] else []).
Proof.
  unfold tuples_for, rows_for. rewrite filter_app, fmap_app. f_equal.
  rewrite filter_cons, filter_nil. by repeat case_decide.
Qed.

Lemma into_table_snoc t ex b :
  into_table t (ex ++ [b]) =
  into_table t ex ++ (if decide (into b = t) then [b] else []).
Proof.
  unfold into_table. rewrite filter_app. by f_equal.
Qed.

Lemma into_table_app t ex ex' :
  into_table t (ex ++ ex') = into_table t ex ++ into_table t ex'.
Proof. apply filter_app. Qed.

Lemma statements_app cs cs' : statements (cs ++ cs') = statements cs ++ statements cs'.
Proof. apply omap_app. Qed.

Lemma statements_INSERT bs : statements (INSERT <$> bs) = bs.
Proof.
  induction bs as [|b bs IH]; [done|].
  change (b :: statements (INSERT <$> bs) = b :: bs). by rewrite IH.
Qed.

Lemma tuples_for_row_tables t rows : t ∉ row_tables → tuples_for t rows = [].
Proof.
  intros Ht. unfold tuples_for, rows_for.
  induction rows as [|r rows IH]; [done|]. rewrite filter_cons.
  case_decide as E; [|done]. exfalso. apply Ht. rewrite <- E.
  apply GetTableName_row_tables.
Qed.

Lemma tuples_nonempty t rows : Forall (λ vs, vs ≠ []) (tuples_for t rows).
Proof.
  unfold tuples_for. apply Forall_fmap, Forall_forall. intros r _. simpl.
  pose proof (params_len_bounds r) as H. intros E. rewrite E in H. unfold len in H.
  simpl in H. lia.
Qed.

Lemma bound_params_zero b :
  Forall (λ vs, vs ≠ []) (values b) → bound_params b = 0%Z → values b = [].
Proof.
  unfold bound_params, len. destruct (values b) as [|vs rest]; [done|].
  intros H. apply Forall_cons in H as [Hvs _]. simpl. rewrite length_app.
  destruct vs; [done|]. simpl. lia.
Qed.

Section Chunking.

Context (fault : list Call → Call → option string).
Context {map_range : MapRange}.

Lemma flush_inv_start ing : builders ing = fresh_builders → flush_inv [] [] ing ∅.
Proof.
  intros Hb. split; [|split].
  - intros t Ht. exists (fresh_builder t).
    destruct (fresh_builder_empty t Ht) as [Hinto Hvalues].
    rewrite Hb. clear Hb. split; [by apply fresh_builder_lookup|].
    split; [done|]. split; [done|].
    unfold bound_params, count. rewrite Hvalues, lookup_empty. done.
  - clear Hb. intros t [c Hc]. by rewrite lookup_empty in Hc.
  - constructor.
Qed.

(** A table other than the one a step works on keeps its invariant. *)
Lemma table_inv_other t' seen ex ing pc r ex' ing' pc' :
  GetTableName r ≠ t' →
  builders ing' !! t' = builders ing !! t' →
  count pc' t' = count pc t' →
  into_table t' ex' = into_table t' ex →
  table_inv t' seen ex ing pc →
  table_inv t' (seen ++ [r]) ex' ing' pc'.
Proof.
  intros Hne Hb Hc He (b & H1 & H2 & H3 & H4 & H5 & H6).
  exists b. rewrite Hb, Hc, He, tuples_for_snoc, decide_False, app_nil_r by done.
  repeat split; assumption.
Qed.

Lemma flush_row_step seen ex ing pc r :
  flush_inv seen ex ing pc →
  ∃ new,
    calls (DB (flush_row fault r pc ing).1) = calls (DB ing) ++ (INSERT <$> new) ∧
    rowsToInsert (flush_row fault r pc ing).1 = rowsToInsert ing ∧
    Forall full_statement new ∧
    match (flush_row fault r pc ing).2 with
    | Ok pc' => flush_inv (seen ++ [r]) (ex ++ new) (flush_row fault r pc ing).1 pc'
    | Err _ => True
    | Panic _ => False
    end.
Proof.
  intros (Htab & Hkeys & Hex). rewrite flush_row_eq. cbv zeta.
  pose proof (GetTableName_row_tables r) as Ht.
  destruct (Htab _ Ht) as (b & Hb & Hinto & Hcols & Hcount & Hle & Hcat).
  rewrite Hb. rewrite count_insert_eq.
  pose proof (params_len_bounds r) as Hlen.
  pose proof (bound_params_nonneg b) as Hnn.
  assert (int_add (count pc (GetTableName r)) (len (GetParams r)) =
          (count pc (GetTableName r) + len (GetParams r))%Z) as ->.
  { unfold int_add. apply to_int64_small. lia. }
  set (t := GetTableName r) in *.
  set (b' := Values (GetParams r) b).
  assert (bound_params b' = (count pc t + len (GetParams r))%Z) as Hb'.
  { unfold b'. rewrite bound_params_Values. lia. }
  case_bool_decide as Hfull.
  - assert (full_statement b') as Hfs.
    { split; [by rewrite <- Hinto in Ht|]. lia. }
    destruct (db_Exec_cases fault b' (DB ing)) as [(msg & _ & ->)|(s' & _ & -> & Hc & _)].
    + exists [b']. simpl. split; [done|]. split; [done|]. split; [|done].
      by constructor.
    + rewrite createInsertBuilderByTableName_spec by done.
      exists [b']. simpl. split; [done|]. split; [done|].
      split; [by constructor|].
      split; [|split].
      * intros t' Ht'. destruct (decide (t = t')) as [<-|Hne].
        -- exists (fresh_builder t). simpl.
           destruct (fresh_builder_empty t Ht) as [Hfi Hfv].
           rewrite lookup_insert_eq, count_insert_eq.
           split; [done|]. split; [done|]. split; [done|].
           split; [unfold bound_params; by rewrite Hfv|]. split; [lia|].
           rewrite Hfv, app_nil_r, into_table_snoc, decide_True by done.
           rewrite fmap_app, concat_app, tuples_for_snoc, decide_True by done.
           simpl. rewrite app_nil_r. unfold b', Values. simpl.
           by rewrite app_assoc, Hcat.
        -- eapply (table_inv_other t' seen ex ing pc r); [done| | | |by apply Htab].
           ++ simpl. by rewrite !lookup_insert_ne.
           ++ by rewrite !count_insert_ne.
           ++ rewrite into_table_snoc, decide_False, app_nil_r; [done|].
              unfold b'. simpl. congruence.
      * intros t' Hs. destruct (decide (t = t')) as [<-|Hne]; [done|].
        apply Hkeys. by rewrite !lookup_insert_ne in Hs.
      * apply Forall_app. split; [done|]. by constructor.
  - exists []. simpl. rewrite !app_nil_r. split; [done|]. split; [done|].
    split; [constructor|].
    split; [|split; [|done]].
    * intros t' Ht'. destruct (decide (t = t')) as [<-|Hne].
      -- exists b'. simpl. rewrite lookup_insert_eq, count_insert_eq.
         split; [done|]. split; [done|]. split; [done|].
         split; [lia|]. split; [lia|].
         rewrite tuples_for_snoc, decide_True by done.
         unfold b', Values. simpl. by rewrite app_assoc, Hcat.
      -- eapply (table_inv_other t' seen ex ing pc r); [done| | | |by apply Htab].
         ++ simpl. by rewrite lookup_insert_ne.
         ++ by rewrite count_insert_ne.
         ++ done.
    * intros t' Hs. destruct (decide (t = t')) as [<-|Hne]; [done|].
      apply Hkeys. by rewrite lookup_insert_ne in Hs.
Qed.

(** The first loop, from any state of the invariant. *)
Lemma flush_rows_inv rows seen ex ing pc :
  flush_inv seen ex ing pc →
  ∃ new,
    calls (DB (for_range rows (flush_row fault) pc ing).1) =
      calls (DB ing) ++ (INSERT <$> new) ∧
    rowsToInsert (for_range rows (flush_row fault) pc ing).1 = rowsToInsert ing ∧
    Forall full_statement new ∧
    match (for_range rows (flush_row fault) pc ing).2 with
    | Ok pc' =>
        flush_inv (seen ++ rows) (ex ++ new)
          (for_range rows (flush_row fault) pc ing).1 pc'
    | Err _ => True
    | Panic _ => False
    end.
Proof.
  revert seen ex ing pc. induction rows as [|r rows IH]; intros seen ex ing pc Hinv.
  - exists []. simpl. rewrite !app_nil_r. done.
  - simpl for_range. unfold bind.
    destruct (flush_row_step seen ex ing pc r Hinv) as (new1 & Hc1 & Hr1 & Hf1 & Hres1).
    destruct (flush_row fault r pc ing) as [ing1 [pc1|e|msg]]; simpl in *;
      [|by exists new1|done].
    destruct (IH _ _ _ _ Hres1) as (new2 & Hc2 & Hr2 & Hf2 & Hres2).
    exists (new1 ++ new2). rewrite Hc2, Hc1, Hr2, Hr1, fmap_app, <- app_assoc.
    split; [done|]. split; [done|]. split; [by apply Forall_app|].
    destruct (for_range rows (flush_row fault) pc1 ing1).2; [|done|done].
    rewrite <- !app_assoc in Hres2. exact Hres2.
Qed.

End Chunking.

Lemma into_table_nil t bs : (∀ x, x ∈ bs → into x ≠ t) → into_table t bs = [].
Proof.
  intros H. unfold into_table. induction bs as [|b bs IH]; [done|].
  rewrite filter_cons. rewrite decide_False.
  - apply IH. intros x Hx. apply H. apply elem_of_cons. by right.
  - apply H. apply elem_of_cons. by left.
Qed.

Lemma rewritten_row_same ids r :
  GetTableName (row_UpdateAccountIDs ids r) = GetTableName r ∧
  length (GetParams (row_UpdateAccountIDs ids r)) = length (GetParams r).
Proof. by destruct r. Qed.

Lemma tuples_len_rewritten ids t rows :
  len (concat (tuples_for t (map (row_UpdateAccountIDs ids) rows))) =
  len (concat (tuples_for t rows)).
Proof.
  unfold tuples_for, rows_for. induction rows as [|r rows IH]; [done|].
  destruct (rewritten_row_same ids r) as [Ht Hl].
  simpl map. rewrite !filter_cons, Ht. case_decide; [|done].
  rewrite !fmap_cons. simpl concat. rewrite !len_app, IH. unfold len. by rewrite Hl.
Qed.

Lemma rows_for_rewritten ids t rows :
  rows_for t (map (row_UpdateAccountIDs ids) rows) =
  map (row_UpdateAccountIDs ids) (rows_for t rows).
Proof.
  unfold rows_for. induction rows as [|r rows IH]; [done|].
  destruct (rewritten_row_same ids r) as [Ht _].
  simpl map. rewrite !filter_cons, Ht. case_decide; [|done].
  simpl map. by rewrite IH.
Qed.

Lemma resolved_tuples_eq ids t rows :
  tuples_for t (map (row_UpdateAccountIDs ids) rows) = resolved_tuples ids t rows.
Proof. unfold tuples_for, resolved_tuples. by rewrite rows_for_rewritten. Qed.

Lemma resolved_tuples_length ids t rows :
  length (resolved_tuples ids t rows) = length (rows_for t rows).
Proof. unfold resolved_tuples. by rewrite !length_fmap. Qed.

Lemma tuples_total_bound t rows :
  (len (concat (tuples_for t rows)) ≤ 18 * len rows)%Z.
Proof.
  unfold tuples_for, rows_for. induction rows as [|r rows IH]; [done|].
  rewrite filter_cons. pose proof (params_len_bounds r) as Hr.
  assert (len (r :: rows) = (1 + len rows)%Z) as -> by (unfold len; simpl length; lia).
  case_decide; [|lia]. rewrite fmap_cons. simpl concat. rewrite len_app. lia.
Qed.

Section Chunks.

Context (fault : list Call → Call → option string).
Context {map_range : MapRange}.

(** The second loop executes the pending statements in order, up to the
    first failure. *)
Lemma flush_rest_loop es ing :
  ∃ k,
    calls (DB (for_range es (flush_rest fault) tt ing).1) =
      calls (DB ing) ++ (INSERT <$> take k (pending es ing)) ∧
    ((for_range es (flush_rest fault) tt ing).2 = Ok tt →
       k = length (pending es ing)).
Proof.
  revert ing. induction es as [|[t c] es IH]; intros ing.
  - exists 0. simpl. by rewrite app_nil_r.
  - rewrite for_range_cons, flush_rest_eq. unfold pending.
    rewrite filter_cons. simpl. case_bool_decide as Hc.
    + rewrite decide_True by done.
      destruct (db_Exec_cases fault (builder t ing) (DB ing))
        as [(msg & _ & ->)|(s' & _ & -> & Hs & _)].
      * exists 1. simpl. done.
      * destruct (IH (set_DB s' ing)) as (k & Hk & Hok).
        exists (S k). simpl in *. unfold pending in Hk, Hok. simpl in Hk, Hok.
        split; [by rewrite Hk, Hs, <- app_assoc|].
        intros H. by rewrite Hok.
    + rewrite decide_False by done. destruct (IH ing) as (k & Hk & Hok).
      exists k. done.
Qed.

Lemma pending_cons t c es ing :
  pending ((t, c) :: es) ing =
  (if decide (0 < c)%Z then [builder t ing] else []) ++ pending es ing.
Proof. unfold pending. rewrite filter_cons. simpl. by case_decide. Qed.

Lemma into_table_pending t es ing pc :
  NoDup es.*1 →
  (∀ t c, (t, c) ∈ es → pc !! t = Some c ∧ into (builder t ing) = t) →
  into_table t (pending es ing) =
    if decide (t ∈ es.*1 ∧ (0 < count pc t)%Z) then [builder t ing] else [].
Proof.
  induction es as [|[t' c] es IH]; intros Hnd Hes.
  - rewrite decide_False; [done|]. intros [H _]. by apply elem_of_nil in H.
  - rewrite fmap_cons in Hnd. apply NoDup_cons in Hnd as [Hnotin Hnd]. simpl in Hnotin.
    destruct (Hes t' c) as [Hpc Hinto]; [apply elem_of_cons; by left|].
    assert (count pc t' = c) as Hcount by (unfold count; by rewrite Hpc).
    rewrite pending_cons, into_table_app, IH;
      [|done|intros t0 c0 H0; apply Hes; apply elem_of_cons; by right].
    rewrite fmap_cons. simpl fst. unfold into_table at 1.
    destruct (decide (t = t')) as [->|Hne]; destruct (decide (0 < c)%Z) as [Hc|Hc].
    + rewrite filter_cons, filter_nil, decide_True by done.
      rewrite decide_False by (by intros [? _]).
      rewrite decide_True; [done|]. split; [apply elem_of_cons; by left|lia].
    + rewrite filter_nil. rewrite decide_False by (by intros [? _]).
      rewrite decide_False; [done|]. intros [_ ?]. lia.
    + rewrite filter_cons, filter_nil, decide_False by congruence.
      apply decide_ext. rewrite elem_of_cons. split; [intros [? ?]; eauto|].
      intros [[?|?] ?]; done.
    + rewrite filter_nil.
      apply decide_ext. rewrite elem_of_cons. split; [intros [? ?]; eauto|].
      intros [[?|?] ?]; done.
Qed.

End Chunks.

Section Inserts.

Context (fault : list Call → Call → option string).
Context {map_range : MapRange}.

Lemma table_inv_statement t seen ex ing pc b :
  builders ing !! t = Some b → table_inv t seen ex ing pc →
  builder t ing = b ∧ b = statement t (values b) ∧
  Forall (λ vs, vs ≠ []) (values b).
Proof.
  intros Hb (b' & Hb' & Hinto & Hcols & _ & _ & Hcat).
  rewrite Hb in Hb'. injection Hb' as <-.
  split; [unfold builder; by rewrite Hb|]. split.
  - unfold statement. destruct b. simpl in *. by subst.
  - pose proof (tuples_nonempty t seen) as Hn. rewrite <- Hcat in Hn.
    by apply Forall_app in Hn as [_ ?].
Qed.

Lemma range_keys_positive (pc : gmap string Z) t :
  t ∈ (range pc).*1 ∧ (0 < count pc t)%Z ↔ (0 < count pc t)%Z.
Proof.
  split; [by intros [_ ?]|]. intros Hpos. split; [|done].
  unfold count in Hpos. destruct (pc !! t) as [c|] eqn:E; [|simpl in Hpos; lia].
  apply list_elem_of_fmap. exists (t, c). split; [done|]. by apply elem_of_range.
Qed.

Lemma full_statement_too_big t new tuples rest :
  Forall full_statement new →
  concat (values <$> into_table t new) ++ rest = tuples →
  (len (concat tuples) ≤ 65000)%Z →
  into_table t new = [].
Proof.
  intros Hf Hcat Htotal.
  destruct (into_table t new) as [|x xs] eqn:E; [done|]. exfalso.
  assert (x ∈ new) as Hx.
  { assert (x ∈ into_table t new) as H by (rewrite E; apply elem_of_cons; by left).
    unfold into_table in H. by apply list_elem_of_filter in H as [_ ?]. }
  rewrite Forall_forall in Hf. destruct (Hf x Hx) as [_ Hbig].
  rewrite <- Hcat in Htotal. rewrite fmap_cons in Htotal. simpl concat in Htotal.
  rewrite !concat_app, !len_app in Htotal. unfold bound_params in Hbig.
  pose proof (len_nonneg (concat (concat (values <$> xs)))).
  pose proof (len_nonneg (concat rest)). lia.
Qed.

(** The two loops, from the builders [Start] installs. *)
Lemma flush_inserts_spec ing :
  builders ing = fresh_builders →
  ∃ new,
    calls (DB (flush_inserts fault ing).1) = calls (DB ing) ++ (INSERT <$> new) ∧
    Forall (λ x, (bound_params x ≤ 65535)%Z) new ∧
    ((flush_inserts fault ing).2 = Ok tt →
       ∀ t,
         concat (values <$> into_table t new) = tuples_for t (rowsToInsert ing) ∧
         ((len (concat (tuples_for t (rowsToInsert ing))) ≤ 65000)%Z →
          into_table t new =
            match tuples_for t (rowsToInsert ing) with
            | [] => []
            | tuples => [statement t tuples]
            end)).
Proof.
  intros Hb. apply flush_inv_start in Hb.
  unfold flush_inserts, bind at 1, get. unfold bind.
  destruct (flush_rows_inv fault (rowsToInsert ing) [] [] ing ∅ Hb)
    as (new1 & Hc1 & Hr1 & Hf1 & Hres1). clear Hb.
  destruct (for_range (rowsToInsert ing) (flush_row fault) ∅ ing)
    as [ing1 [pc|e|msg]]; simpl in Hc1, Hr1, Hres1; cbn [fst snd]; [| |done].
  2: { exists new1. split; [done|]. split; [|done].
       eapply Forall_impl; [exact Hf1|]. intros x [_ ?]. lia. }
  destruct Hres1 as (Htab & Hkeys & _).
  destruct (flush_rest_loop fault (range pc) ing1) as (k & Hk & Hok).
  assert (∀ x, x ∈ pending (range pc) ing1 →
            ∃ t, t ∈ row_tables ∧ into x = t ∧ (bound_params x ≤ 65000)%Z) as Hpend.
  { unfold pending. intros x Hx. apply list_elem_of_fmap in Hx as ([t c] & -> & He).
    apply list_elem_of_filter in He as [_ He]. apply elem_of_range in He. simpl.
    assert (t ∈ row_tables) as Ht by (apply Hkeys; eauto).
    destruct (Htab t Ht) as (b & Hb1 & Hb2 & Hb3 & Hb4 & Hb5 & Hb6).
    exists t. unfold builder. rewrite Hb1. simpl. split; [done|]. split; [done|]. lia. }
  exists (new1 ++ take k (pending (range pc) ing1)).
  split; [by rewrite Hk, Hc1, fmap_app, app_assoc|].
  split.
  { apply Forall_app. split.
    - eapply Forall_impl; [exact Hf1|]. intros x [_ ?]. lia.
    - apply Forall_forall. intros x Hx. apply subseteq_take in Hx.
      destruct (Hpend x Hx) as (t & _ & _ & ?). lia. }
  intros Hres. rewrite (Hok Hres), take_ge by done. clear Hk Hok.
  intros t. destruct (decide (t ∈ row_tables)) as [Ht|Ht].
  - pose proof (Htab t Ht) as Hinv.
    destruct (Htab t Ht) as (b & Hb1 & Hinto & Hcols & Hcount & Hle & Hcat).
    destruct (table_inv_statement t _ _ _ _ b Hb1 Hinv) as (Hbuilder & Hstmt & Hne).
    rewrite into_table_app.
    rewrite (into_table_pending t (range pc) ing1 pc); [|apply NoDup_range_keys|].
    2: { intros t0 c0 H0. apply elem_of_range in H0. split; [done|].
         assert (t0 ∈ row_tables) as Ht0 by (apply Hkeys; eauto).
         destruct (Htab t0 Ht0) as (b0 & Hb0 & Hinto0 & _).
         unfold builder. by rewrite Hb0. }
    rewrite (decide_ext _ _ _ _ (range_keys_positive pc t)), Hbuilder.
    split.
    + rewrite fmap_app, concat_app. case_decide as Hpos.
      * simpl. by rewrite app_nil_r.
      * assert (values b = []) as Hnil.
        { apply bound_params_zero; [done|]. pose proof (bound_params_nonneg b). lia. }
        rewrite Hnil in Hcat. simpl. by rewrite app_nil_r in Hcat |- *.
    + intros Htotal.
      rewrite (full_statement_too_big t new1 _ (values b) Hf1 Hcat Htotal) in Hcat |- *.
      simpl in Hcat |- *. rewrite <- Hcat.
      destruct (values b) as [|v vs] eqn:Ev.
      * rewrite decide_False; [done|]. rewrite Hcount. unfold bound_params.
        rewrite Ev. unfold len. simpl. lia.
      * rewrite decide_True; [by rewrite <- Hstmt|].
        rewrite Hcount. unfold bound_params. rewrite Ev.
        apply Forall_cons in Hne as [Hv _]. simpl. rewrite len_app.
        pose proof (len_nonneg (concat vs)). destruct v; [done|].
        unfold len at 1. simpl. lia.
  - rewrite (tuples_for_row_tables t _ Ht). rewrite into_table_nil; [done|].
    intros x Hx. apply elem_of_app in Hx as [Hx|Hx].
    + rewrite Forall_forall in Hf1. destruct (Hf1 x Hx) as [Hin _].
      intros E. by rewrite E in Hin.
    + destruct (Hpend x Hx) as (t0 & Ht0 & Hinto & _). intros E. congruence.
Qed.

End Inserts.

Section FlushTheorems.

Context (fault : list Call → Call → option string).
Context {map_range : MapRange}.

(** What [UpdateAccountIDs] leaves alone: builders and row count; its calls
    to the store execute no statement. *)
Lemma UpdateAccountIDs_frame ing :
  builders (UpdateAccountIDs fault ing).1 = builders ing ∧
  ∃ new,
    calls (DB (UpdateAccountIDs fault ing).1) = calls (DB ing) ++ new ∧
    statements new = [] ∧
    ((UpdateAccountIDs fault ing).2 = Ok tt →
       ∃ ids, rowsToInsert (UpdateAccountIDs fault ing).1 =
              map (row_UpdateAccountIDs ids) (rowsToInsert ing)).
Proof.
  rewrite UpdateAccountIDs_eq. cbv zeta.
  destruct (collect_addresses_spec (rowsToInsert ing)) as [_ Hl].
  case_bool_decide as Hlen.
  { split; [done|]. exists []. rewrite app_nil_r. split; [done|]. split; [done|].
    intros _. exists ∅. simpl. rewrite no_address_rows_unchanged; [done|].
    apply len_zero_inv in Hlen. apply elem_of_nil_inv. intros x Hx.
    apply Hl in Hx. rewrite Hlen in Hx. by apply elem_of_nil in Hx. }
  unfold q_AccountsByAddresses.
  match goal with |- context [call fault ?c ?run (DB ing)] =>
    destruct (call_cases fault c run (DB ing)) as [(msg & _ & ->)|[_ ->]] end.
  { split; [done|]. eexists [_]. split; [done|]. split; [done|]. by intros [=]. }
  cbn [fst snd]. case_bool_decide as Hnew.
  - unfold q_CreateAccounts.
    match goal with |- context [call fault ?c ?run ?s] =>
      destruct (call_cases fault c run s) as [(msg & _ & ->)|[_ ->]] end.
    + split; [done|]. eexists [_; _]. simpl. rewrite <- app_assoc.
      split; [done|]. split; [done|]. by intros [=].
    + split; [done|]. eexists [_; _]. simpl. rewrite <- app_assoc.
      split; [done|]. split; [done|]. intros _. eauto.
  - split; [done|]. eexists [_]. split; [done|]. split; [done|]. intros _. eauto.
Qed.

(** The calls of a [Flush] that starts from fresh builders: those of the
    account resolution, the statements, then commit and begin. *)
Lemma Flush_calls ing :
  builders ing = fresh_builders →
  ∃ newU newI rest,
    calls (DB (Flush fault ing).1) =
      calls (DB ing) ++ newU ++ (INSERT <$> newI) ++ rest ∧
    statements newU = [] ∧ statements rest = [] ∧
    Forall (λ x, (bound_params x ≤ 65535)%Z) newI.
Proof.
  intros Hb. unfold Flush. unfold bind at 1, wrap.
  destruct (UpdateAccountIDs_frame ing) as (HbU & newU & HcU & HsU & _).
  rewrite <- HbU in Hb. clear HbU.
  destruct (UpdateAccountIDs fault ing) as [i1 [[]|e|msg]]; cbn [fst snd] in *.
  2,3: (exists newU, [], []; rewrite !app_nil_r; repeat split; try done; constructor).
  unfold bind at 1.
  destruct (flush_inserts_spec fault i1 Hb) as (newI & HcI & HfI & _). clear Hb.
  destruct (flush_inserts fault i1) as [i2 [[]|e|msg]]; cbn [fst snd] in *.
  2,3: (exists newU, newI, []; rewrite HcI, HcU, !app_nil_r, <- !app_assoc; done).
  unfold bind at 1.
  destruct (commit_cases fault i2) as [(msg & _ & ->)|[_ ->]].
  - exists newU, newI, [COMMIT]. simpl. rewrite HcI, HcU, <- !app_assoc. done.
  - destruct (Start_cases fault (set_DB (log COMMIT (DB i2)) i2))
      as [(msg & _ & ->)|[_ ->]];
      exists newU, newI, [COMMIT; BEGIN]; simpl; rewrite HcI, HcU, <- !app_assoc; done.
Qed.

(** The statements of a successful [Flush] that starts from fresh builders. *)
Lemma Flush_Ok_statements ing ing' :
  builders ing = fresh_builders →
  Flush fault ing = (ing', Ok tt) →
  ∃ mid ids newI,
    UpdateAccountIDs fault ing = (mid, Ok tt) ∧
    rowsToInsert mid = map (row_UpdateAccountIDs ids) (rowsToInsert ing) ∧
    calls (DB ing') = calls (DB mid) ++ (INSERT <$> newI) ++ [COMMIT; BEGIN] ∧
    ∀ t,
      concat (values <$> into_table t newI) = tuples_for t (rowsToInsert mid) ∧
      ((len (concat (tuples_for t (rowsToInsert mid))) ≤ 65000)%Z →
       into_table t newI =
         match tuples_for t (rowsToInsert mid) with
         | [] => []
         | tuples => [statement t tuples]
         end).
Proof.
  intros Hb H. apply Flush_Ok_inv in H as (i1 & i2 & HU & HI & _ & _ & HS).
  destruct (UpdateAccountIDs_frame ing) as (HbU & _ & _ & _ & Hrows).
  rewrite HU in HbU, Hrows. cbn [fst snd] in *.
  destruct (Hrows eq_refl) as [ids Hids].
  rewrite <- HbU in Hb. clear HbU.
  destruct (flush_inserts_spec fault i1 Hb) as (newI & HcI & _ & Hok). clear Hb.
  rewrite HI in HcI, Hok. cbn [fst snd] in *.
  apply Start_Ok_inv in HS as [_ ->].
  exists i1, ids, newI. split; [done|]. split; [done|].
  split; [simpl; by rewrite HcI, <- !app_assoc|].
  by apply Hok.
Qed.

Lemma statements_of_Flush newI : statements ((INSERT <$> newI) ++ [COMMIT; BEGIN]) = newI.
Proof. rewrite statements_app, statements_INSERT. simpl. by rewrite app_nil_r. Qed.

Lemma Flush_Ok_chunks ing ing' :
  builders ing = fresh_builders →
  Flush fault ing = (ing', Ok tt) →
  ∃ mid ids newU newI,
    UpdateAccountIDs fault ing = (mid, Ok tt) ∧
    rowsToInsert mid = map (row_UpdateAccountIDs ids) (rowsToInsert ing) ∧
    calls (DB mid) = calls (DB ing) ++ newU ∧ statements newU = [] ∧
    calls (DB ing') = calls (DB mid) ++ (INSERT <$> newI) ++ [COMMIT; BEGIN] ∧
    Forall (λ b, (bound_params b ≤ 65535)%Z) newI ∧
    ∀ t,
      concat (values <$> into_table t newI) = resolved_tuples ids t (rowsToInsert ing) ∧
      ((len (concat (tuples_for t (rowsToInsert ing))) ≤ 65000)%Z →
       into_table t newI =
         match resolved_tuples ids t (rowsToInsert ing) with
         | [] => []
         | tuples => [statement t tuples]
         end).
Proof.
  intros Hb H. apply Flush_Ok_inv in H as (i1 & i2 & HU & HI & _ & _ & HS).
  destruct (UpdateAccountIDs_frame ing) as (HbU & newU & HcU & HsU & Hrows).
  rewrite HU in HbU, HcU, Hrows. cbn [fst snd] in *.
  destruct (Hrows eq_refl) as [ids Hids].
  rewrite <- HbU in Hb. clear HbU.
  destruct (flush_inserts_spec fault i1 Hb) as (newI & HcI & HfI & Hok). clear Hb.
  rewrite HI in HcI, Hok. cbn [fst snd] in *.
  apply Start_Ok_inv in HS as [_ ->].
  exists i1, ids, newU, newI. do 4 (split; [done|]).
  split; [simpl; by rewrite HcI, <- !app_assoc|]. split; [done|].
  intros t. destruct (Hok eq_refl t) as [H1 H2].
  rewrite Hids in H1, H2. rewrite tuples_len_rewritten in H2.
  rewrite resolved_tuples_eq in H1, H2. done.
Qed.

Lemma Flush_Ok_new newU newI :
  statements newU = [] →
  statements (newU ++ (INSERT <$> newI) ++ [COMMIT; BEGIN]) = newI.
Proof. intros H. by rewrite statements_app, H, statements_of_Flush. Qed.

(** C1. In the first loop of [Flush], a row whose tuple takes the table's
    running count above 65000 has the table's statement, that tuple
    included, executed on the spot; if the store accepts it, the count of
    the table is back to zero and its builder is a fresh, empty statement.
    Hence, from the builders [Start] installs, no statement [Flush] executes
    binds more than 65535 parameters, and when [Flush] succeeds the tuples
    of the statements executed into a table, in the order of execution, are
    the tuples of the rows that were buffered for that table when [Flush]
    was called, in the order of the buffer and with the account identifiers
    the resolution gave them: none missing, none twice. *)
Theorem Flush_chunks_statements :
  (∀ ing r pc b,
     builders ing !! GetTableName r = Some b →
     (65000 < int_add (count pc (GetTableName r)) (len (GetParams r)))%Z →
     calls (DB (flush_row fault r pc ing).1) =
       calls (DB ing) ++ [INSERT (Values (GetParams r) b)] ∧
     (fault (calls (DB ing)) (INSERT (Values (GetParams r) b)) = None →
        ∃ pc', (flush_row fault r pc ing).2 = Ok pc' ∧
          count pc' (GetTableName r) = 0%Z ∧
          builders (flush_row fault r pc ing).1 !! GetTableName r =
            Some (statement (GetTableName r) []))) ∧
  (∀ ing, builders ing = fresh_builders →
     ∃ new, calls (DB (Flush fault ing).1) = calls (DB ing) ++ new ∧
       Forall (λ b, (bound_params b ≤ 65535)%Z) (statements new)) ∧
  (∀ ing ing', builders ing = fresh_builders → Flush fault ing = (ing', Ok tt) →
     ∃ mid ids new,
       UpdateAccountIDs fault ing = (mid, Ok tt) ∧
       rowsToInsert mid = map (row_UpdateAccountIDs ids) (rowsToInsert ing) ∧
       calls (DB ing') = calls (DB ing) ++ new ∧
       Forall (λ b, (bound_params b ≤ 65535)%Z) (statements new) ∧
       ∀ t,
         concat (values <$> statements_for t new) =
           resolved_tuples ids t (rowsToInsert ing) ∧
         length (concat (values <$> statements_for t new)) =
           length (rows_for t (rowsToInsert ing))).
Proof.
  split; [|split].
  - intros ing r pc b Hb Hfull. rewrite flush_row_eq. cbv zeta. rewrite Hb.
    rewrite count_insert_eq. rewrite bool_decide_eq_true_2 by done.
    pose proof (GetTableName_row_tables r) as Ht.
    destruct (db_Exec_cases fault (Values (GetParams r) b) (DB ing))
      as [(msg & Hf & ->)|(s' & _ & -> & Hc & _)].
    + split; [done|]. intros Hnone. by rewrite Hnone in Hf.
    + rewrite createInsertBuilderByTableName_spec by done. split; [done|].
      intros _. eexists. split; [done|]. rewrite count_insert_eq. split; [done|].
      simpl. rewrite lookup_insert_eq. f_equal.
      destruct (fresh_builder_empty _ Ht) as [Hinto Hvalues]. unfold statement.
      destruct (fresh_builder (GetTableName r)). simpl in *. by subst.
  - intros ing Hb.
    destruct (Flush_calls ing Hb) as (newU & newI & rest & Hc & HsU & Hsr & Hf).
    exists (newU ++ (INSERT <$> newI) ++ rest). split; [done|].
    by rewrite !statements_app, HsU, Hsr, statements_INSERT, app_nil_r.
  - intros ing ing' Hb H.
    destruct (Flush_Ok_chunks ing ing' Hb H)
      as (mid & ids & newU & newI & HU & Hids & HcU & HsU & Hc & Hf & Hok).
    exists mid, ids, (newU ++ (INSERT <$> newI) ++ [COMMIT; BEGIN]).
    split; [done|]. split; [done|].
    split; [by rewrite Hc, HcU, <- app_assoc|].
    unfold statements_for. rewrite (Flush_Ok_new _ _ HsU). split; [done|].
    intros t. destruct (Hok t) as [-> _]. split; [done|].
    apply resolved_tuples_length.
Qed.

(** C2. When the tuples buffered for each table hold at most 65000
    parameters, a successful [Flush] (from the builders [Start] installs)
    executes, for every table that had a row in the buffer when [Flush] was
    called, exactly one statement, made of the table's columns and of the
    tuples of all its rows, each once and in the order of the buffer, with
    the account identifiers the resolution gave them; it executes none for
    a table without rows. *)
Theorem Flush_one_statement_per_table ing ing' :
  builders ing = fresh_builders →
  (∀ t, (len (concat (tuples_for t (rowsToInsert ing))) ≤ 65000)%Z) →
  Flush fault ing = (ing', Ok tt) →
  ∃ mid ids new,
    UpdateAccountIDs fault ing = (mid, Ok tt) ∧
    rowsToInsert mid = map (row_UpdateAccountIDs ids) (rowsToInsert ing) ∧
    calls (DB ing') = calls (DB ing) ++ new ∧
    ∀ t, statements_for t new =
      match rows_for t (rowsToInsert ing) with
      | [] => []
      | _ => [statement t (resolved_tuples ids t (rowsToInsert ing))]
      end.
Proof.
  intros Hb Hsmall H.
  destruct (Flush_Ok_chunks ing ing' Hb H)
    as (mid & ids & newU & newI & HU & Hids & HcU & HsU & Hc & _ & Hok).
  exists mid, ids, (newU ++ (INSERT <$> newI) ++ [COMMIT; BEGIN]).
  split; [done|]. split; [done|].
  split; [by rewrite Hc, HcU, <- app_assoc|].
  intros t. unfold statements_for. rewrite (Flush_Ok_new _ _ HsU).
  destruct (Hok t) as [_ ->]; [|apply Hsmall].
  unfold resolved_tuples. by destruct (rows_for t (rowsToInsert ing)).
Qed.

End FlushTheorems.

(** * Further properties *)

(** * Further properties *)

(** ** Conversions *)

Lemma to_int32_range z : (- 2 ^ 31 ≤ to_int32 z < 2 ^ 31)%Z.
Proof.
  unfold to_int32. pose proof (Z.mod_pos_bound (z + 2 ^ 31) (2 ^ 32)) as H. lia.
Qed.

Lemma to_int32_small z : (- 2 ^ 31 ≤ z < 2 ^ 31)%Z → to_int32 z = z.
Proof. intros H. unfold to_int32. rewrite Z.mod_small; lia. Qed.

Lemma to_int32_congruent z : ((to_int32 z - z) `mod` 2 ^ 32 = 0)%Z.
Proof.
  unfold to_int32.
  rewrite (Z.mod_eq (z + 2 ^ 31) (2 ^ 32)) by lia.
  replace (z + 2 ^ 31 - 2 ^ 32 * ((z + 2 ^ 31) `div` 2 ^ 32) - 2 ^ 31 - z)%Z
    with (- ((z + 2 ^ 31) `div` 2 ^ 32) * 2 ^ 32)%Z by lia.
  apply Z.mod_mul. lia.
Qed.

Lemma to_int32_unsigned z : (0 ≤ z < 2 ^ 32)%Z → to_int32 z = as_int32 z.
Proof.
  intros H. unfold as_int32. case_bool_decide.
  - apply to_int32_small. lia.
  - unfold to_int32.
    replace (z + 2 ^ 31)%Z with ((z - 2 ^ 31) + 1 * 2 ^ 32)%Z by lia.
    rewrite Z.mod_add by lia. rewrite Z.mod_small; lia.
Qed.

Section MoreEmitters.

Context (fault : list Call → Call → option string).

Lemma GetCreateAssetID_cases a s :
  (∃ msg, fault (calls s) (GET_CREATE_ASSET a) = Some msg ∧
     q_GetCreateAssetID fault a s =
       (log (GET_CREATE_ASSET a) s, Err (StoreError msg))) ∨
  (∃ s' id, fault (calls s) (GET_CREATE_ASSET a) = None ∧
     q_GetCreateAssetID fault a s = (s', Ok id) ∧
     calls s' = calls s ++ [GET_CREATE_ASSET a]).
Proof.
  unfold q_GetCreateAssetID.
  match goal with |- context [call fault ?c ?run s] =>
    destruct (call_cases fault c run s) as [(msg & Hf & ->)|[Hf ->]] end.
  - left. eauto.
  - right. do 2 eexists. split; [done|]. split; [reflexivity|].
    by destruct (asset_lookup a (log (GET_CREATE_ASSET a) s)).
Qed.

(** X1. [Ledger] always succeeds and appends exactly one ledger row.  The row
    carries the importer version 11; its previous hash is the header's when
    the sequence is above 1 and NULL otherwise; its transaction and operation
    counts are the [int32] truncations of the arguments (in range, congruent
    modulo 2^32, equal when the argument fits); a base fee, base reserve,
    maximal set size or protocol version of 2^31 or more is stored as the
    negative number 2^32 below it. *)
Theorem Ledger_row id header txs ops now1 now2 ing :
  ∃ r,
    Ledger id header txs ops now1 now2 ing =
      (set_rowsToInsert (rowsToInsert ing ++ [Ledger_ r]) ing, Ok tt) ∧
    ledgerRow.ImporterVersion r = 11%Z ∧
    null.value (ledgerRow.PreviousLedgerHash r) =
      (if bool_decide (1 < core.Sequence header)%Z
       then VString (core.PrevHash header) else VNull) ∧
    (- 2 ^ 31 ≤ ledgerRow.TransactionCount r < 2 ^ 31)%Z ∧
    ((ledgerRow.TransactionCount r - txs) `mod` 2 ^ 32 = 0)%Z ∧
    ((- 2 ^ 31 ≤ txs < 2 ^ 31)%Z → ledgerRow.TransactionCount r = txs) ∧
    (- 2 ^ 31 ≤ ledgerRow.OperationCount r < 2 ^ 31)%Z ∧
    ((ledgerRow.OperationCount r - ops) `mod` 2 ^ 32 = 0)%Z ∧
    ((- 2 ^ 31 ≤ ops < 2 ^ 31)%Z → ledgerRow.OperationCount r = ops) ∧
    (Forall (λ z, 0 ≤ z < 2 ^ 32)%Z
       [ xdr.BaseFee (core.Data header); xdr.BaseReserve (core.Data header);
         xdr.MaxTxSetSize (core.Data header); xdr.LedgerVersion (core.Data header) ] →
     ledgerRow.BaseFee r = as_int32 (xdr.BaseFee (core.Data header)) ∧
     ledgerRow.BaseReserve r = as_int32 (xdr.BaseReserve (core.Data header)) ∧
     ledgerRow.MaxTxSetSize r = as_int32 (xdr.MaxTxSetSize (core.Data header)) ∧
     ledgerRow.ProtocolVersion r = as_int32 (xdr.LedgerVersion (core.Data header))).
Proof.
  eexists. split; [reflexivity|]. cbn -[to_int32 Z.pow].
  split; [done|]. split; [by case_bool_decide|].
  split; [apply to_int32_range|]. split; [apply to_int32_congruent|].
  split; [apply to_int32_small|].
  split; [apply to_int32_range|]. split; [apply to_int32_congruent|].
  split; [apply to_int32_small|].
  intros H. repeat (apply Forall_cons in H as [? H]).
  repeat split; by apply to_int32_unsigned.
Qed.

(** X2. [OperationParticipants] and [TransactionParticipants] never fail and
    never call the store: they append one row per account, in the order
    given, each with the identifier passed and an account identifier still
    0, so that the addresses left to resolve are those of the accounts; with
    no account they leave the writer as it is. *)
Theorem participants_rows id aids ing :
  OperationParticipants id aids ing =
    (set_rowsToInsert (rowsToInsert ing ++ (operation_participant id <$> aids)) ing,
     Ok tt) ∧
  TransactionParticipants id aids ing =
    (set_rowsToInsert (rowsToInsert ing ++ (transaction_participant id <$> aids)) ing,
     Ok tt) ∧
  row_addresses (operation_participant id <$> aids) = xdr.Address <$> aids ∧
  row_addresses (transaction_participant id <$> aids) = xdr.Address <$> aids ∧
  (aids = [] →
     OperationParticipants id aids ing = (ing, Ok tt) ∧
     TransactionParticipants id aids ing = (ing, Ok tt)).
Proof.
  split; [apply for_range_append|]. split; [apply for_range_append|].
  split; [|split].
  - unfold row_addresses. induction aids as [|a aids IH]; [done|].
    rewrite !fmap_cons. simpl. f_equal. exact IH.
  - unfold row_addresses. induction aids as [|a aids IH]; [done|].
    rewrite !fmap_cons. simpl. f_equal. exact IH.
  - intros ->. by destruct ing.
Qed.

(** X3. [Trade] never panics, and fails only on a failure of one of its two
    asset lookups.  If the sold asset cannot be resolved, the error is the
    store's wrapped in "failed to get sold asset id" and the bought asset is
    not asked for; if the bought asset cannot, it is wrapped in "failed to
    get bought asset id".  In both cases no row is buffered.  On success
    exactly one trade row is. *)
Theorem Trade_outcomes opid order buyer trade ledgerClosedAt ing :
  let res := Trade fault opid order buyer trade ledgerClosedAt ing in
  let sold := GET_CREATE_ASSET (xdr.AssetSold trade) in
  let bought := GET_CREATE_ASSET (xdr.AssetBought trade) in
  match res.2 with
  | Ok _ =>
      (∃ r, rowsToInsert res.1 = rowsToInsert ing ++ [Trade_ r]) ∧
      calls (DB res.1) = calls (DB ing) ++ [sold; bought]
  | Err e =>
      rowsToInsert res.1 = rowsToInsert ing ∧
      ((∃ msg, fault (calls (DB ing)) sold = Some msg ∧
          e = Wrap (StoreError msg) "failed to get sold asset id" ∧
          calls (DB res.1) = calls (DB ing) ++ [sold]) ∨
       (∃ msg, fault (calls (DB ing)) sold = None ∧
          fault (calls (DB ing) ++ [sold]) bought = Some msg ∧
          e = Wrap (StoreError msg) "failed to get bought asset id" ∧
          calls (DB res.1) = calls (DB ing) ++ [sold; bought]))
  | Panic _ => False
  end.
Proof.
  cbv zeta. unfold Trade, bind, wrap, db.
  destruct (GetCreateAssetID_cases (xdr.AssetSold trade) (DB ing))
    as [(msg & Hf & ->)|(s1 & sold & Hf & -> & Hc1)].
  { cbn [fst snd]. split; [done|]. left. exists msg. done. }
  cbn [fst snd DB set_DB].
  destruct (GetCreateAssetID_cases (xdr.AssetBought trade) s1)
    as [(msg & Hf2 & ->)|(s2 & bought & Hf2 & -> & Hc2)]; cbn [fst snd].
  - rewrite Hc1 in Hf2. split; [done|]. right. exists msg.
    cbn. rewrite Hc1, <- app_assoc. done.
  - destruct (bool_decide (sold < bought)%Z); cbn; (split; [eauto|]);
      by rewrite Hc2, Hc1, <- app_assoc.
Qed.

(** X4. On a writer whose builders map has been made (it holds a builder;
    on the nil map of a writer never started the assignment panics in Go),
    [createInsertBuilderByTableName] succeeds on each of the seven table
    names of rows: it replaces the builder of that table by an empty
    statement into it and touches nothing else.  On any other name (that of
    [asset_stats] included) it panics with "Invalid table name", whatever
    the writer. *)
Theorem createInsertBuilderByTableName_total name ing :
  (builders ing ≠ ∅ → name ∈ row_tables →
     ∃ b, createInsertBuilderByTableName name ing =
            (set_builders (<[name := b]> (builders ing)) ing, Ok tt) ∧
          into b = name ∧ values b = [] ∧ columns b ≠ [] ∧ NoDup (columns b)) ∧
  (name ∉ row_tables →
     createInsertBuilderByTableName name ing = (ing, Panic "Invalid table name")).
Proof.
  split.
  - intros _ H. exists (fresh_builder name).
    split; [by apply createInsertBuilderByTableName_spec|].
    revert name H. apply row_tables_cases; repeat split; compute_done.
  - intros H. unfold createInsertBuilderByTableName.
    repeat (rewrite decide_False; [|intros ->; apply H; compute_done]). done.
Qed.

End MoreEmitters.

(** ** Account resolution, in every outcome *)

Lemma record_accounts_Some accts m a v :
  record_accounts accts m !! a = Some v →
  a ∈ history.Address <$> accts ∨ m !! a = Some v.
Proof.
  intros H. destruct (decide (a ∈ history.Address <$> accts)) as [?|Hn]; [by left|].
  right. by rewrite record_accounts_notin in H.
Qed.

Section MoreResolution.

Context (fault : list Call → Call → option string).
Context {map_range : MapRange}.

(** Every way [UpdateAccountIDs] can end. *)
Lemma UpdateAccountIDs_cases ing :
  let res := UpdateAccountIDs fault ing in
  let l := (collect_addresses (rowsToInsert ing)).2 in
  builders res.1 = builders ing ∧ assetStats res.1 = assetStats ing ∧
  tables (DB res.1) = tables (DB ing) ∧
  ∃ new,
    calls (DB res.1) = calls (DB ing) ++ new ∧ resolution_calls l new ∧
    match res.2 with
    | Ok _ =>
        ∃ ids, rowsToInsert res.1 = map (row_UpdateAccountIDs ids) (rowsToInsert ing)
    | Err e =>
        ∃ msg, e = StoreError msg ∧ rowsToInsert res.1 = rowsToInsert ing ∧
          accounts (DB res.1) = accounts (DB ing)
    | Panic _ => False
    end.
Proof.
  cbv zeta. rewrite UpdateAccountIDs_eq. cbv zeta.
  destruct (collect_addresses_spec (rowsToInsert ing)) as [[Hnd Hm] Hl].
  set (l := (collect_addresses (rowsToInsert ing)).2) in *.
  case_bool_decide as Hlen.
  { apply len_zero_inv in Hlen. repeat (split; [done|]).
    exists []. rewrite app_nil_r, Hlen. split; [done|]. split; [done|].
    exists ∅. simpl. rewrite no_address_rows_unchanged; [done|].
    apply elem_of_nil_inv. intros x Hx. apply Hl in Hx. rewrite Hlen in Hx.
    by apply elem_of_nil in Hx. }
  assert (l ≠ []) as Hne by (intros E; by rewrite E in Hlen).
  assert (∀ cs, (cs = [SELECT_ACCOUNTS l] ∨
                 ∃ u, cs = [SELECT_ACCOUNTS l; INSERT_ACCOUNTS u] ∧
                      u ≠ [] ∧ NoDup u ∧ ∀ a, a ∈ u → a ∈ l) →
                resolution_calls l cs) as Hres.
  { intros cs H. unfold resolution_calls. by destruct l. }
  unfold q_AccountsByAddresses.
  match goal with |- context [call fault ?c ?run (DB ing)] =>
    destruct (call_cases fault c run (DB ing)) as [(msg & _ & ->)|[_ ->]] end.
  { repeat (split; [done|]). eexists [_]. split; [done|].
    split; [apply Hres; by left|]. cbn [fst snd]. by exists msg. }
  cbn [fst snd].
  set (ids1 := record_accounts _ _).
  assert (∀ a, a ∈ unresolved ids1 → a ∈ l) as Hsub.
  { intros a Ha. apply elem_of_unresolved in Ha.
    apply record_accounts_Some in Ha as [Ha|Ha].
    - apply list_elem_of_fmap in Ha as (acct & -> & Hacct).
      by apply list_elem_of_filter in Hacct as [? _].
    - rewrite Hm in Ha. by case_decide. }
  case_bool_decide as Hnew.
  - assert (unresolved ids1 ≠ []) as Hu by (intros E; by rewrite E in Hnew).
    unfold q_CreateAccounts.
    match goal with |- context [call fault ?c ?run ?s] =>
      destruct (call_cases fault c run s) as [(msg & _ & ->)|[_ ->]] end.
    + repeat (split; [done|]). eexists [_; _]. simpl. rewrite <- app_assoc.
      split; [done|]. split; [|by exists msg].
      apply Hres. right. eexists. split; [done|].
      split; [done|]. split; [apply NoDup_unresolved|done].
    + repeat (split; [done|]). eexists [_; _]. simpl. rewrite <- app_assoc.
      split; [done|]. split; [|by eexists].
      apply Hres. right. eexists. split; [done|].
      split; [done|]. split; [apply NoDup_unresolved|done].
  - repeat (split; [done|]). eexists [_]. split; [done|].
    split; [apply Hres; by left|]. by eexists.
Qed.

(** X5. Whatever the number of rows, [UpdateAccountIDs] calls the store at
    most twice: not at all when no row references an address; otherwise one
    lookup of the referenced addresses, each listed once, followed by at most
    one creation, of addresses that are among those looked up, each listed
    once. *)
Theorem UpdateAccountIDs_round_trips ing :
  let l := (collect_addresses (rowsToInsert ing)).2 in
  NoDup l ∧ (∀ a, a ∈ l ↔ a ∈ row_addresses (rowsToInsert ing)) ∧
  ∃ new,
    calls (DB (UpdateAccountIDs fault ing).1) = calls (DB ing) ++ new ∧
    resolution_calls l new ∧ length new ≤ 2 ∧
    (row_addresses (rowsToInsert ing) = [] →
       UpdateAccountIDs fault ing = (ing, Ok tt)).
Proof.
  cbv zeta. destruct (collect_addresses_spec (rowsToInsert ing)) as [[Hnd _] Hl].
  split; [done|]. split; [done|].
  destruct (UpdateAccountIDs_cases ing) as (_ & _ & _ & new & Hc & Hr & _).
  exists new. split; [done|]. split; [done|]. split.
  - unfold resolution_calls in Hr.
    destruct ((collect_addresses (rowsToInsert ing)).2).
    + rewrite Hr. simpl. lia.
    + destruct Hr as [->|(u & -> & _)]; simpl; lia.
  - intros Hnone. rewrite UpdateAccountIDs_eq. cbv zeta.
    rewrite bool_decide_eq_true_2; [done|].
    assert ((collect_addresses (rowsToInsert ing)).2 = []) as ->; [|done].
    apply elem_of_nil_inv. intros x Hx. apply Hl in Hx. rewrite Hnone in Hx.
    by apply elem_of_nil in Hx.
Qed.

(** X6. When [UpdateAccountIDs] fails, its error is the store's, returned as
    it is, and the buffered rows, the builders and the account records are
    as before: no row is rewritten by a failed resolution. *)
Theorem UpdateAccountIDs_failure ing e :
  (UpdateAccountIDs fault ing).2 = Err e →
  (∃ msg, e = StoreError msg) ∧
  rowsToInsert (UpdateAccountIDs fault ing).1 = rowsToInsert ing ∧
  builders (UpdateAccountIDs fault ing).1 = builders ing ∧
  accounts (DB (UpdateAccountIDs fault ing).1) = accounts (DB ing).
Proof.
  intros H. destruct (UpdateAccountIDs_cases ing) as (Hb & _ & _ & new & _ & _ & Hres).
  rewrite H in Hres. destruct Hres as (msg & -> & Hrows & Hacc). eauto.
Qed.

End MoreResolution.

(** ** Flush, in every outcome *)

Lemma resolution_calls_uncommitted l cs :
  resolution_calls l cs → uncommitted cs ∧ statements cs = [].
Proof.
  unfold resolution_calls, uncommitted.
  destruct l; [intros ->|intros [->|(u & -> & _)]];
    (split; [split; intros H|done]);
    repeat (apply elem_of_cons in H as [?|H]; [done|]); by apply elem_of_nil in H.
Qed.

Lemma statements_uncommitted bs : uncommitted (INSERT <$> bs).
Proof.
  split; intros H; apply list_elem_of_fmap in H as (? & ? & _); done.
Qed.

Lemma uncommitted_app cs cs' : uncommitted cs → uncommitted cs' → uncommitted (cs ++ cs').
Proof.
  intros [H1 H2] [H3 H4]. split; rewrite elem_of_app; tauto.
Qed.



Lemma bind_Ok_eq {A B} (m : M A) (k : A → M B) ing ing' a :
  m ing = (ing', Ok a) → bind m k ing = k a ing'.
Proof. unfold bind. by intros ->. Qed.

Lemma bind_Err_eq {A B} (m : M A) (k : A → M B) ing ing' e :
  m ing = (ing', Err e) → bind m k ing = (ing', Err e).
Proof. unfold bind. by intros ->. Qed.

Lemma wrap_Ok_eq {A} msg (m : M A) ing ing' a :
  m ing = (ing', Ok a) → wrap msg m ing = (ing', Ok a).
Proof. unfold wrap. by intros ->. Qed.

Lemma wrap_Err_eq {A} msg (m : M A) ing ing' e :
  m ing = (ing', Err e) → wrap msg m ing = (ing', Err (Wrap e msg)).
Proof. unfold wrap. by intros ->. Qed.

Section FlushOutcomes.

Context (fault : list Call → Call → option string).
Context {map_range : MapRange}.

(** One step of the first loop, from any state. *)
Lemma flush_row_any r pc ing :
  (∀ t, is_Some (pc !! t) → t ∈ row_tables) →
  ∃ new,
    calls (DB (flush_row fault r pc ing).1) = calls (DB ing) ++ (INSERT <$> new) ∧
    rowsToInsert (flush_row fault r pc ing).1 = rowsToInsert ing ∧
    match (flush_row fault r pc ing).2 with
    | Ok pc' => ∀ t, is_Some (pc' !! t) → t ∈ row_tables
    | Err e => insert_error e
    | Panic _ => False
    end.
Proof.
  intros Hkeys. rewrite flush_row_eq. cbv zeta.
  pose proof (GetTableName_row_tables r) as Ht.
  destruct (builders ing !! GetTableName r) as [b|].
  2: { exists []. simpl. rewrite app_nil_r. split; [done|]. split; [done|].
       by constructor. }
  assert (∀ c c' t, is_Some (<[GetTableName r := c]>
                               (<[GetTableName r := c']> pc) !! t) →
                    t ∈ row_tables) as Hkeys2.
  { intros c c' t Hs. destruct (decide (GetTableName r = t)) as [<-|Hne]; [done|].
    apply Hkeys. by rewrite !lookup_insert_ne in Hs. }
  case_bool_decide.
  - destruct (db_Exec_cases fault (Values (GetParams r) b) (DB ing))
      as [(msg & _ & ->)|(s' & _ & -> & Hc & _)].
    + eexists [_]. simpl. split; [done|]. split; [done|]. by constructor.
    + rewrite createInsertBuilderByTableName_spec by done.
      eexists [_]. simpl. split; [done|]. split; [done|]. apply Hkeys2.
  - exists []. simpl. rewrite app_nil_r. split; [done|]. split; [done|].
    intros t Hs. destruct (decide (GetTableName r = t)) as [<-|Hne]; [done|].
    apply Hkeys. by rewrite lookup_insert_ne in Hs.
Qed.

Lemma flush_rows_any rows pc ing :
  (∀ t, is_Some (pc !! t) → t ∈ row_tables) →
  ∃ new,
    calls (DB (for_range rows (flush_row fault) pc ing).1) =
      calls (DB ing) ++ (INSERT <$> new) ∧
    rowsToInsert (for_range rows (flush_row fault) pc ing).1 = rowsToInsert ing ∧
    match (for_range rows (flush_row fault) pc ing).2 with
    | Ok pc' => ∀ t, is_Some (pc' !! t) → t ∈ row_tables
    | Err e => insert_error e
    | Panic _ => False
    end.
Proof.
  revert pc ing. induction rows as [|r rows IH]; intros pc ing Hkeys.
  - exists []. simpl. by rewrite app_nil_r.
  - rewrite for_range_cons.
    destruct (flush_row_any r pc ing Hkeys) as (new1 & Hc1 & Hr1 & Hres1).
    destruct (flush_row fault r pc ing) as [ing1 [pc1|e|msg]]; cbn [fst snd] in *;
      [|by exists new1|done].
    destruct (IH pc1 ing1 Hres1) as (new2 & Hc2 & Hr2 & Hres2).
    exists (new1 ++ new2). rewrite Hc2, Hc1, Hr2, Hr1, fmap_app, <- app_assoc. done.
Qed.

Lemma flush_rest_any es ing :
  (∀ t c, (t, c) ∈ es → t ∈ row_tables) →
  ∃ new,
    calls (DB (for_range es (flush_rest fault) tt ing).1) =
      calls (DB ing) ++ (INSERT <$> new) ∧
    rowsToInsert (for_range es (flush_rest fault) tt ing).1 = rowsToInsert ing ∧
    match (for_range es (flush_rest fault) tt ing).2 with
    | Ok _ => True
    | Err e => insert_error e
    | Panic _ => False
    end.
Proof.
  revert ing. induction es as [|[t c] es IH]; intros ing Hes.
  - exists []. simpl. by rewrite app_nil_r.
  - rewrite for_range_cons, flush_rest_eq.
    assert (t ∈ row_tables) as Ht by (apply (Hes t c); apply elem_of_cons; by left).
    assert (∀ t0 c0, (t0, c0) ∈ es → t0 ∈ row_tables) as Hes'.
    { intros t0 c0 H0. apply (Hes t0 c0). apply elem_of_cons. by right. }
    case_bool_decide.
    + destruct (db_Exec_cases fault (builder t ing) (DB ing))
        as [(msg & _ & ->)|(s' & _ & -> & Hs & _)].
      * eexists [_]. simpl. split; [done|]. split; [done|]. by constructor.
      * destruct (IH (set_DB s' ing) Hes') as (new & Hc & Hr & Hres).
        exists (builder t ing :: new). rewrite Hc, Hr. simpl. rewrite Hs, <- app_assoc.
        done.
    + apply IH, Hes'.
Qed.

Lemma flush_inserts_any ing :
  ∃ new,
    calls (DB (flush_inserts fault ing).1) = calls (DB ing) ++ (INSERT <$> new) ∧
    rowsToInsert (flush_inserts fault ing).1 = rowsToInsert ing ∧
    match (flush_inserts fault ing).2 with
    | Ok _ => True
    | Err e => insert_error e
    | Panic _ => False
    end.
Proof.
  unfold flush_inserts, bind at 1, get. unfold bind.
  destruct (flush_rows_any (rowsToInsert ing) ∅ ing) as (new1 & Hc1 & Hr1 & Hres1).
  { intros t [c Hc]. by rewrite lookup_empty in Hc. }
  destruct (for_range (rowsToInsert ing) (flush_row fault) ∅ ing)
    as [ing1 [pc|e|msg]]; cbn [fst snd] in *; [|by exists new1|done].
  destruct (flush_rest_any (range pc) ing1) as (new2 & Hc2 & Hr2 & Hres2).
  { intros t c H. apply elem_of_range in H. apply Hres1. eauto. }
  exists (new1 ++ new2). rewrite Hc2, Hc1, Hr2, Hr1, fmap_app, <- app_assoc. done.
Qed.

(** X7. [Flush] never panics.  It commits only after the resolution and every
    statement have succeeded: when it fails in the resolution (the store's
    error wrapped in "Error while updating account ids", no statement
    executed), on a missing builder or on a statement (the store's error
    wrapped with the table's name), no commit and no begin were issued.  The
    only other failures are those of the commit and of the begin that
    follows, returned as they are.  After any failure the rows are still
    buffered. *)
Theorem Flush_failure_modes ing :
  ∃ new,
    calls (DB (Flush fault ing).1) = calls (DB ing) ++ new ∧
    match (Flush fault ing).2 with
    | Ok _ => ∃ pre, new = pre ++ [COMMIT; BEGIN] ∧ uncommitted pre
    | Err e =>
        length (rowsToInsert (Flush fault ing).1) = length (rowsToInsert ing) ∧
        ((∃ msg, e = Wrap (StoreError msg) "Error while updating account ids" ∧
            statements new = [] ∧ uncommitted new) ∨
         (insert_error e ∧ uncommitted new) ∨
         (∃ msg pre, e = StoreError msg ∧ uncommitted pre ∧
            (new = pre ++ [COMMIT] ∨ new = pre ++ [COMMIT; BEGIN])))
    | Panic _ => False
    end.
Proof.
  unfold Flush.
  pose proof (UpdateAccountIDs_cases fault ing) as HU0. cbv zeta in HU0.
  destruct HU0 as (_ & _ & _ & newU & HcU & HrU & HresU).
  destruct (resolution_calls_uncommitted _ _ HrU) as [HuU HsU].
  destruct (UpdateAccountIDs fault ing) as [i1 [[]|e|msg]] eqn:HU; cbn [fst snd] in *;
    [| |done].
  2: { destruct HresU as (msg & -> & Hrows & _).
       rewrite (bind_Err_eq _ _ _ _ _ (wrap_Err_eq _ _ _ _ _ HU)). cbn [fst snd].
       exists newU. split; [done|].
       split; [by rewrite Hrows|]. left. by exists msg. }
  destruct HresU as [ids Hrows].
  assert (length (rowsToInsert i1) = length (rowsToInsert ing)) as Hlen.
  { by rewrite Hrows, length_map. }
  rewrite (bind_Ok_eq _ _ _ _ _ (wrap_Ok_eq _ _ _ _ _ HU)).
  destruct (flush_inserts_any i1) as (newI & HcI & HrI & HresI).
  pose proof (uncommitted_app _ _ HuU (statements_uncommitted newI)) as Hpre.
  destruct (flush_inserts fault i1) as [i2 [[]|e|msg]] eqn:HI; cbn [fst snd] in *;
    [| |done].
  2: { rewrite (bind_Err_eq _ _ _ _ _ HI). cbn [fst snd].
       exists (newU ++ (INSERT <$> newI)). rewrite HcI, HcU, <- app_assoc.
       split; [done|]. split; [by rewrite HrI|]. right. by left. }
  rewrite (bind_Ok_eq _ _ _ _ _ HI).
  destruct (commit_cases fault i2) as [(msg & _ & HC)|[_ HC]].
  { rewrite (bind_Err_eq _ _ _ _ _ HC). cbn [fst snd].
    exists (newU ++ (INSERT <$> newI) ++ [COMMIT]).
    simpl. rewrite HcI, HcU, <- !app_assoc. split; [done|].
    split; [by rewrite HrI|]. right. right.
    exists msg, (newU ++ (INSERT <$> newI)). rewrite <- !app_assoc.
    split; [done|]. split; [done|]. by left. }
  rewrite (bind_Ok_eq _ _ _ _ _ HC).
  destruct (Start_cases fault (set_DB (log COMMIT (DB i2)) i2))
    as [(msg & _ & ->)|[_ ->]]; cbn [fst snd].
  - exists (newU ++ (INSERT <$> newI) ++ [COMMIT; BEGIN]).
    simpl. rewrite HcI, HcU, <- !app_assoc. split; [done|].
    split; [by rewrite HrI|]. right. right.
    exists msg, (newU ++ (INSERT <$> newI)). rewrite <- !app_assoc.
    split; [done|]. split; [done|]. by right.
  - exists (newU ++ (INSERT <$> newI) ++ [COMMIT; BEGIN]).
    simpl. rewrite HcI, HcU, <- !app_assoc. split; [done|].
    exists (newU ++ (INSERT <$> newI)). by rewrite <- !app_assoc.
Qed.

(** X8. A writer whose builders lack the table of its first buffered row (a
    writer that was never started has none) cannot flush: once the
    resolution has succeeded, [Flush] stops at that row with the error
    "... insert builder does not exist", having executed no statement and
    committed nothing. *)
Theorem Flush_without_builder ing r rest :
  rowsToInsert ing = r :: rest →
  builders ing !! GetTableName r = None →
  (UpdateAccountIDs fault ing).2 = Ok tt →
  Flush fault ing =
    ((UpdateAccountIDs fault ing).1,
     Err (Errorf (GetTableName r +:+ " insert builder does not exist"))) ∧
  ∃ new, calls (DB (Flush fault ing).1) = calls (DB ing) ++ new ∧
    statements new = [] ∧ uncommitted new.
Proof.
  intros Hrows Hnone HU.
  pose proof (UpdateAccountIDs_cases fault ing) as HU0. cbv zeta in HU0.
  destruct HU0 as (Hb & _ & _ & newU & HcU & HrU & HresU).
  destruct (resolution_calls_uncommitted _ _ HrU) as [HuU HsU].
  rewrite HU in HresU. destruct HresU as [ids Hids]. rewrite Hrows in Hids.
  assert (Flush fault ing =
            ((UpdateAccountIDs fault ing).1,
             Err (Errorf (GetTableName r +:+ " insert builder does not exist")))) as HF.
  { unfold Flush.
    destruct (UpdateAccountIDs fault ing) as [i1 [[]|e|msg]] eqn:HU1;
      cbn [fst snd] in *; try done.
    rewrite (bind_Ok_eq _ _ _ _ _ (wrap_Ok_eq _ _ _ _ _ HU1)).
    apply bind_Err_eq. unfold flush_inserts.
    rewrite (bind_Ok_eq get _ i1 i1 i1 eq_refl), Hids. simpl map.
    apply bind_Err_eq. rewrite for_range_cons, flush_row_eq. cbv zeta.
    destruct (rewritten_row_same ids r) as [-> _]. by rewrite Hb, Hnone. }
  split; [done|]. rewrite HF. cbn [fst]. by exists newU.
Qed.


(** X10. A successful [Flush] from the builders [Start] installs executes
    statements into the seven row tables only: the [asset_stats] builder
    that [Start] creates is never executed. *)
Theorem Flush_targets_row_tables ing ing' :
  builders ing = fresh_builders →
  Flush fault ing = (ing', Ok tt) →
  ∃ new, calls (DB ing') = calls (DB ing) ++ new ∧
    ∀ b, INSERT b ∈ new → into b ∈ row_tables ∧ into b ≠ "asset_stats".
Proof.
  intros Hb HF.
  destruct (Flush_Ok_statements fault ing ing' Hb HF)
    as (mid & ids & newI & HU & Hids & Hc & Hok).
  pose proof (UpdateAccountIDs_cases fault ing) as HU0. cbv zeta in HU0.
  destruct HU0 as (_ & _ & _ & newU & HcU & HrU & _).
  destruct (resolution_calls_uncommitted _ _ HrU) as [_ HsU].
  rewrite HU in HcU. cbn [fst] in HcU.
  exists (newU ++ (INSERT <$> newI) ++ [COMMIT; BEGIN]).
  split; [by rewrite Hc, HcU, <- app_assoc|].
  intros b Hin.
  assert (b ∈ newI) as HbI.
  { assert (b ∈ statements (newU ++ (INSERT <$> newI) ++ [COMMIT; BEGIN])) as H.
    { unfold statements. apply list_elem_of_omap. by exists (INSERT b). }
    by rewrite statements_app, HsU, statements_of_Flush in H. }
  assert (into b ∈ row_tables) as Hrow.
  { destruct (decide (into b ∈ row_tables)) as [?|Hn]; [done|]. exfalso.
    destruct (Hok (into b)) as [_ Hsmall].
    rewrite (tuples_for_row_tables _ _ Hn) in Hsmall.
    assert (b ∈ into_table (into b) newI) as Hin2.
    { unfold into_table. by apply list_elem_of_filter. }
    rewrite Hsmall in Hin2; [by apply elem_of_nil in Hin2|]. unfold len. simpl. lia. }
  split; [done|]. intros E. rewrite E in Hrow. revert Hrow. compute_done.
Qed.

End FlushOutcomes.

(** ** Clear, when it succeeds *)

Lemma delete_range_other start end_ (m : gmap string (list StoredRow)) targets t :
  t ∉ targets.*1 → foldl (delete_range start end_) m targets !! t = m !! t.
Proof.
  revert m. induction targets as [|tc rest IH]; intros m Ht; [done|].
  rewrite fmap_cons, not_elem_of_cons in Ht. destruct Ht as [Hne Ht].
  simpl. rewrite IH by done. unfold delete_range. by rewrite lookup_alter_ne.
Qed.

Lemma delete_range_target start end_ (m : gmap string (list StoredRow)) targets t c :
  NoDup targets.*1 → (t, c) ∈ targets →
  foldl (delete_range start end_) m targets !! t =
    filter (λ r, in_range start end_ c r = false) <$> m !! t.
Proof.
  revert m. induction targets as [|tc rest IH]; intros m Hnd Hin.
  { by apply elem_of_nil in Hin. }
  rewrite fmap_cons in Hnd. apply NoDup_cons in Hnd as [Hfresh Hnd].
  apply elem_of_cons in Hin as [<-|Hin]; simpl.
  - rewrite delete_range_other by done. unfold delete_range. simpl.
    by rewrite lookup_alter_eq.
  - rewrite IH by done. unfold delete_range. rewrite lookup_alter_ne; [done|].
    intros E. apply Hfresh. rewrite E. apply list_elem_of_fmap. by exists (t, c).
Qed.

Lemma NoDup_clear_targets : NoDup clear_targets.*1.
Proof. compute_done. Qed.

Lemma filter_in_range_empty start end_ c (rows : list StoredRow) :
  (end_ ≤ start)%Z → filter (λ r, in_range start end_ c r = false) rows = rows.
Proof.
  intros Hle. induction rows as [|r rows IH]; [done|].
  rewrite filter_cons, IH. case_decide as E; [done|]. exfalso. apply E.
  unfold in_range. destruct (key_of c r) as [k|]; [|done].
  apply andb_false_iff.
  destruct (decide (start ≤ k)%Z); [right|left]; apply bool_decide_eq_false_2; lia.
Qed.

Section ClearOutcomes.

Context (fault : list Call → Call → option string).

(** Whatever its outcome, clearing touches the store's tables only. *)
Lemma clear_each_frame start end_ targets ing :
  let ing' := (clear_each fault start end_ targets ing).1 in
  rowsToInsert ing' = rowsToInsert ing ∧ builders ing' = builders ing ∧
  assetStats ing' = assetStats ing ∧
  accounts (DB ing') = accounts (DB ing) ∧ assets (DB ing') = assets (DB ing).
Proof.
  cbv zeta. revert ing. induction targets as [|tc rest IH]; intros ing; [done|].
  assert (clear_each fault start end_ (tc :: rest) ing =
          match db_DeleteRange fault start end_ tc.1 tc.2 (DB ing) with
          | (s', Ok _) => clear_each fault start end_ rest (set_DB s' ing)
          | (s', Err e) => (set_DB s' ing, Err e)
          | (s', Panic msg) => (set_DB s' ing, Panic msg)
          end) as ->.
  { simpl. unfold bind, db.
    by destruct (db_DeleteRange fault start end_ tc.1 tc.2 (DB ing)) as [s' [[]|?|?]]. }
  unfold db_DeleteRange.
  match goal with |- context [call fault ?c ?run (DB ing)] =>
    destruct (call_cases fault c run (DB ing)) as [(msg & _ & ->)|[_ ->]] end;
    [done|].
  cbn [fst snd].
  match goal with |- context [clear_each fault start end_ rest ?i] =>
    destruct (IH i) as (-> & -> & -> & -> & ->) end.
  done.
Qed.

(** X11. A successful [Clear(start, end)] has issued exactly its eight range
    deletes and leaves, in each of the eight tables, the records whose key
    is outside [[start, end)], in their order; every other table, the
    accounts and the assets of the store, and the writer's buffered rows and
    builders are as they were.  With [end <= start] nothing is removed. *)
Theorem Clear_success start end_ ing ing' :
  Clear fault start end_ ing = (ing', Ok tt) →
  calls (DB ing') = calls (DB ing) ++ delete_calls start end_ clear_targets ∧
  (∀ t c, (t, c) ∈ clear_targets →
     table_rows t (DB ing') =
       filter (λ r, in_range start end_ c r = false) (table_rows t (DB ing))) ∧
  (∀ t, t ∉ clear_targets.*1 → table_rows t (DB ing') = table_rows t (DB ing)) ∧
  rowsToInsert ing' = rowsToInsert ing ∧ builders ing' = builders ing ∧
  accounts (DB ing') = accounts (DB ing) ∧ assets (DB ing') = assets (DB ing) ∧
  ((end_ ≤ start)%Z → ∀ t, table_rows t (DB ing') = table_rows t (DB ing)).
Proof.
  intros H. rewrite Clear_clear_each in H.
  destruct (clear_each_spec fault start end_ clear_targets ing)
    as (k & _ & Htab & _ & Hres).
  pose proof (clear_each_frame start end_ clear_targets ing) as Hframe.
  cbv zeta in Htab, Hres, Hframe. rewrite H in Htab, Hres, Hframe.
  cbn [fst snd] in *. destruct Hres as [-> Hcalls].
  rewrite take_ge in Htab by done.
  destruct Hframe as (Hrows & Hb & _ & Hacc & Hass).
  assert (∀ t c, (t, c) ∈ clear_targets →
     table_rows t (DB ing') =
       filter (λ r, in_range start end_ c r = false) (table_rows t (DB ing))) as Hin.
  { intros t c Htc. unfold table_rows.
    rewrite Htab, (delete_range_target _ _ _ _ t c NoDup_clear_targets Htc).
    by destruct (tables (DB ing) !! t). }
  assert (∀ t, t ∉ clear_targets.*1 → table_rows t (DB ing') = table_rows t (DB ing))
    as Hout.
  { intros t Ht. unfold table_rows. by rewrite Htab, delete_range_other. }
  repeat (split; [done|]).
  intros Hle t. destruct (decide (t ∈ clear_targets.*1)) as [Ht|Ht]; [|by apply Hout].
  apply list_elem_of_fmap in Ht as ([t' c] & -> & Htc).
  cbn [fst]. rewrite (Hin _ _ Htc). by apply filter_in_range_empty.
Qed.

(** X12. [ClearAll] is [Clear(0, MaxInt64)]: when it succeeds, a record of one
    of the eight tables is still there exactly when it has no integer key
    in the table's key column, or its key is negative or is [MaxInt64]
    itself, the one non-negative 64-bit key the half-open range leaves
    out. *)
Theorem ClearAll_leaves_outside ing ing' t c r :
  ClearAll fault ing = (ing', Ok tt) →
  (t, c) ∈ clear_targets →
  r ∈ table_rows t (DB ing') ↔
  r ∈ table_rows t (DB ing) ∧
  match key_of c r with
  | Some k => (k < 0 ∨ MaxInt64 ≤ k)%Z
  | None => True
  end.
Proof.
  intros H Htc. unfold ClearAll in H. rewrite Clear_clear_each in H.
  destruct (clear_each_spec fault 0 MaxInt64 clear_targets ing)
    as (k & _ & Htab & _ & Hres).
  cbv zeta in Htab, Hres. rewrite H in Htab, Hres.
  cbn [fst snd] in *. destruct Hres as [-> _].
  rewrite take_ge in Htab by done.
  unfold table_rows.
  rewrite Htab, (delete_range_target _ _ _ _ t c NoDup_clear_targets Htc).
  destruct (tables (DB ing) !! t) as [rows|]; simpl.
  2: { split; [intros Hr|intros [Hr _]]; by apply elem_of_nil in Hr. }
  rewrite list_elem_of_filter. unfold in_range.
  destruct (key_of c r) as [k|]; [|tauto].
  rewrite andb_false_iff, !bool_decide_eq_false. split; intros [H1 H2]; split; try done; lia.
Qed.

End ClearOutcomes.

(** ** Time bounds *)

Lemma uint_avoids c d :
  (c = "," ∨ c = "]")%char → avoids c (NilEmpty.string_of_uint d).
Proof.
  intros Hc. induction d; simpl; (split; [|done]) || done;
    destruct Hc as [-> | ->]; discriminate.
Qed.

Lemma sprint_d_avoids c z : (c = "," ∨ c = "]")%char → avoids c (sprint_d z).
Proof.
  intros Hc. unfold sprint_d.
  assert (∀ d, avoids c (NilZero.string_of_uint d)) as Hu.
  { intros d. unfold NilZero.string_of_uint.
    destruct d; try by apply uint_avoids.
    simpl. split; [|done]. destruct Hc as [-> | ->]; discriminate. }
  destruct (Z.to_int z); simpl; [apply Hu|]. split; [|apply Hu].
  destruct Hc as [-> | ->]; discriminate.
Qed.

(** Two strings that avoid [c] and are followed by [c] are equal when the
    whole strings are, and so are the rests. *)
Lemma split_at c a a' b b' :
  avoids c a → avoids c a' →
  a +:+ String c b = a' +:+ String c b' → a = a' ∧ b = b'.
Proof.
  revert a'. induction a as [|x a IH]; intros [|x' a'] Ha Ha' E; simpl in *.
  - by injection E.
  - injection E as -> _. by destruct Ha'.
  - injection E as -> _. by destruct Ha.
  - injection E as -> E. destruct Ha as [_ Ha], Ha' as [_ Ha'].
    by destruct (IH a' Ha Ha' E) as [-> ->].
Qed.

Lemma sprint_d_inj z z' : sprint_d z = sprint_d z' → z = z'.
Proof.
  unfold sprint_d. intros E. apply DecimalZ.to_int_inj.
  assert (∀ z, NilZero.int_of_string (NilZero.string_of_int (Z.to_int z)) =
               Some (Z.to_int z)) as Hparse.
  { intros x. apply NilZero.isi; destruct x as [|p|p]; try done; simpl;
      intros [= Hp]; by apply (DecimalPos.Unsigned.to_uint_nonnil p). }
  apply (f_equal NilZero.int_of_string) in E. rewrite !Hparse in E. by injection E.
Qed.

Lemma sprint_d_nonempty z : sprint_d z ≠ EmptyString.
Proof.
  unfold sprint_d. destruct (Z.to_int z) as [d|d]; [|discriminate].
  destruct d; discriminate.
Qed.

(** X13. The value [formatTimeBounds] stores determines the time bounds it
    was computed from: no bounds give NULL, bounds give an [int8range]
    expression, and two different bounds never give the same value.  The
    range has no upper end exactly when [MaxTime] is zero. *)
Theorem formatTimeBounds_faithful :
  (∀ b1 b2, formatTimeBounds b1 = formatTimeBounds b2 → b1 = b2) ∧
  (∀ b, formatTimeBounds b = VNull ↔ b = None) ∧
  (∀ b, xdr.MaxTime b = 0%Z ↔
        formatTimeBounds (Some b) =
          VExpr "?::int8range" ("[" +:+ sprint_d (xdr.MinTime b) +:+ ",]")).
Proof.
  assert (∀ m m' M', sprint_d m +:+ ",]" ≠
             sprint_d m' +:+ "," +:+ sprint_d M' +:+ "]") as Hopen.
  { intros m m' M' E.
    apply split_at in E as [_ E]; try (apply sprint_d_avoids; by left).
    destruct (sprint_d M') as [|c s] eqn:EM; [by apply sprint_d_nonempty in EM|].
    injection E as _ E. by destruct s. }
  split; [|split].
  - intros [[m1 M1]|] [[m2 M2]|]; unfold formatTimeBounds; simpl;
      repeat case_bool_decide; subst; try done; intros [= E].
    + apply split_at in E as [E _]; try (apply sprint_d_avoids; by left).
      by apply sprint_d_inj in E as ->.
    + by apply Hopen in E.
    + symmetry in E. by apply Hopen in E.
    + apply split_at in E as [E1 E2]; try (apply sprint_d_avoids; by left).
      apply sprint_d_inj in E1 as ->.
      change (sprint_d M1 +:+ String "]" EmptyString =
              sprint_d M2 +:+ String "]" EmptyString) in E2.
      apply split_at in E2 as [E2 _]; try (apply sprint_d_avoids; by right).
      by apply sprint_d_inj in E2 as ->.
  - intros [b|]; unfold formatTimeBounds; [|done]. by case_bool_decide.
  - intros [m M]. unfold formatTimeBounds. simpl. case_bool_decide; [done|].
    split; [done|]. intros [= E]. symmetry in E. by apply Hopen in E.
Qed.

(** ** The store after a flush *)



Section Stored.

Context (fault : list Call → Call → option string).
Context {map_range : MapRange}.

Lemma db_Exec_Ok b s :
  fault (calls s) (INSERT b) = None →
  db_Exec fault b s = (set_tables (exec_insert (tables s) b) (log (INSERT b) s), Ok tt).
Proof. intros H. unfold db_Exec, call. by rewrite H. Qed.







End Stored.

(** ** A store that never fails *)

Lemma for_range_Ok {A S} (I : Ingestion → Prop) (body : A → S → M S) l st ing :
  (∀ a st ing, I ing → I (body a st ing).1 ∧ ∃ st', (body a st ing).2 = Ok st') →
  I ing →
  ∃ st', (for_range l body st ing).2 = Ok st'.
Proof.
  intros Hbody. revert st ing. induction l as [|a l IH]; intros st ing HI.
  { by exists st. }
  rewrite for_range_cons. destruct (Hbody a st ing HI) as [HI1 [st1 Hst1]].
  destruct (body a st ing) as [ing1 r]. cbn [fst snd] in *. subst r. by apply IH.
Qed.

Lemma call_no_fault {A} c (run : Session → Session * A) s :
  call no_fault c run s = ((run (log c s)).1, Ok (run (log c s)).2).
Proof. by destruct (call_cases no_fault c run s) as [(msg & ? & _)|[_ ->]]. Qed.

Section Unfailing.

Context {map_range : MapRange}.

Lemma UpdateAccountIDs_no_fault ing : (UpdateAccountIDs no_fault ing).2 = Ok tt.
Proof.
  rewrite UpdateAccountIDs_eq. cbv zeta. case_bool_decide; [done|].
  unfold q_AccountsByAddresses. rewrite call_no_fault. cbn [fst snd].
  case_bool_decide; [|done]. unfold q_CreateAccounts. by rewrite call_no_fault.
Qed.

Lemma flush_row_no_fault r pc ing :
  builders_ready ing →
  builders_ready (flush_row no_fault r pc ing).1 ∧
  ∃ pc', (flush_row no_fault r pc ing).2 = Ok pc'.
Proof.
  intros Hready. split; [by apply flush_row_ready|].
  rewrite flush_row_eq. cbv zeta.
  pose proof (GetTableName_row_tables r) as Ht.
  destruct (Hready _ Ht) as [b ->].
  case_bool_decide; [|by eexists].
  rewrite (db_Exec_Ok no_fault) by done.
  rewrite createInsertBuilderByTableName_spec by done. by eexists.
Qed.

Lemma flush_inserts_no_fault ing :
  builders_ready ing → (flush_inserts no_fault ing).2 = Ok tt.
Proof.
  intros Hready. unfold flush_inserts. rewrite (bind_Ok_eq get _ ing ing ing eq_refl).
  destruct (for_range_Ok builders_ready (flush_row no_fault) (rowsToInsert ing) ∅ ing
              (λ a st i, flush_row_no_fault a st i) Hready) as [pc Hpc].
  destruct (for_range (rowsToInsert ing) (flush_row no_fault) ∅ ing) as [ing1 r] eqn:E.
  cbn [snd] in Hpc. subst r. rewrite (bind_Ok_eq _ _ _ _ _ E).
  destruct (for_range_Ok (λ _, True) (flush_rest no_fault) (range pc) tt ing1)
    as [[] H]; [|done..].
  intros [t c] [] i _. split; [done|]. rewrite flush_rest_eq.
  case_bool_decide; [|by eexists]. rewrite (db_Exec_Ok no_fault) by done. by eexists.
Qed.

Lemma Flush_no_fault ing :
  builders_ready ing → Flush no_fault ing = ((Flush no_fault ing).1, Ok tt).
Proof.
  intros Hready.
  assert ((Flush no_fault ing).2 = Ok tt) as H;
    [|by destruct (Flush no_fault ing) as [? ?]; simpl in H; subst].
  unfold Flush.
  destruct (UpdateAccountIDs_builders no_fault ing) as [Hb _].
  pose proof (UpdateAccountIDs_no_fault ing) as HU.
  destruct (UpdateAccountIDs no_fault ing) as [i1 r1] eqn:E1. cbn [fst snd] in *.
  subst r1. rewrite (bind_Ok_eq _ _ _ _ _ (wrap_Ok_eq _ _ _ _ _ E1)).
  assert (builders_ready i1) as Hready1.
  { intros t Ht. rewrite Hb. by apply Hready. }
  pose proof (flush_inserts_no_fault i1 Hready1) as HI.
  destruct (flush_inserts no_fault i1) as [i2 r2] eqn:E2. cbn [snd] in HI. subst r2.
  rewrite (bind_Ok_eq _ _ _ _ _ E2).
  destruct (commit_cases no_fault i2) as [(msg & ? & _)|[_ HC]]; [done|].
  rewrite (bind_Ok_eq _ _ _ _ _ HC).
  by destruct (Start_cases no_fault (set_DB (log COMMIT (DB i2)) i2))
    as [(msg & ? & _)|[_ ->]].
Qed.

End Unfailing.

(** Statements of at most 65535 parameters that together hold more than
    that are at least two. *)
Lemma two_statements (bs : list InsertBuilder) (tuples : list (list Value)) :
  Forall (λ b, (bound_params b ≤ 65535)%Z) bs →
  concat (values <$> bs) = tuples →
  (65535 < len (concat tuples))%Z →
  2 ≤ length bs.
Proof.
  intros Hbs <- Hlen. destruct bs as [|b [|b' bs]]; [done| |simpl; lia].
  apply Forall_cons in Hbs as [Hb _]. unfold bound_params in Hb.
  simpl in Hlen. rewrite app_nil_r in Hlen. lia.
Qed.

Lemma operations_buffer_rows n t :
  rows_for t (rowsToInsert (operations_buffer n)) =
    if decide (OperationsTableName = t) then replicate (Z.to_nat n) (operation_row 1)
    else [].
Proof.
  unfold operations_buffer, rows_for. simpl rowsToInsert.
  induction (Z.to_nat n) as [|k IH]; simpl replicate.
  { by case_decide. }
  rewrite filter_cons, IH. change (GetTableName (operation_row 1)) with OperationsTableName.
  by repeat case_decide.
Qed.

Lemma operations_buffer_params n :
  (0 ≤ n)%Z →
  len (concat (tuples_for OperationsTableName (rowsToInsert (operations_buffer n)))) =
    (6 * n)%Z.
Proof.
  intros Hn. unfold tuples_for. rewrite operations_buffer_rows, decide_True by done.
  rewrite <- (Z2Nat.id n) at 2 by done.
  induction (Z.to_nat n) as [|k IH]; [done|].
  simpl replicate. rewrite fmap_cons, concat_cons, len_app, IH.
  unfold len. simpl length. lia.
Qed.

Lemma Forall_into_table (P : InsertBuilder → Prop) t bs :
  Forall P bs → Forall P (into_table t bs).
Proof.
  rewrite !Forall_forall. intros H b Hb. apply H.
  unfold into_table in Hb. by apply list_elem_of_filter in Hb as [_ ?].
Qed.

Lemma operations_buffer_ready n : builders_ready (operations_buffer n).
Proof. apply started_ready. Qed.

(** * The properties on sample runs *)

(** ** Flush *)

(** A row that takes the count from 64998 to 65004 has the statement executed
    and the count reset; one that takes it from 64994 to 65000 has not. *)
Example step_above_threshold :
  statements (calls (DB (step_at 64998).1)) =
    [ statement OperationsTableName [GetParams (operation_row 1)] ] ∧
  builder OperationsTableName (step_at 64998).1 = statement OperationsTableName [] ∧
  match (step_at 64998).2 with
  | Ok paramsCount => count paramsCount OperationsTableName = 0%Z
  | _ => False
  end.
Proof. vm_compute. repeat split; reflexivity. Qed.

Example step_at_threshold :
  statements (calls (DB (step_at 64994).1)) = [] ∧
  builder OperationsTableName (step_at 64994).1 =
    statement OperationsTableName [GetParams (operation_row 1)] ∧
  match (step_at 64994).2 with
  | Ok paramsCount => count paramsCount OperationsTableName = 65000%Z
  | _ => False
  end.
Proof. vm_compute. repeat split; reflexivity. Qed.

(** The sample buffer is flushed in one statement per table with rows;
    accounts GB and GS are created, GA is found. *)
Example Flush_sample_buffer :
  let ing' := (Flush no_fault (map_range := canonical_range) sample_buffer).1 in
  calls (DB ing') =
    [ BEGIN; GET_CREATE_ASSET usd; GET_CREATE_ASSET AssetNative;
      SELECT_ACCOUNTS ["GA"; "GB"; "GS"];
      INSERT_ACCOUNTS ["GS"; "GB"];
      INSERT (statement "history_effects"
                [ [VInt 1; VInt 1; VInt 1; VInt 0; VBytes []];
                  [VInt 3; VInt 1; VInt 2; VInt 0; VBytes []];
                  [VInt 1; VInt 2; VInt 1; VInt 3; VBytes []] ]);
      INSERT (statement "history_trades"
                [ [VInt 2; VInt 1; VTime 100; VInt 7; VInt 3; VInt 3; VInt 20;
                   VInt 2; VInt 5; VInt 10; VBool false] ]);
      COMMIT; BEGIN ] ∧
  accounts (DB ing') =
    [ {| history.ID := 1; history.Address := "GA" |};
      {| history.ID := 2; history.Address := "GS" |};
      {| history.ID := 3; history.Address := "GB" |} ].
Proof. vm_compute. split; reflexivity. Qed.

Lemma Flush_chunks_statements_witness :
  (calls (DB (step_at 64998).1) =
     calls (DB (started empty_store)) ++
     [INSERT (Values (GetParams (operation_row 1)) (fresh_builder OperationsTableName))] ∧
   ∃ pc', (step_at 64998).2 = Ok pc' ∧ count pc' OperationsTableName = 0%Z ∧
     builders (step_at 64998).1 !! OperationsTableName =
       Some (statement OperationsTableName [])) ∧
  (∃ mid ids new,
     UpdateAccountIDs no_fault (map_range := canonical_range) sample_buffer =
       (mid, Ok tt) ∧
     rowsToInsert mid = map (row_UpdateAccountIDs ids) (rowsToInsert sample_buffer) ∧
     calls (DB (Flush no_fault (map_range := canonical_range) sample_buffer).1) =
       calls (DB sample_buffer) ++ new ∧
     Forall (λ b, (bound_params b ≤ 65535)%Z) (statements new) ∧
     ∀ t,
       concat (values <$> statements_for t new) =
         resolved_tuples ids t (rowsToInsert sample_buffer) ∧
       length (concat (values <$> statements_for t new)) =
         length (rows_for t (rowsToInsert sample_buffer))) ∧
  (∃ new,
     calls (DB (Flush no_fault (map_range := canonical_range)
                  (operations_buffer 10923)).1) =
       calls (DB (operations_buffer 10923)) ++ new ∧
     Forall (λ b, (bound_params b ≤ 65535)%Z) (statements new) ∧
     2 ≤ length (statements_for OperationsTableName new) ∧
     length (concat (values <$> statements_for OperationsTableName new)) =
       Z.to_nat 10923).
Proof.
  pose proof (Flush_chunks_statements no_fault (map_range := canonical_range))
    as (Hstep & _ & Hrun).
  split; [|split].
  - destruct (Hstep (started empty_store) (operation_row 1)
                {[ OperationsTableName := 64998%Z ]}
                (fresh_builder OperationsTableName))
      as [Hc Hreset]; [reflexivity | vm_compute; reflexivity |].
    split; [exact Hc | apply Hreset; reflexivity].
  - apply Hrun; [reflexivity | vm_compute; reflexivity].
  - destruct (Hrun (operations_buffer 10923) _ eq_refl
                (Flush_no_fault (map_range := canonical_range) _
                   (operations_buffer_ready 10923)))
      as (mid & ids & new & _ & _ & Hc & Hf & Hok).
    exists new. split; [exact Hc|]. split; [exact Hf|].
    destruct (Hok OperationsTableName) as [Hv Hl].
    split.
    + apply (two_statements _ _ (Forall_into_table _ OperationsTableName _ Hf) Hv).
      rewrite <- resolved_tuples_eq, tuples_len_rewritten.
      rewrite operations_buffer_params; lia.
    + rewrite Hl, operations_buffer_rows, decide_True by done.
      apply length_replicate.
Defined.

Lemma Flush_one_statement_per_table_witness :
  builders sample_buffer = fresh_builders ∧
  (∀ t, (len (concat (tuples_for t (rowsToInsert sample_buffer))) ≤ 65000)%Z) ∧
  ∃ mid ids new,
    UpdateAccountIDs no_fault (map_range := canonical_range) sample_buffer = (mid, Ok tt) ∧
    rowsToInsert mid = map (row_UpdateAccountIDs ids) (rowsToInsert sample_buffer) ∧
    calls (DB (Flush no_fault (map_range := canonical_range) sample_buffer).1) =
      calls (DB sample_buffer) ++ new ∧
    ∀ t, statements_for t new =
      match rows_for t (rowsToInsert sample_buffer) with
      | [] => []
      | _ => [statement t (resolved_tuples ids t (rowsToInsert sample_buffer))]
      end.
Proof.
  assert (∀ t, (len (concat (tuples_for t (rowsToInsert sample_buffer))) ≤ 65000)%Z)
    as Hsmall.
  { intros t. pose proof (tuples_total_bound t (rowsToInsert sample_buffer)) as H.
    vm_compute (len (rowsToInsert sample_buffer)) in H. lia. }
  split; [reflexivity|]. split; [exact Hsmall|].
  apply (Flush_one_statement_per_table no_fault (map_range := canonical_range)
           sample_buffer); [reflexivity | exact Hsmall | vm_compute; reflexivity].
Defined.

(** ** Emitters *)

(** The spec's example: the asset numbered 5 sold for the asset numbered 3. *)
Example Trade_3_5 :
  rowsToInsert (Trade no_fault 2 1 sample_buyer sample_trade 100 (started sample_store)).1 =
    [ Trade_
        {| tradeRow.OperationID := 2; tradeRow.Order := 1;
           tradeRow.LedgerCloseAt := 100; tradeRow.OfferID := 7;
           tradeRow.BaseAccountID := 0; tradeRow.BaseAssetID := 3;
           tradeRow.BaseAmount := 20;
           tradeRow.CounterAccountID := 0; tradeRow.CounterAssetID := 5;
           tradeRow.CounterAmount := 10;
           tradeRow.BaseIsSeller := false;
           tradeRow.BaseAddress := "GB"; tradeRow.CounterAddress := "GS" |} ].
Proof. reflexivity. Qed.

Lemma Trade_is_canonical_witness :
  ∃ r,
    rowsToInsert (Trade no_fault 2 1 sample_buyer sample_trade 100
                    (started sample_store)).1 = [Trade_ r] ∧
    tradeRow.BaseAssetID r = 3%Z ∧ tradeRow.CounterAssetID r = 5%Z ∧
    tradeRow.BaseIsSeller r = false.
Proof.
  destruct (Trade_is_canonical no_fault 2 1 sample_buyer sample_trade 100
              (started sample_store)
              (log (GET_CREATE_ASSET usd) (log BEGIN sample_store))
              (log (GET_CREATE_ASSET AssetNative)
                 (log (GET_CREATE_ASSET usd) (log BEGIN sample_store)))
              5 3 eq_refl eq_refl ltac:(lia))
    as (r & Hr & Hb & Hc & Hf & _).
  exists r. rewrite Hr, Hf, Hb, Hc. repeat split; reflexivity.
Defined.

Lemma Trade_equal_identifiers_witness :
  ∃ r,
    rowsToInsert (Trade no_fault 2 1 sample_buyer self_trade 100
                    (started sample_store)).1 = [Trade_ r] ∧
    tradeRow.BaseIsSeller r = false ∧
    base_side r = ("GB", 5%Z, 20%Z) ∧ counter_side r = ("GS", 5%Z, 10%Z).
Proof.
  destruct (Trade_equal_identifiers no_fault 2 1 sample_buyer self_trade 100
              (started sample_store)
              (log (GET_CREATE_ASSET usd) (log BEGIN sample_store))
              (log (GET_CREATE_ASSET usd)
                 (log (GET_CREATE_ASSET usd) (log BEGIN sample_store)))
              5 5 eq_refl eq_refl)
    as (r & Hr & _ & _ & Heq).
  exists r. rewrite Hr. destruct (Heq eq_refl) as (Hf & Hb & Hc).
  rewrite Hf, Hb, Hc. repeat split; reflexivity.
Defined.

(** [Trade] on a store that knows neither asset records both. *)
Lemma Trade_touches_the_store :
  calls (DB (Trade no_fault 2 1 sample_buyer sample_trade 100
               (new_Ingestion empty_store)).1) =
    [ GET_CREATE_ASSET usd; GET_CREATE_ASSET AssetNative ] ∧
  assets (DB (Trade no_fault 2 1 sample_buyer sample_trade 100
                (new_Ingestion empty_store)).1) =
    [ (usd, 1%Z); (AssetNative, 2%Z) ] ∧
  ¬ ∃ rows, appends (Trade no_fault 2 1 sample_buyer sample_trade 100)
              (new_Ingestion empty_store) rows.
Proof.
  split; [reflexivity|]. split; [reflexivity|].
  intros [rows H]. unfold appends in H. apply (f_equal (λ i, calls (DB i))) in H.
  discriminate H.
Qed.

Lemma encoding_failure_buffers_nothing_witness :
  Effect sample_Marshal "GA" 1 1 0 None sample_buffer =
    (sample_buffer, Err (EncodingError "json: unsupported value")) ∧
  Operation sample_Marshal 1 1 1 sample_buyer 0 None sample_buffer =
    (sample_buffer, Err (EncodingError "json: unsupported value")).
Proof.
  exact (proj1 (encoding_failure_buffers_nothing sample_Marshal
                  "GA" 1 1 0 1 1 1 sample_buyer 0 None sample_buffer)
               (EncodingError "json: unsupported value") eq_refl).
Defined.

Lemma emitters_only_buffer_witness :
  (∃ rows, appends (OperationParticipants 5 [sample_buyer; sample_buyer])
             sample_buffer rows) ∧
  (Trade no_fault 2 1 sample_buyer sample_trade 100 sample_buffer).2 = Ok tt ∧
  ∃ r, rowsToInsert (Trade no_fault 2 1 sample_buyer sample_trade 100
                       sample_buffer).1 = rowsToInsert sample_buffer ++ [Trade_ r].
Proof.
  pose proof (emitters_only_buffer no_fault sample_Marshal
    "GA" 1 1 0 None 1 1 1 sample_buyer 0 None 5 [sample_buyer; sample_buyer]
    1 {| core.Sequence := 2; core.LedgerHash := "h"; core.PrevHash := "p";
         core.CloseTime := 0;
         core.Data := {| xdr.TotalCoins := 0; xdr.FeePool := 0; xdr.BaseFee := 100;
                         xdr.BaseReserve := 5; xdr.MaxTxSetSize := 50;
                         xdr.LedgerVersion := 9 |};
         core.DataXDR := "x" |} 0 0 0 0
    1 {| core.TransactionHash := "t"; core.LedgerSequence := 2; core.Index := 1;
         core.SourceAddress := "GA"; core.Sequence_ := 1; core.Fee := 100;
         core.Operations := 1; core.EnvelopeXDR := "e"; core.ResultXDR := "r";
         core.ResultMetaXDR := "m"; core.Base64Signatures := [];
         core.TimeBounds := None; core.MemoType := "none";
         core.Memo := null.NewString "x" false |}
      {| core.ChangesXDR := "c" |} 0 0 5 [] 2 1 sample_buyer sample_trade 100
    sample_buffer) as (_ & _ & Hp & _ & _ & _ & Ht).
  split; [exact Hp|]. cbv zeta in Ht. destruct Ht as (_ & _ & Hok & Hrow & _).
  assert ((Trade no_fault 2 1 sample_buyer sample_trade 100 sample_buffer).2 = Ok tt)
    as H by (apply Hok; split; reflexivity).
  split; [exact H|]. apply Hrow, H.
Defined.

(** ** Account resolution *)

Lemma sample_store_wf : accounts_wf (DB sample_buffer).
Proof.
  split; [|split].
  - apply NoDup_singleton.
  - reflexivity.
  - constructor; [|constructor]. split; reflexivity.
Defined.

Lemma accounts_resolved_once_witness :
  accounts_wf (DB sample_buffer) ∧
  ∃ ids created,
    rowsToInsert (UpdateAccountIDs no_fault (map_range := canonical_range)
                    sample_buffer).1 =
      map (row_UpdateAccountIDs ids) (rowsToInsert sample_buffer) ∧
    accounts (DB (UpdateAccountIDs no_fault (map_range := canonical_range)
                    sample_buffer).1) =
      accounts (DB sample_buffer) ++ created ∧
    NoDup (history.Address <$> created).
Proof.
  split; [exact sample_store_wf|].
  destruct (accounts_resolved_once no_fault (map_range := canonical_range)
              sample_buffer
              (UpdateAccountIDs no_fault (map_range := canonical_range) sample_buffer).1
              sample_store_wf ltac:(vm_compute; reflexivity))
    as (ids & created & Hrows & _ & Hacc & Hnd & _).
  exists ids, created. split; [exact Hrows|]. split; [exact Hacc | exact Hnd].
Defined.

(** ** The transaction life cycle *)

(** A second [Flush] right after a first one only commits and begins. *)
Example Flush_twice :
  let once := (Flush no_fault (map_range := canonical_range) sample_buffer).1 in
  let twice := (Flush no_fault (map_range := canonical_range) once).1 in
  calls (DB twice) = calls (DB once) ++ [COMMIT; BEGIN] ∧
  rowsToInsert once = [] ∧ rowsToInsert twice = [].
Proof. vm_compute. repeat split; reflexivity. Qed.

Lemma Flush_restarts_witness :
  ∃ new,
    calls (DB (Flush no_fault (map_range := canonical_range)
                 (started sample_store)).1) =
      calls (DB (started sample_store)) ++ new ∧
    ∀ b, INSERT b ∉ new.
Proof.
  destruct (proj1 (Flush_restarts no_fault (map_range := canonical_range)
                     (started sample_store)) eq_refl)
    as (new & Hcalls & Hnone & _).
  exists new. split; [exact Hcalls | exact Hnone].
Defined.

Lemma builders_exist_for_buffered_rows_witness :
  builders_ready sample_buffer ∧
  store_outcome (Flush no_fault (map_range := canonical_range) sample_buffer).2.
Proof.
  assert (buffering no_fault sample_Marshal sample_buffer) as Hbuf.
  { change sample_buffer with
      (Trade no_fault 2 1 sample_buyer sample_trade 100
         (Effect sample_Marshal "GA" 2 1 3 (Some [])
            (Effect sample_Marshal "GB" 1 2 0 (Some [])
               (Effect sample_Marshal "GA" 1 1 0 (Some [])
                  (started sample_store)).1).1).1).1.
    repeat (apply buffering_emit; [|constructor]).
    apply (buffering_Start no_fault sample_Marshal (new_Ingestion sample_store)).
    reflexivity. }
  destruct (proj2 (proj2 (proj2 (builders_exist_for_buffered_rows no_fault sample_Marshal
                                   (map_range := canonical_range))))
              sample_buffer Hbuf) as (Hready & _ & _ & Hout).
  split; [exact Hready | exact Hout].
Defined.

(** ** Clear *)

(** The spec's example: [Clear(10, 15)] on keys 10 to 20 leaves 15 to 20. *)
Example Clear_10_15 :
  (Clear no_fault 10 15 effects_10_20).2 = Ok tt ∧
  table_rows "history_effects" (DB (Clear no_fault 10 15 effects_10_20).1) =
    stored_effect <$> seqZ 15 6.
Proof. vm_compute. split; reflexivity. Qed.

(** When the third delete fails, the first two have been applied and the
    remaining five are not issued. *)
Example Clear_partial :
  (Clear operations_locked 10 15 effects_10_20).2 = Err (StoreError "lock timeout") ∧
  calls (DB (Clear operations_locked 10 15 effects_10_20).1) =
    [ DELETE_RANGE 10 15 "history_effects" "history_operation_id";
      DELETE_RANGE 10 15 "history_operation_participants" "history_operation_id";
      DELETE_RANGE 10 15 "history_operations" "id" ] ∧
  table_rows "history_effects" (DB (Clear operations_locked 10 15 effects_10_20).1) =
    stored_effect <$> seqZ 15 6.
Proof. vm_compute. repeat split; reflexivity. Qed.

Lemma Clear_stops_at_first_failure_witness :
  ∃ k,
    k ≤ length clear_targets ∧
    tables (DB (Clear operations_locked 10 15 effects_10_20).1) =
      foldl (delete_range 10 15) (tables (DB effects_10_20)) (take k clear_targets).
Proof.
  destruct (Clear_stops_at_first_failure operations_locked 10 15 effects_10_20)
    as (_ & _ & k & Hk & Ht & _).
  exists k. split; [exact Hk | exact Ht].
Defined.

(** ** Further sample runs *)

Lemma createInsertBuilderByTableName_total_witness :
  (∃ b, createInsertBuilderByTableName "history_trades" (started empty_store) =
          (set_builders (<["history_trades" := b]> (builders (started empty_store)))
             (started empty_store), Ok tt) ∧
        into b = "history_trades" ∧ values b = [] ∧ columns b ≠ [] ∧
        NoDup (columns b)) ∧
  createInsertBuilderByTableName "asset_stats" (started empty_store) =
    (started empty_store, Panic "Invalid table name").
Proof.
  destruct (createInsertBuilderByTableName_total "history_trades"
              (started empty_store)) as [Hrow _].
  destruct (createInsertBuilderByTableName_total "asset_stats"
              (started empty_store)) as [_ Hother].
  split.
  - apply Hrow; [|compute_done].
    intros H. apply (f_equal (λ m, m !! "history_trades")) in H.
    vm_compute in H. discriminate H.
  - apply Hother. compute_done.
Defined.

Lemma UpdateAccountIDs_failure_witness :
  (UpdateAccountIDs accounts_down (map_range := canonical_range) sample_buffer).2 =
    Err (StoreError "connection refused") ∧
  rowsToInsert (UpdateAccountIDs accounts_down (map_range := canonical_range)
                  sample_buffer).1 = rowsToInsert sample_buffer.
Proof.
  split; [vm_compute; reflexivity|].
  apply (UpdateAccountIDs_failure accounts_down (map_range := canonical_range)
           sample_buffer (StoreError "connection refused")).
  vm_compute; reflexivity.
Defined.

Lemma Flush_without_builder_witness :
  rowsToInsert unstarted = [ga_effect] ∧
  (Flush no_fault (map_range := canonical_range) unstarted).2 =
    Err (Errorf "history_effects insert builder does not exist").
Proof.
  split; [reflexivity|].
  destruct (Flush_without_builder no_fault (map_range := canonical_range)
              unstarted ga_effect [])
    as [-> _]; [reflexivity | reflexivity | vm_compute; reflexivity | reflexivity].
Defined.


Lemma Flush_targets_row_tables_witness :
  ∃ new,
    calls (DB (Flush no_fault (map_range := canonical_range) sample_buffer).1) =
      calls (DB sample_buffer) ++ new ∧
    ∀ b, INSERT b ∈ new → into b ∈ row_tables ∧ into b ≠ "asset_stats".
Proof.
  apply (Flush_targets_row_tables no_fault (map_range := canonical_range)
           sample_buffer);
    [reflexivity | vm_compute; reflexivity].
Defined.

Lemma Clear_success_witness :
  let cleared := (Clear no_fault 10 15 effects_10_20).1 in
  table_rows "history_effects" (DB cleared) =
    filter (λ r, in_range 10 15 "history_operation_id" r = false)
      (table_rows "history_effects" (DB effects_10_20)) ∧
  accounts (DB cleared) = accounts (DB effects_10_20).
Proof.
  cbv zeta.
  destruct (Clear_success no_fault 10 15 effects_10_20
              (Clear no_fault 10 15 effects_10_20).1)
    as (_ & Hin & _ & _ & _ & Hacc & _); [vm_compute; reflexivity|].
  split; [|exact Hacc]. apply Hin. constructor.
Defined.

Lemma ClearAll_leaves_outside_witness :
  stored_effect MaxInt64 ∈
    table_rows "history_effects" (DB (ClearAll no_fault effects_at_the_ends).1).
Proof.
  apply (ClearAll_leaves_outside no_fault effects_at_the_ends
           (ClearAll no_fault effects_at_the_ends).1
           "history_effects" "history_operation_id" (stored_effect MaxInt64));
    [vm_compute; reflexivity | constructor |].
  split; [|vm_compute; right; discriminate].
  vm_compute. do 2 constructor. constructor.
Defined.

